(** * mocha: numeric kernels, caches and the per-record pipeline of mochatools

    A shallow embedding of [src/mochatools.c] and [src/beta_binom.c].

    Conventions.
    - C [int] values are [Z]; every theorem states the range it needs.
    - C [double] values are Rocq's primitive binary64 floats ([PrimFloat]):
      [+], [-], [*], [/] are the IEEE 754 operations rounded to nearest even,
      one rounding per operation and in the source's order of evaluation, as
      on x86-64/SSE2 and AArch64.  A [float] that is only stored, compared
      and tested with [isnan] is embedded in the same type (every binary32
      value is a binary64 value).
    - A heap array is a finite map [gmap Z float] from index to cell: a cell
      that was never written is absent, and reading it yields [nan] in the
      model (the C value is indeterminate).
    - A [for (i = lo; i < hi; i++)] loop is a left fold over [seqZ lo (hi - lo)]
      whose accumulator holds the variables the body updates. *)

From Stdlib Require Import ZArith QArith Lia List Bool Floats Sorted Permutation.
From stdpp Require Import gmap list_numbers strings.

Local Open Scope Z_scope.

(** ** C doubles and heap arrays *)

(** [(double)i] for a C [int] i. *)
Definition d_of_int (z : Z) : float :=
  if z <? 0 then PrimFloat.opp (PrimFloat.of_uint63 (Uint63.of_Z (- z)))
  else PrimFloat.of_uint63 (Uint63.of_Z z).

(** [a[i]] as an rvalue. *)
Definition rd (a : gmap Z float) (i : Z) : float := default nan (a !! i).

(** C's [x == y], [x < y], [x <= y] and [isnan(x)] on doubles. *)
Definition feq (x y : float) : bool := PrimFloat.eqb x y.
Definition flt (x y : float) : bool := PrimFloat.ltb x y.
Definition fle (x y : float) : bool := PrimFloat.leb x y.
Definition isnan (x : float) : bool := PrimFloat.is_nan x.

(** htslib's [kroundup32] (kstring.h): the next power of two, for a 32-bit
    value.  htslib is a collaborator outside the sources under study. *)
Definition kroundup32 (x : Z) : Z :=
  let x := x - 1 in
  let x := Z.lor x (Z.shiftr x 1) in
  let x := Z.lor x (Z.shiftr x 2) in
  let x := Z.lor x (Z.shiftr x 4) in
  let x := Z.lor x (Z.shiftr x 8) in
  let x := Z.lor x (Z.shiftr x 16) in
  (x + 1) mod 2 ^ 32.

(** htslib's [hts_expand(type, n, m, ptr)]: when [n > m] the capacity [m]
    becomes [kroundup32 n] and the block is reallocated, which keeps its
    contents; the result is the new capacity. *)
Definition hts_expand (n m : Z) : Z := if m <? n then kroundup32 n else m.


(** ** C floats

    [(float)x] for a double [x]: rounding to binary32, to nearest even.  A
    binary32 operation on two floats is the binary64 operation followed by
    this rounding (53 >= 2 * 24 + 2, so the double rounding is innocuous for
    [+], [-], [*] and [/]). *)
Definition f32_of_double (x : float) : float :=
  match Prim2SF x with
  | S754_finite s m e => SF2Prim (binary_round 24 128 s m e)
  | _ => x
  end.

Definition f32_of_int (z : Z) : float := f32_of_double (d_of_int z).
Definition f32_add (x y : float) : float := f32_of_double (x + y)%float.
Definition f32_sub (x y : float) : float := f32_of_double (x - y)%float.
Definition f32_div (x y : float) : float := f32_of_double (x / y)%float.

(** [0.0f - (float)log10(p)], the form in which [process] reports every
    p-value; [log10] is the C library's. *)
Definition neg_log10 (log10 : float → float) (p : float) : float :=
  f32_sub 0 (f32_of_double (log10 p)).
(** ** [binom_exact]: the exact two-sided binomial tail and its triangular table *)

(** The function's [static] variables.  [released] records that the
    sentinel call has freed the two blocks. *)
Record binom_tab := BinomTab {
  dbinom : gmap Z float;
  pbinom : gmap Z float;
  n_size : Z;
  m_dbinom : Z;
  m_pbinom : Z;
  released : bool
}.

Definition binom_tab_init : binom_tab :=
  {| dbinom := ∅; pbinom := ∅; n_size := 0; m_dbinom := 0; m_pbinom := 0;
     released := false |}.

(** The loop-carried variables of the inner [for (j ...)] loop. *)
Definition binom_inner (i : Z) (st : Z * Z * gmap Z float * gmap Z float) (j : Z)
  : Z * Z * gmap Z float * gmap Z float :=
  let '(prev_idx, curr_idx, d, p) := st in
  let curr_idx := curr_idx + 1 in
  let d := <[curr_idx := (d_of_int i / d_of_int j * rd d prev_idx * 0.5)%float]> d in
  let p := <[curr_idx := (rd p (curr_idx - 1) + rd d curr_idx)%float]> p in
  (prev_idx + 1, curr_idx, d, p).

(** The body of the outer [for (i ...)] loop: one row of the triangle. *)
Definition binom_row (dp : gmap Z float * gmap Z float) (i : Z)
  : gmap Z float * gmap Z float :=
  let '(d, p) := dp in
  let prev_idx := if i - 1 =? 0 then 0 else 1 + Z.shiftr (i - 1) 1 * Z.shiftr i 1 in
  let curr_idx := 1 + Z.shiftr i 1 * Z.shiftr (i + 1) 1 in
  let d := <[curr_idx := (rd d prev_idx * 0.5)%float]> d in
  let p := <[curr_idx := rd d curr_idx]> p in
  let '(_, _, d, p) :=
    fold_left (binom_inner i) (seqZ 1 (Z.shiftr (i + 1) 1 - 1)) (prev_idx, curr_idx, d, p) in
  (d, p).

(** The [if (n >= n_size) { ... }] block. *)
Definition binom_grow (t : binom_tab) (n : Z) : binom_tab :=
  let len := 1 + (1 + Z.shiftr n 1) * Z.shiftr (n + 1) 1 in
  let md := hts_expand len (m_dbinom t) in
  let mp := hts_expand len (m_pbinom t) in
  let d := <[0 := 1%float]> (dbinom t) in
  let lo := if n_size t =? 0 then 1 else n_size t in
  let '(d, p) := fold_left binom_row (seqZ lo (n + 1 - lo)) (d, pbinom t) in
  {| dbinom := d; pbinom := p; n_size := n + 1; m_dbinom := md; m_pbinom := mp;
     released := released t |}.

(** [free(dbinom); free(pbinom);]: the statics keep their values. *)
Definition binom_free (t : binom_tab) : binom_tab :=
  {| dbinom := dbinom t; pbinom := pbinom t; n_size := n_size t;
     m_dbinom := m_dbinom t; m_pbinom := m_pbinom t; released := true |}.

Section binom_exact.
(** [binom_dist(N, p, k)] of bcftools/mcall.c, used above 1000 trials. *)
Variable binom_dist : Z → float → Z → float.

Definition binom_exact (t : binom_tab) (k n : Z) : float * binom_tab :=
  if (n <? 0) && (k <? 0) then (nan, binom_free t)
  else if (n <? 0) || (k <? 0) || (n <? k) then (nan, t)
  else if 1000 <? n then (binom_dist n 0.5%float k, t)
  else if k =? Z.shiftr n 1 then (1%float, t)
  else
    let k := if n <? Z.shiftl k 1 then n - k else k in
    let t := if n_size t <=? n then binom_grow t n else t in
    let idx := 1 + Z.shiftr n 1 * Z.shiftr (n + 1) 1 + k in
    ((2 * rd (pbinom t) idx)%float, t).

(** The states the static table goes through before it is released. *)
Inductive binom_reachable : binom_tab → Prop :=
| reach_init : binom_reachable binom_tab_init
| reach_call t k n :
    binom_reachable t → ¬ (n < 0 ∧ k < 0) →
    binom_reachable (binom_exact t k n).2.

(** [binom_exact(k, n) == binom_exact(n - k, n)], the two calls made one
    after the other on the same table. *)
Definition binom_sym_test (t : binom_tab) (k n : Z) : bool :=
  let '(r1, t1) := binom_exact t k n in
  let '(r2, _) := binom_exact t1 (n - k) n in
  feq r1 r2.
End binom_exact.

(** *** The values the table is meant to hold

    [dval i j] is what the fill loop stores for C(i,j)/2^i and [pval i j] for
    the running sum over [0..j], with the loop's own roundings.  They are the
    specification of the table's contents, row by row. *)
Fixpoint dval (i j : nat) : float :=
  match i with
  | O => 1%float
  | S i' =>
      match j with
      | O => (dval i' 0 * 0.5)%float
      | S j' => (d_of_int (Z.of_nat i) / d_of_int (Z.of_nat j) * dval i' j' * 0.5)%float
      end
  end.

Fixpoint pval (i j : nat) : float :=
  match j with
  | O => dval i 0
  | S j' => (pval i j' + dval i j)%float
  end.

Definition dv (i j : Z) : float := dval (Z.to_nat i) (Z.to_nat j).
Definition pv (i j : Z) : float := pval (Z.to_nat i) (Z.to_nat j).

(** Row [i >= 1] starts at [rstart i] and has [ncell i] cells; cell 0 of the
    block ([dbinom[0] = 1.0]) plays the part of row 0. *)
Definition rstart (i : Z) : Z := if i =? 0 then 0 else 1 + Z.shiftr i 1 * Z.shiftr (i + 1) 1.
Definition ncell (i : Z) : Z := if i =? 0 then 1 else Z.shiftr (i + 1) 1.

(** Rows [0 .. hi-1] of the two blocks hold the specified values. *)
Definition rows_ok (hi : Z) (d p : gmap Z float) : Prop :=
  (∀ i j, 0 ≤ i < hi → 0 ≤ j < ncell i → d !! (rstart i + j) = Some (dv i j)) ∧
  (∀ i j, 1 ≤ i < hi → 0 ≤ j < ncell i → p !! (rstart i + j) = Some (pv i j)).

(** The table invariant: the blocks are live and rows [0 .. n_size-1] hold
    the specified values. *)
Definition tab_ok (t : binom_tab) : Prop :=
  released t = false ∧ 0 ≤ n_size t ∧
  (0 < n_size t → rows_ok (n_size t) (dbinom t) (pbinom t)).

(** *** The specified values, computed row by row

    The pointwise specification [dval]/[pval] is evaluated one row at a time,
    each row from the one before, so that a property of every cell up to row
    1000 can be decided by evaluation. *)
Definition ncell_nat (i : nat) : nat :=
  match i with O => 1%nat | S _ => Nat.div2 (S i) end.

Fixpoint dtail (i j : Z) (prev : list float) : list float :=
  match prev with
  | [] => []
  | x :: r => (d_of_int i / d_of_int j * x * 0.5)%float :: dtail i (j + 1) r
  end.

(** Row [i], of [n] cells, from row [i - 1]. *)
Definition next_drow (i : Z) (n : nat) (prev : list float) : list float :=
  match prev with
  | [] => []
  | x :: _ => (x * 0.5)%float :: take (n - 1) (dtail i 1 prev)
  end.

Fixpoint psums (acc : float) (l : list float) : list float :=
  match l with
  | [] => []
  | x :: r => let s := (acc + x)%float in s :: psums s r
  end.

Definition prow_of (d : list float) : list float :=
  match d with [] => [] | x :: r => x :: psums x r end.

Fixpoint forallb_from (g : Z → float → bool) (j : Z) (l : list float) : bool :=
  match l with
  | [] => true
  | x :: r => g j x && forallb_from g (j + 1) r
  end.

(** [table_check good m i prev]: rows [i+1 .. i+m], starting from row [i]
    given as [prev], satisfy [good row column value] at every cell of the
    running sums. *)
Fixpoint table_check (good : Z → Z → float → bool) (m : nat) (i : Z) (prev : list float)
  : bool :=
  match m with
  | O => true
  | S m' =>
      let d := next_drow (i + 1) (Z.to_nat (ncell (i + 1))) prev in
      forallb_from (good (i + 1)) 0 (prow_of d) && table_check good m' (i + 1) d
  end.

Definition drow_spec (i : nat) : list float := map (dval i) (seq 0 (ncell_nat i)).


(** A stand-in for [binom_dist] where a concrete table is evaluated: no call
    with [n <= 1000] reaches it. *)
Definition no_binom_dist : Z → float → Z → float := fun _ _ _ => nan.

(** What is decided for the cell of row [i], column [j], whose running sum is
    [v]: the value [2 * v] the function returns from it is a number, is
    positive, is at most [1 + 2^-50], and is at most 1 unless the cell is the
    middle one of an odd row. *)
Definition cell_good (i j : Z) (v : float) : bool :=
  let r := (2 * v)%float in
  feq r r && flt 0 r && fle r 0x1.0000000000004p+0 &&
  (fle r 1 || (Z.odd i && (j =? Z.shiftr i 1))).

(** ** [beta_binom.c]: the cache of log-gamma ratios *)

(** A [while (cond) body] loop; [fuel] bounds the number of iterations. *)
Fixpoint while_loop {S : Type} (fuel : nat) (cond : S → bool) (body : S → S) (s : S) : S :=
  match fuel with
  | O => s
  | Datatypes.S fuel' => if cond s then while_loop fuel' cond body (body s) else s
  end.

(** [beta_binom_t].  The scalar fields [p], [rho], [n1], [n2] carry the
    prefix [bb_], since [beta_binom_update] has parameters of the same names. *)
Record beta_binom_t := BetaBinom {
  bb_p : float;
  bb_rho : float;
  bb_n1 : Z;
  bb_n2 : Z;
  log_gamma_alpha : gmap Z float;
  log_gamma_beta : gmap Z float;
  log_gamma_alpha_beta : gmap Z float;
  m_log_gamma_alpha : Z;
  m_log_gamma_beta : Z;
  m_log_gamma_alpha_beta : Z
}.

(** htslib's [hts_expand0]: as [hts_expand], and the new cells are zeroed. *)
Definition hts_expand0 (n m : Z) (a : gmap Z float) : Z * gmap Z float :=
  if m <? n then
    let m' := kroundup32 n in
    (m', fold_left (fun a i => <[i := 0%float]> a) (seqZ m (m' - m)) a)
  else (m, a).

Definition beta_binom_init : beta_binom_t :=
  let '(ma, a) := hts_expand0 1 0 ∅ in
  let '(mb, b) := hts_expand0 1 0 ∅ in
  let '(mab, ab) := hts_expand0 1 0 ∅ in
  {| bb_p := nan; bb_rho := nan; bb_n1 := 0; bb_n2 := 0;
     log_gamma_alpha := a; log_gamma_beta := b; log_gamma_alpha_beta := ab;
     m_log_gamma_alpha := ma; m_log_gamma_beta := mb; m_log_gamma_alpha_beta := mab |}.

(** The three caches, to name the cell a store goes to. *)
Inductive bb_cache := Alpha | Beta | AlphaBeta.

(** The state the loops run on: the struct, and the stores made so far (a
    ghost trace: cache and index of every assignment to a cell). *)
Definition bb_st : Type := beta_binom_t * list (bb_cache * Z).

(** [self->p = p; self->rho = rho; self->n1 = 0; self->n2 = 0;] *)
Definition bb_reset (self : beta_binom_t) (p rho : float) : beta_binom_t :=
  {| bb_p := p; bb_rho := rho; bb_n1 := 0; bb_n2 := 0;
     log_gamma_alpha := log_gamma_alpha self; log_gamma_beta := log_gamma_beta self;
     log_gamma_alpha_beta := log_gamma_alpha_beta self;
     m_log_gamma_alpha := m_log_gamma_alpha self;
     m_log_gamma_beta := m_log_gamma_beta self;
     m_log_gamma_alpha_beta := m_log_gamma_alpha_beta self |}.

(** The three [hts_expand] calls. *)
Definition bb_expand (self : beta_binom_t) (n1 n2 : Z) : beta_binom_t :=
  {| bb_p := bb_p self; bb_rho := bb_rho self; bb_n1 := bb_n1 self; bb_n2 := bb_n2 self;
     log_gamma_alpha := log_gamma_alpha self; log_gamma_beta := log_gamma_beta self;
     log_gamma_alpha_beta := log_gamma_alpha_beta self;
     m_log_gamma_alpha := hts_expand (n1 + 1) (m_log_gamma_alpha self);
     m_log_gamma_beta := hts_expand (n1 + 1) (m_log_gamma_beta self);
     m_log_gamma_alpha_beta := hts_expand (n2 + 1) (m_log_gamma_alpha_beta self) |}.

(** [self->n1 = n1; self->log_gamma_alpha[n1] = va; self->log_gamma_beta[n1] = vb;] *)
Definition bb_store1 (self : beta_binom_t) (n1 : Z) (va vb : float) : beta_binom_t :=
  {| bb_p := bb_p self; bb_rho := bb_rho self; bb_n1 := n1; bb_n2 := bb_n2 self;
     log_gamma_alpha := <[n1 := va]> (log_gamma_alpha self);
     log_gamma_beta := <[n1 := vb]> (log_gamma_beta self);
     log_gamma_alpha_beta := log_gamma_alpha_beta self;
     m_log_gamma_alpha := m_log_gamma_alpha self;
     m_log_gamma_beta := m_log_gamma_beta self;
     m_log_gamma_alpha_beta := m_log_gamma_alpha_beta self |}.

(** [self->n2 = n2; self->log_gamma_alpha_beta[n2] = v;] *)
Definition bb_store2 (self : beta_binom_t) (n2 : Z) (v : float) : beta_binom_t :=
  {| bb_p := bb_p self; bb_rho := bb_rho self; bb_n1 := bb_n1 self; bb_n2 := n2;
     log_gamma_alpha := log_gamma_alpha self;
     log_gamma_beta := log_gamma_beta self;
     log_gamma_alpha_beta := <[n2 := v]> (log_gamma_alpha_beta self);
     m_log_gamma_alpha := m_log_gamma_alpha self;
     m_log_gamma_beta := m_log_gamma_beta self;
     m_log_gamma_alpha_beta := m_log_gamma_alpha_beta self |}.

Section beta_binom.
(** The C library's [log]. *)
Variable log : float → float.

(** Bodies of the two loops of the binomial case ([rho == 0]). *)
Definition bb_binom_body1 (log_alpha log_beta : float) (st : bb_st) : bb_st :=
  let '(self, w) := st in
  let n1 := bb_n1 self + 1 in
  let log_n1 := log (d_of_int n1) in
  (bb_store1 self n1
     (rd (log_gamma_alpha self) (n1 - 1) + log_alpha - log_n1)%float
     (rd (log_gamma_beta self) (n1 - 1) + log_beta - log_n1)%float,
   w ++ [(Alpha, n1); (Beta, n1)]).

Definition bb_binom_body2 (st : bb_st) : bb_st :=
  let '(self, w) := st in
  let n2 := bb_n2 self + 1 in
  (bb_store2 self n2 (rd (log_gamma_alpha_beta self) (n2 - 1) - log (d_of_int n2))%float,
   w ++ [(AlphaBeta, n2)]).

(** Bodies of the two loops of the overdispersed case. *)
Definition bb_beta_body1 (alpha beta : float) (st : bb_st) : bb_st :=
  let '(self, w) := st in
  let n1 := bb_n1 self + 1 in
  (bb_store1 self n1
     (rd (log_gamma_alpha self) (n1 - 1)
      + log ((alpha + d_of_int n1 - 1) / d_of_int n1))%float
     (rd (log_gamma_beta self) (n1 - 1)
      + log ((beta + d_of_int n1 - 1) / d_of_int n1))%float,
   w ++ [(Alpha, n1); (Beta, n1)]).

Definition bb_beta_body2 (alpha beta : float) (st : bb_st) : bb_st :=
  let '(self, w) := st in
  let n2 := bb_n2 self + 1 in
  (bb_store2 self n2
     (rd (log_gamma_alpha_beta self) (n2 - 1)
      + log ((alpha + beta + d_of_int n2 - 1) / d_of_int n2))%float,
   w ++ [(AlphaBeta, n2)]).

(** The function after its first [if]: the expansions and the loops. *)
Definition bb_fill (self : beta_binom_t) (p rho : float) (n1 n2 : Z) : bb_st :=
  let self := bb_expand self n1 n2 in
  if feq rho 0 then
    let log_alpha := log p in
    let log_beta := log (1 - p)%float in
    let st := while_loop (Z.to_nat (n1 - bb_n1 self)) (fun st => bb_n1 st.1 <? n1)
                (bb_binom_body1 log_alpha log_beta) (self, []) in
    while_loop (Z.to_nat (n2 - bb_n2 self)) (fun st => bb_n2 st.1 <? n2) bb_binom_body2 st
  else
    let s := ((1 - rho) / rho)%float in
    let alpha := (p * s)%float in
    let beta := ((1 - p) * s)%float in
    let st := while_loop (Z.to_nat (n1 - bb_n1 self)) (fun st => bb_n1 st.1 <? n1)
                (bb_beta_body1 alpha beta) (self, []) in
    while_loop (Z.to_nat (n2 - bb_n2 self)) (fun st => bb_n2 st.1 <? n2)
      (bb_beta_body2 alpha beta) st.

(** [beta_binom_update]: the struct after the call, and the stores it made. *)
Definition beta_binom_update (self : beta_binom_t) (p rho : float) (n1 n2 : Z) : bb_st :=
  let self :=
    if negb (feq (bb_p self) p) || negb (feq (bb_rho self) rho)
    then bb_reset self p rho else self in
  bb_fill self p rho n1 n2.

(** A sequence of calls at the same [(p, rho)], with the stores of all of
    them in order. *)
Fixpoint bb_updates (self : beta_binom_t) (p rho : float) (calls : list (Z * Z)) : bb_st :=
  match calls with
  | [] => (self, [])
  | (n1, n2) :: rest =>
      let '(self1, w1) := beta_binom_update self p rho n1 n2 in
      let '(self2, w2) := bb_updates self1 p rho rest in
      (self2, w1 ++ w2)
  end.
End beta_binom.

(** The stores a call makes when it raises the marks from [(m1, m2)] to
    [(n1, n2)]: one per cache and index, in the order of the loops. *)
Definition bb_stores (m1 n1 m2 n2 : Z) : list (bb_cache * Z) :=
  flat_map (fun i => [(Alpha, i); (Beta, i)]) (seqZ (m1 + 1) (n1 - m1)) ++
  map (fun i => (AlphaBeta, i)) (seqZ (m2 + 1) (n2 - m2)).

(** The shape shared by the bodies of the [n1] loops and of the [n2] loops:
    the mark goes up by one and the cell at the new mark is assigned. *)
Definition bb_body1_shape (body : bb_st → bb_st) : Prop :=
  ∀ self w, ∃ va vb,
    body (self, w) =
    (bb_store1 self (bb_n1 self + 1) va vb,
     w ++ [(Alpha, bb_n1 self + 1); (Beta, bb_n1 self + 1)]).

Definition bb_body2_shape (body : bb_st → bb_st) : Prop :=
  ∀ self w, ∃ v,
    body (self, w) =
    (bb_store2 self (bb_n2 self + 1) v, w ++ [(AlphaBeta, bb_n2 self + 1)]).

(** What a loop leaves alone: the parameters, the capacities and the cells
    outside the written range. *)
Definition bb_frame1 (lo hi : Z) (s r : beta_binom_t) : Prop :=
  bb_p r = bb_p s ∧ bb_rho r = bb_rho s ∧ bb_n2 r = bb_n2 s ∧
  log_gamma_alpha_beta r = log_gamma_alpha_beta s ∧
  m_log_gamma_alpha r = m_log_gamma_alpha s ∧
  m_log_gamma_beta r = m_log_gamma_beta s ∧
  m_log_gamma_alpha_beta r = m_log_gamma_alpha_beta s ∧
  (∀ i, ¬ (lo < i ≤ hi) →
     log_gamma_alpha r !! i = log_gamma_alpha s !! i ∧
     log_gamma_beta r !! i = log_gamma_beta s !! i).

Definition bb_frame2 (lo hi : Z) (s r : beta_binom_t) : Prop :=
  bb_p r = bb_p s ∧ bb_rho r = bb_rho s ∧ bb_n1 r = bb_n1 s ∧
  log_gamma_alpha r = log_gamma_alpha s ∧
  log_gamma_beta r = log_gamma_beta s ∧
  m_log_gamma_alpha r = m_log_gamma_alpha s ∧
  m_log_gamma_beta r = m_log_gamma_beta s ∧
  m_log_gamma_alpha_beta r = m_log_gamma_alpha_beta s ∧
  (∀ i, ¬ (lo < i ≤ hi) → log_gamma_alpha_beta r !! i = log_gamma_alpha_beta s !! i).

(** What [bb_fill] does to the struct [s], as a relation with its result
    [r]: the marks reach [n1] and [n2] (or stay, if already beyond), the
    capacities are those of the expansions, the parameters are kept, and the
    cells outside the ranges the loops cover are kept. *)
Definition bb_fill_post (s : beta_binom_t) (n1 n2 : Z) (r : beta_binom_t) : Prop :=
  bb_n1 r = Z.max (bb_n1 s) n1 ∧ bb_n2 r = Z.max (bb_n2 s) n2 ∧
  bb_p r = bb_p s ∧ bb_rho r = bb_rho s ∧
  m_log_gamma_alpha r = hts_expand (n1 + 1) (m_log_gamma_alpha s) ∧
  m_log_gamma_beta r = hts_expand (n1 + 1) (m_log_gamma_beta s) ∧
  m_log_gamma_alpha_beta r = hts_expand (n2 + 1) (m_log_gamma_alpha_beta s) ∧
  (∀ i, ¬ (bb_n1 s < i ≤ n1) →
     log_gamma_alpha r !! i = log_gamma_alpha s !! i ∧
     log_gamma_beta r !! i = log_gamma_beta s !! i) ∧
  (∀ i, ¬ (bb_n2 s < i ≤ n2) →
     log_gamma_alpha_beta r !! i = log_gamma_alpha_beta s !! i).

(** A stand-in for the C library's [log] where a concrete call is evaluated. *)
Definition no_log : float → float := fun x => x.

(** ** [mann_whitney_u]: the merge walk over the two sorted samples

    The walk only compares sample values, so it is stated over any type [V]
    of values with the two comparisons the source uses, [<] and [==]; for the
    C floats these are the comparisons of the values (the source notes that
    NaN is not handled).  Indices and counts are non-negative [int]s, here
    [nat]; an array is the list of its cells and [na], [nb] are the lengths.
    The accumulators [U] and [ties] are [double]s holding half-integers and
    integers; the model keeps their exact values, which are the doubles'
    values as long as these stay below 2^53. *)
Section mann_whitney.
Context {V : Type} (vlt veq : V → V → bool).

(** [qsort(a, na, sizeof(float), cmpfunc)]: the ascending rearrangement. *)
Fixpoint qsort_insert (x : V) (l : list V) : list V :=
  match l with
  | [] => [x]
  | y :: r => if vlt x y then x :: l else y :: qsort_insert x r
  end.

Definition qsort (l : list V) : list V := fold_right qsort_insert [] l.

(** [for (ca = 0; i < na && a[i] == curr; i++) ca++;] from index [i] and
    count [ca]; the result is the final [(i, ca)]. *)
Fixpoint count_run (fuel : nat) (a : list V) (curr : V) (i ca : nat) : nat * nat :=
  match fuel with
  | O => (i, ca)
  | S fuel' =>
      match a !! i with
      | Some x => if veq x curr then count_run fuel' a curr (S i) (S ca) else (i, ca)
      | None => (i, ca)
      end
  end.

(** [(j == nb || (i < na && a[i] < b[j])) ? a[i] : b[j]] *)
Definition mwu_curr (a b : list V) (i j : nat) : option V :=
  if (j =? length b)%nat ||
     ((i <? length a)%nat &&
      match a !! i, b !! j with Some x, Some y => vlt x y | _, _ => false end)
  then a !! i else b !! j.

(** The [while (i < na || j < nb)] loop.  [None]: the fuel ran out, or a
    cell was read outside its array. *)
Fixpoint mwu_walk (fuel : nat) (a b : list V) (i j : nat) (U : Q) (ties : Z)
  : option (Q * Z) :=
  match fuel with
  | O => None
  | S fuel' =>
      if (i <? length a)%nat || (j <? length b)%nat then
        match mwu_curr a b i j with
        | None => None
        | Some curr =>
            let '(i, ca) := count_run (length a) a curr i 0 in
            let '(j, cb) := count_run (length b) b curr j 0 in
            let U := (U + inject_Z (Z.of_nat ca)
                          * (inject_Z (Z.of_nat j) - inject_Z (Z.of_nat cb) * (1 # 2)))%Q in
            let ties :=
              if negb (ca =? 0)%nat && negb (cb =? 0)%nat then
                let tie := Z.of_nat ca + Z.of_nat cb in
                ties + (tie * tie - 1) * tie
              else ties in
            mwu_walk fuel' a b i j U ties
        end
      else Some (U, ties)
  end.

(** The first part of [mann_whitney_u]: both sorts and the walk, giving
    [(U, ties)]. *)
Definition mwu_stats (a b : list V) : option (Q * Z) :=
  mwu_walk (length a + length b + 1) (qsort a) (qsort b) 0 0 0%Q 0.
(** [x] is not above [y] in the order of [vlt]. *)
Definition vle (x y : V) : Prop := vlt y x = false.
End mann_whitney.

(** *** Tie groups of the pooled data *)
Section tie_groups.
Context {V : Type} `{EqDecision V}.

(** How often [v] occurs in a sample. *)
Definition occurrences (v : V) (l : list V) : Z :=
  Z.of_nat (length (List.filter (fun y => bool_decide (y = v)) l)).

(** The tie groups of the pooled data, each given by its value. *)
Definition tie_groups (a b : list V) : list V := remove_dups (a ++ b).

(** [t^3 - t] for the group of value [v], of multiplicity [t = c_a + c_b]. *)
Definition tie_term (a b : list V) (v : V) : Z :=
  let t := occurrences v a + occurrences v b in t ^ 3 - t.

Definition sumZ (l : list Z) : Z := fold_right Z.add 0 l.

(** The sum over every tie group of the pooled data. *)
Definition ties_pooled (a b : list V) : Z :=
  sumZ (map (tie_term a b) (tie_groups a b)).

(** The term of a tie group when only the groups with values from both
    samples count. *)
Definition shared_term (a b : list V) (v : V) : Z :=
  if (0 <? occurrences v a) && (0 <? occurrences v b) then tie_term a b v else 0.

(** The sum over the tie groups that have values from both samples. *)
Definition ties_shared (a b : list V) : Z :=
  sumZ (map (shared_term a b) (tie_groups a b)).
End tie_groups.

(** ** [process]: the per-record pipeline *)

(** htslib's markers of a missing value and of the end of a vector (vcf.h),
    as the integer each type reads them. *)
Definition bcf_int8_missing : Z := -128.
Definition bcf_int8_vector_end : Z := -127.
Definition bcf_int16_missing : Z := -32768.
Definition bcf_int16_vector_end : Z := -32767.
Definition bcf_int32_missing : Z := -2147483648.
Definition bcf_int32_vector_end : Z := -2147483647.
Definition bcf_float_missing : Z := 0x7F800001.
Definition bcf_float_vector_end : Z := 0x7F800002.

Inductive bcf_type := BCF_BT_INT8 | BCF_BT_INT16 | BCF_BT_INT32 | BCF_BT_FLOAT | BCF_BT_CHAR.

(** A FORMAT field ([bcf_fmt_t]): [n] values per sample, the type, and the
    data [p], here the float values. *)
Record bcf_fmt_t := BcfFmt { fmt_n : Z; fmt_type : bcf_type; fmt_p : list float }.

(** The plugin's options and per-run data ([args_t]); [args_format] and
    [args_fai] say whether the pointers are set. *)
Record args_t := Args {
  args_phase : bool;
  args_ad : bool;
  args_gc_win : Z;
  args_format : bool;
  args_infer_baf_alleles : bool;
  args_cor_baf_lrr : bool;
  args_nsmpl : Z;
  args_gender : option (list Z);
  args_fai : bool
}.

(** What [process] reads of a record.  The helpers of mocha.h, which is
    outside the sources under study, have already run: each field holds what
    the call leaves behind (its return value and the arrays it fills).
    - [fa]: the window [faidx_fetch_seq] returns, [None] for [NULL];
    - [gt_phase], [gt_phase_arr]: [bcf_get_genotype_phase];
    - [gt_alleles], [gt0_arr], [gt1_arr]: [bcf_get_genotype_alleles];
    - [fmt_sign], [fmt_sign_arr]:
      [(args->format && fmt) ? bcf_get_format_sign(...) : 0];
    - [ad], [ad0_arr], [ad1_arr]: [ad_fmt ? bcf_get_allelic_depth(...) : 0];
    - [baf_fmt], [lrr_fmt]: [bcf_get_fmt_id] for BAF and LRR;
    - [allele_a], [allele_b]: the record's ALLELE_A and ALLELE_B on input. *)
Record bcf1_t := Bcf1 {
  n_allele : Z;
  fa : option (list Z);
  gt_phase : bool;
  gt_phase_arr : list Z;
  gt_alleles : bool;
  gt0_arr : list Z;
  gt1_arr : list Z;
  fmt_sign : bool;
  fmt_sign_arr : list Z;
  ad : bool;
  ad0_arr : list Z;
  ad1_arr : list Z;
  baf_fmt : option bcf_fmt_t;
  lrr_fmt : option bcf_fmt_t;
  allele_a : Z;
  allele_b : Z
}.

(** An INFO value written by [bcf_update_info_int32] or [bcf_update_info_float]. *)
Inductive info_t := info_int32 (v : list Z) | info_float (v : list float).

(** [a[i]] and [a[i] += v] on an [int] array. *)
Definition arr_get (a : list Z) (i : Z) : Z := nth (Z.to_nat i) a 0.
Definition arr_add (a : list Z) (i v : Z) : list Z :=
  <[Z.to_nat i := arr_get a i + v]> a.

(** [x[i]] on a [float] array. *)
Definition farr_get (a : list float) (i : Z) : float := nth (Z.to_nat i) a nan.

(** *** The GC and CpG content of the window *)

(** The body of the loop over the window: [fa] is upper-cased in place. *)
Definition gc_step (st : list Z * Z * Z * Z) (i : Z) : list Z * Z * Z * Z :=
  let '(fa, at_cnt, cg_cnt, cpg_cnt) := st in
  let fa := if 96 <? arr_get fa i then <[Z.to_nat i := arr_get fa i - 32]> fa else fa in
  let at_cnt := if (arr_get fa i =? 65) || (arr_get fa i =? 84) then at_cnt + 1 else at_cnt in
  let cg_cnt := if (arr_get fa i =? 67) || (arr_get fa i =? 71) then cg_cnt + 1 else cg_cnt in
  let cpg_cnt :=
    if 0 <? i then
      if (arr_get fa (i - 1) =? 67) && (arr_get fa i =? 71) then cpg_cnt + 2 else cpg_cnt
    else cpg_cnt in
  (fa, at_cnt, cg_cnt, cpg_cnt).

(** The counts [(at_cnt, cg_cnt, cpg_cnt)] after the loop; [fa_len] is the
    length of the window. *)
Definition gc_counts (fa : list Z) : Z * Z * Z :=
  let '(_, at_cnt, cg_cnt, cpg_cnt) :=
    fold_left gc_step (seqZ 0 (Z.of_nat (length fa))) (fa, 0, 0, 0) in
  (at_cnt, cg_cnt, cpg_cnt).

(** The two values written as GC and CpG. *)
Definition gc_content (fa : list Z) : float * float :=
  let '(at_cnt, cg_cnt, cpg_cnt) := gc_counts fa in
  (f32_div (f32_of_int cg_cnt) (f32_of_int (at_cnt + cg_cnt)),
   f32_div (f32_of_int cpg_cnt) (f32_of_int (Z.of_nat (length fa)))).

(** The invariant of the scan at index [i]: the counts are bounded by the
    cells scanned, and a C in the last cell scanned leaves room for its G. *)
Definition gc_inv (n : nat) (i : Z) (st : list Z * Z * Z * Z) : Prop :=
  let '(fa, at_cnt, cg_cnt, cpg_cnt) := st in
  length fa = n ∧ 0 ≤ at_cnt ∧ 0 ≤ cg_cnt ∧ at_cnt + cg_cnt ≤ i ∧
  0 ≤ cpg_cnt ≤ i ∧ (0 < i → arr_get fa (i - 1) = 67 → cpg_cnt ≤ i - 1).

(** *** The per-sample aggregation *)

(** The counters of a record and the two BAF buffers [args->baf_arr[0..1]].
    [baf_stores] is a ghost trace: the bucket and index of every store into
    a buffer. *)
Record agg_t := Agg {
  ac_het : Z;
  ac_sex : list Z;
  ac_het_sex : list Z;
  ac_het_phase : list Z;
  fmt_bal : list Z;
  fmt_bal_phase : list Z;
  ad_het : list Z;
  baf_arr : list (gmap Z float);
  baf_stores : list (Z * Z)
}.

Definition agg_init (baf_arr0 baf_arr1 : gmap Z float) : agg_t :=
  {| ac_het := 0; ac_sex := [0; 0; 0; 0]; ac_het_sex := [0; 0]; ac_het_phase := [0; 0];
     fmt_bal := [0; 0]; fmt_bal_phase := [0; 0]; ad_het := [0; 0];
     baf_arr := [baf_arr0; baf_arr1]; baf_stores := [] |}.

(** [baf]: the BAF field is there, one float per sample. *)
Definition fmt_is_float1 (f : option bcf_fmt_t) : bool :=
  match f with
  | Some f => (fmt_n f =? 1) && match fmt_type f with BCF_BT_FLOAT => true | _ => false end
  | None => false
  end.

Definition fmt_data (f : option bcf_fmt_t) : list float :=
  match f with Some f => fmt_p f | None => [] end.

(** [args->gender && (args->gender[i] == 1 || args->gender[i] == 2)] *)
Definition gender_known (args : args_t) (i : Z) : bool :=
  match args_gender args with
  | Some g => (arr_get g i =? 1) || (arr_get g i =? 2)
  | None => false
  end.

Definition gender_of (args : args_t) (i : Z) : Z :=
  match args_gender args with Some g => arr_get g i | None => 0 end.

(** The body of the loop over the samples. *)
Definition sample_step (args : args_t) (rec : bcf1_t) (s : agg_t) (i : Z) : agg_t :=
  let baf := fmt_is_float1 (baf_fmt rec) in
  let curr_baf := nan in
  (* the source tests [gt0_arr[i]] against the marker twice *)
  if (arr_get (gt0_arr rec) i =? bcf_int16_missing)
     || (arr_get (gt0_arr rec) i =? bcf_int16_missing) then s
  else
    let idx_fmt_sign :=
      if fmt_sign rec
         && negb (arr_get (fmt_sign_arr rec) i =? bcf_int8_missing)
         && negb (arr_get (fmt_sign_arr rec) i =? 0)
      then Z.quot (1 - arr_get (fmt_sign_arr rec) i) 2 else -1 in
    let fmt_bal1 := if 0 <=? idx_fmt_sign then arr_add (fmt_bal s) idx_fmt_sign 1
                    else fmt_bal s in
    let ac_sex1 :=
      if gender_known args i then
        if (arr_get (gt0_arr rec) i =? 0) && (arr_get (gt1_arr rec) i =? 0)
        then arr_add (ac_sex s) (gender_of args i - 1) 1
        else if (0 <? arr_get (gt0_arr rec) i) && (0 <? arr_get (gt1_arr rec) i)
        then arr_add (ac_sex s) (2 + gender_of args i - 1) 1
        else ac_sex s
      else ac_sex s in
    if (arr_get (gt0_arr rec) i =? arr_get (gt1_arr rec) i)
       || (negb (arr_get (gt0_arr rec) i =? 0) && negb (arr_get (gt1_arr rec) i =? 0))
    then
      {| ac_het := ac_het s; ac_sex := ac_sex1; ac_het_sex := ac_het_sex s;
         ac_het_phase := ac_het_phase s; fmt_bal := fmt_bal1;
         fmt_bal_phase := fmt_bal_phase s; ad_het := ad_het s;
         baf_arr := baf_arr s; baf_stores := baf_stores s |}
    else
      let idx_gt_phase :=
        if gt_phase rec
           && ((arr_get (gt_phase_arr rec) i =? -1) || (arr_get (gt_phase_arr rec) i =? 1))
        then Z.quot (1 - arr_get (gt_phase_arr rec) i) 2 else -1 in
      let ac_het1 := ac_het s + 1 in
      let ac_het_sex1 :=
        if gender_known args i then arr_add (ac_het_sex s) (gender_of args i - 1) 1
        else ac_het_sex s in
      let ac_het_phase1 :=
        if 0 <=? idx_gt_phase then arr_add (ac_het_phase s) idx_gt_phase 1
        else ac_het_phase s in
      let idx_fmt_phase :=
        if (0 <=? idx_gt_phase) && (0 <=? idx_fmt_sign)
        then Z.quot (1 - arr_get (fmt_sign_arr rec) i * arr_get (gt_phase_arr rec) i) 2
        else -1 in
      let fmt_bal_phase1 :=
        if 0 <=? idx_fmt_phase then arr_add (fmt_bal_phase s) idx_fmt_phase 1
        else fmt_bal_phase s in
      let ref_cnt := arr_get (ad0_arr rec) i in
      let alt_cnt := arr_get (ad1_arr rec) i in
      let ad_het1 :=
        if ad rec then arr_add (arr_add (ad_het s) 0 ref_cnt) 1 alt_cnt else ad_het s in
      let curr_baf :=
        if ad rec then
          f32_div (f32_add (f32_of_int alt_cnt) 0.5)
                  (f32_add (f32_add (f32_of_int ref_cnt) (f32_of_int alt_cnt)) 1)
        else curr_baf in
      let curr_baf := if baf then farr_get (fmt_data (baf_fmt rec)) i else curr_baf in
      let store := (0 <=? idx_gt_phase) && negb (isnan curr_baf) in
      let pos := arr_get ac_het_phase1 idx_gt_phase - 1 in
      {| ac_het := ac_het1; ac_sex := ac_sex1; ac_het_sex := ac_het_sex1;
         ac_het_phase := ac_het_phase1; fmt_bal := fmt_bal1;
         fmt_bal_phase := fmt_bal_phase1; ad_het := ad_het1;
         baf_arr :=
           if store then
             <[Z.to_nat idx_gt_phase :=
                 <[pos := curr_baf]> (nth (Z.to_nat idx_gt_phase) (baf_arr s) ∅)]>
               (baf_arr s)
           else baf_arr s;
         baf_stores :=
           if store then baf_stores s ++ [(idx_gt_phase, pos)] else baf_stores s |}.

(** The loop over the samples, from fresh counters and the buffers as the
    previous record left them. *)
Definition aggregate (args : args_t) (rec : bcf1_t) (baf_arr0 baf_arr1 : gmap Z float)
  : agg_t :=
  fold_left (sample_step args rec) (seqZ 0 (args_nsmpl args)) (agg_init baf_arr0 baf_arr1).

(** The number of values the loop has placed into buffer [k]. *)
Definition baf_placed (s : agg_t) (k : Z) : Z :=
  Z.of_nat (length (List.filter (fun e : Z * Z => e.1 =? k) (baf_stores s))).

(** *** The kernels of the test battery *)

(** [sq] *)
Definition sq (x : float) : float := (x * x)%float.

(** The loop of [sample_mean_var] over [x[0..n)]: the sums and the number
    [j] of values that are not NaN. *)
Definition smv_step (x : list float) (st : float * float * Z) (i : Z) : float * float * Z :=
  let '(xm, xss, j) := st in
  if negb (isnan (farr_get x i))
  then ((xm + farr_get x i)%float, (xss + sq (farr_get x i))%float, j + 1)
  else st.

(** [sample_mean_var]: the [int] it returns and the contents of [*xm] and
    [*xss] after the call, [xm0] and [xss0] being their contents before. *)
Definition sample_mean_var (x : list float) (n : Z) (xm0 xss0 : float) : Z * float * float :=
  if n <? 2 then (-1, xm0, xss0)
  else
    let '(xm, xss, j) := fold_left (smv_step x) (seqZ 0 n) (0%float, 0%float, 0) in
    if j <=? 1 then (-1, xm, xss)
    else
      let xm := (xm / d_of_int j)%float in
      let xss := (xss - sq xm * d_of_int j)%float in
      let xss := (xss / d_of_int (j - 1))%float in
      (0, xm, xss).

Section kernels.
(** htslib's [kf_betai], the regularised incomplete beta function. *)
Variable kf_betai : float → float → float → float.

(** [welch_t_test]; [HUGE_VAL] is [infinity].  The four locals are not
    initialised in the source; [sample_mean_var] assigns them, being called
    with [n >= 2]. *)
Definition welch_t_test (a b : list float) (na nb : Z) : float :=
  if (na <? 2) || (nb <? 2) then infinity
  else
    let '(_, mua, sa2) := sample_mean_var a na nan nan in
    let '(_, mub, sb2) := sample_mean_var b nb nan nan in
    let t := ((mua - mub) / PrimFloat.sqrt (sa2 / d_of_int na + sb2 / d_of_int nb))%float in
    let v := (sa2 / d_of_int na + sb2 / d_of_int nb)%float in
    let v := (v * v)%float in
    let v := (v / (sq sa2 / d_of_int na / d_of_int na / d_of_int (na - 1)
                   + sq sb2 / d_of_int nb / d_of_int nb / d_of_int (nb - 1)))%float in
    kf_betai (v / 2)%float 0.5%float (v / (v + sq t))%float.

(** What [mann_whitney_u] computes from [U] and [ties] once both samples are
    known to be non-empty: the rule for a sample of one, the normal
    approximation, or the exact distribution, which rest on [kf_erfc] and
    [mann_whitney_1947_cdf] from outside the sources under study. *)
Variable mwu_pvalue : Z → Z → Q → Z → float.

(** [mann_whitney_u] on floats.  [None]: the walk does not end. *)
Definition mann_whitney_u (a b : list float) (na nb : Z) : option float :=
  match mwu_stats flt feq a b with
  | None => None
  | Some (U, ties) =>
      Some (if (na =? 0) || (nb =? 0) then infinity else mwu_pvalue na nb U ties)
  end.
End kernels.

(** *** The test battery and the rest of [process] *)

(** The first [n] cells of a buffer. *)
Definition buf_cells (buf : gmap Z float) (n : Z) : list float := map (rd buf) (seqZ 0 n).

(** [alleles[0..1]] for the number of alleles; [None] where the source
    calls [error]. *)
Definition candidate_alleles (n_allele : Z) : option (Z * Z) :=
  if n_allele =? 1 then Some (-1, -1)
  else if n_allele =? 2 then Some (0, 1)
  else if n_allele =? 3 then Some (1, 2)
  else None.

(** The samples [j] with [gt0_arr[j] == al && gt1_arr[j] == al]: the
    contents of [imap_arr[0..n)]. *)
Definition homozygous_for (rec : bcf1_t) (nsmpl al : Z) : list Z :=
  List.filter (fun j => (arr_get (gt0_arr rec) j =? al) && (arr_get (gt1_arr rec) j =? al))
              (seqZ 0 nsmpl).

(** [alleles_idx[i]] from [median[i]]. *)
Definition allele_of_median (alleles : Z * Z) (median : float) : Z :=
  if flt median 0.5 then alleles.1
  else if flt 0.5 median then alleles.2
  else -1.

(** The resolution of the two indices. *)
Definition resolve_alleles (alleles : Z * Z) (idx0 idx1 : Z) : Z * Z :=
  if idx0 =? idx1 then (-1, -1)
  else if idx0 =? -1 then ((if idx1 =? alleles.1 then alleles.2 else alleles.1), idx1)
  else if idx1 =? -1 then (idx0, (if idx0 =? alleles.1 then alleles.2 else alleles.1))
  else (idx0, idx1).

Section process.
(** The C library's [log10]. *)
Variable log10 : float → float.
(** [binom_dist] of bcftools. *)
Variable binom_dist : Z → float → Z → float.
(** htslib's [kt_fisher_exact], for the two-sided p-value it returns. *)
Variable kt_fisher_exact : Z → Z → Z → Z → float.
(** [get_median] of mocha.h, given the values it is pointed at. *)
Variable get_median : list float → float.
(** htslib's [kf_betai]. *)
Variable kf_betai : float → float → float → float.
(** The last part of [mann_whitney_u] (see above). *)
Variable mwu_pvalue : Z → Z → Q → Z → float.
(** [get_cov] of mocha.h, given the pairs it is pointed at: the three sums. *)
Variable get_cov : list (float * float) → float * float * float.

(** The block that infers the A and B alleles: the two values written, or
    [None] where the source calls [error]. *)
Definition infer_alleles (rec : bcf1_t) (nsmpl : Z) : option (Z * Z) :=
  match candidate_alleles (n_allele rec) with
  | None => None
  | Some alleles =>
      let median0 :=
        get_median (map (farr_get (fmt_data (baf_fmt rec)))
                        (homozygous_for rec nsmpl alleles.1)) in
      let median1 :=
        get_median (map (farr_get (fmt_data (baf_fmt rec)))
                        (homozygous_for rec nsmpl alleles.2)) in
      Some (resolve_alleles alleles (allele_of_median alleles median0)
                            (allele_of_median alleles median1))
  end.

(** [0.0f - (float)log10(binom_exact(k, n))] with the table it leaves. *)
Definition binom_test (tab : binom_tab) (k n : Z) : float * binom_tab :=
  let '(p, tab) := binom_exact binom_dist tab k n in (neg_log10 log10 p, tab).

(** The four values of BAF_Phase_Test. *)
Definition baf_phase_test (s : agg_t) : option (list float) :=
  let n0 := arr_get (ac_het_phase s) 0 in
  let n1 := arr_get (ac_het_phase s) 1 in
  let a := buf_cells (nth 0 (baf_arr s) ∅) n0 in
  let b := buf_cells (nth 1 (baf_arr s) ∅) n1 in
  match mann_whitney_u mwu_pvalue a b n0 n1 with
  | None => None
  | Some mwu =>
      Some [get_median a; get_median b;
            neg_log10 log10 (welch_t_test kf_betai a b n0 n1);
            neg_log10 log10 mwu]
  end.

(** The INFO fields written between the loop over the samples and the test
    [if (!baf || !lrr) goto ret;], in order, and the binomial table. *)
Definition test_battery (args : args_t) (s : agg_t) (tab : binom_tab)
  : option (list (string * info_t) * binom_tab) :=
  let out := [("AC_Het"%string, info_int32 [ac_het s])] in
  let out :=
    match args_gender args with
    | Some _ =>
        out ++ [("AC_Het_Sex"%string, info_int32 (ac_het_sex s));
                ("AC_Sex_Test"%string,
                 info_float [neg_log10 log10
                               (kt_fisher_exact (arr_get (ac_sex s) 0) (arr_get (ac_sex s) 1)
                                                (arr_get (ac_sex s) 2) (arr_get (ac_sex s) 3))])]
    | None => out
    end in
  let '(out, tab) :=
    if args_phase args then
      let '(r, tab) := binom_test tab (arr_get (ac_het_phase s) 0)
                         (arr_get (ac_het_phase s) 0 + arr_get (ac_het_phase s) 1) in
      (out ++ [("AC_Het_Phase"%string, info_int32 (ac_het_phase s));
               ("AC_Het_Phase_Test"%string, info_float [r])], tab)
    else (out, tab) in
  let '(out, tab) :=
    if args_format args then
      let '(r, tab) := binom_test tab (arr_get (fmt_bal s) 0)
                         (arr_get (fmt_bal s) 0 + arr_get (fmt_bal s) 1) in
      let out := out ++ [("Bal"%string, info_int32 (fmt_bal s));
                         ("Bal_Test"%string, info_float [r])] in
      if args_phase args then
        let '(r, tab) := binom_test tab (arr_get (fmt_bal_phase s) 0)
                           (arr_get (fmt_bal_phase s) 0 + arr_get (fmt_bal_phase s) 1) in
        (out ++ [("Bal_Phase"%string, info_int32 (fmt_bal_phase s));
                 ("Bal_Phase_Test"%string, info_float [r])], tab)
      else (out, tab)
    else (out, tab) in
  let '(out, tab) :=
    if args_ad args then
      let '(r, tab) := binom_test tab (arr_get (ad_het s) 0)
                         (arr_get (ad_het s) 0 + arr_get (ad_het s) 1) in
      (out ++ [("AD_Het"%string, info_int32 (ad_het s));
               ("AD_Het_Test"%string, info_float [r])], tab)
    else (out, tab) in
  if args_phase args && negb (arr_get (ac_het_phase s) 0 =? 0)
     && negb (arr_get (ac_het_phase s) 1 =? 0)
  then
    match baf_phase_test s with
    | None => None
    | Some ret => Some (out ++ [("BAF_Phase_Test"%string, info_float ret)], tab)
    end
  else Some (out, tab).

(** The samples with [n_a == 2 - i && n_b == i]. *)
Definition genotype_class (rec : bcf1_t) (nsmpl i : Z) : list Z :=
  List.filter
    (fun j =>
       let n_a := Z.b2z (arr_get (gt0_arr rec) j =? allele_a rec)
                  + Z.b2z (arr_get (gt1_arr rec) j =? allele_a rec) in
       let n_b := Z.b2z (arr_get (gt0_arr rec) j =? allele_b rec)
                  + Z.b2z (arr_get (gt1_arr rec) j =? allele_b rec) in
       (n_a =? 2 - i) && (n_b =? i))
    (seqZ 0 nsmpl).

(** [rho[i]] of the block that correlates BAF and LRR. *)
Definition cor_baf_lrr (rec : bcf1_t) (nsmpl i : Z) : float :=
  let '(xss, yss, xyss) :=
    get_cov (map (fun j => (farr_get (fmt_data (baf_fmt rec)) j,
                            farr_get (fmt_data (lrr_fmt rec)) j))
                 (genotype_class rec nsmpl i)) in
  f32_div xyss (f32_of_double (PrimFloat.sqrt (f32_of_double (xss * yss)%float))).

(** [process]: the INFO fields it writes, in order, and the binomial table
    after the call.  [None]: the call does not return ([error], or a walk of
    [mann_whitney_u] that does not end). *)
Definition process (args : args_t) (rec : bcf1_t) (tab : binom_tab)
           (baf_arr0 baf_arr1 : gmap Z float)
  : option (list (string * info_t) * binom_tab) :=
  match
    (if args_fai args then
       match fa rec with
       | None => None
       | Some w =>
           Some [("GC"%string, info_float [(gc_content w).1]);
                 ("CpG"%string, info_float [(gc_content w).2])]
       end
     else Some [])
  with
  | None => None
  | Some out0 =>
      if args_nsmpl args =? 0 then Some (out0, tab)
      else if negb (gt_alleles rec) then Some (out0, tab)
      else
        let baf := fmt_is_float1 (baf_fmt rec) in
        let lrr := fmt_is_float1 (lrr_fmt rec) in
        match test_battery args (aggregate args rec baf_arr0 baf_arr1) tab with
        | None => None
        | Some (out1, tab) =>
            if negb baf || negb lrr then Some (out0 ++ out1, tab)
            else
              match
                (if args_infer_baf_alleles args then
                   match infer_alleles rec (args_nsmpl args) with
                   | None => None
                   | Some (a, b) =>
                       Some [("ALLELE_A"%string, info_int32 [a]);
                             ("ALLELE_B"%string, info_int32 [b])]
                   end
                 else Some [])
              with
              | None => None
              | Some out2 =>
                  let out3 :=
                    if args_cor_baf_lrr args then
                      [("Cor_BAF_LRR"%string,
                        info_float [cor_baf_lrr rec (args_nsmpl args) 0;
                                    cor_baf_lrr rec (args_nsmpl args) 1;
                                    cor_baf_lrr rec (args_nsmpl args) 2])]
                    else [] in
                  Some (out0 ++ out1 ++ out2 ++ out3, tab)
              end
        end
  end.

(** The names of the INFO fields a call writes. *)
Definition written (r : option (list (string * info_t) * binom_tab)) : list string :=
  match r with Some (out, _) => map fst out | None => [] end.
End process.

(** The value written under a name, if any. *)
Definition info_of (name : string) (r : option (list (string * info_t) * binom_tab))
  : option info_t :=
  match r with
  | Some (out, _) => snd <$> List.find (fun e => String.eqb e.1 name) out
  | None => None
  end.

(** *** Stand-ins for the collaborators, where a concrete record is evaluated *)

(** Modelled from the spec: [get_median] of mocha.h, which is not among the
    sources under study.  "Classic selection-based median ...; when [n] is
    even, average of the two middle elements"; the values that are NaN are
    left out and the median of no value is NaN. *)
Definition get_median_spec (v : list float) : float :=
  let w := qsort flt (List.filter (fun x => negb (isnan x)) v) in
  let j := length w in
  if (j =? 0)%nat then nan
  else if Nat.even j
       then f32_of_double
              (f32_add (nth (j / 2) w nan) (nth (j / 2 - 1) w nan) * 0.5)%float
       else nth (j / 2) w nan.

(** Stand-ins for the C library's [log10] and for htslib's functions: what
    is evaluated with them does not depend on their values, except that
    [no_log10] keeps the fixed points [inf] and, shifted, [log10(1) = 0]. *)
Definition no_log10 : float → float := fun x => (x - 1)%float.
Definition no_fisher : Z → Z → Z → Z → float := fun _ _ _ _ => 1%float.
Definition no_betai : float → float → float → float := fun _ _ _ => 1%float.
Definition no_mwu_pvalue : Z → Z → Q → Z → float := fun _ _ _ _ => 1%float.
Definition no_cov : list (float * float) → float * float * float :=
  fun _ => (0%float, 0%float, 0%float).

(** [process] with the stand-ins. *)
Definition process0 :=
  process no_log10 no_binom_dist no_fisher get_median_spec no_betai no_mwu_pvalue no_cov.

(** Options: phase and inference on, no sex file, no reference. *)
Definition args0 (nsmpl : Z) : args_t :=
  {| args_phase := true; args_ad := false; args_gc_win := 200; args_format := false;
     args_infer_baf_alleles := true; args_cor_baf_lrr := false;
     args_nsmpl := nsmpl; args_gender := None; args_fai := false |}.

(** A biallelic record with GT for every sample, an optional BAF field with
    one float per sample, and an optional LRR field. *)
Definition rec0 (gt0 gt1 phase_arr : list Z) (baf lrr : option (list float)) : bcf1_t :=
  {| n_allele := 2; fa := None;
     gt_phase := true; gt_phase_arr := phase_arr;
     gt_alleles := true; gt0_arr := gt0; gt1_arr := gt1;
     fmt_sign := false; fmt_sign_arr := [];
     ad := false; ad0_arr := []; ad1_arr := [];
     baf_fmt := option_map (fun p => {| fmt_n := 1; fmt_type := BCF_BT_FLOAT; fmt_p := p |}) baf;
     lrr_fmt := option_map (fun p => {| fmt_n := 1; fmt_type := BCF_BT_FLOAT; fmt_p := p |}) lrr;
     allele_a := 0; allele_b := 1 |}.

(** *** Ratios of counts, decided by evaluation *)

(** Every ratio [(float)c / (float)n] with [0 <= c <= n] and [1 <= n <= N]
    lies between 0 and 1. *)
Definition ratio_ok (fn : float) (c : Z) : bool :=
  let r := f32_div (f32_of_int c) fn in fle 0 r && fle r 1.

Definition ratio_check (N : Z) : bool :=
  forallb (fun n => forallb (ratio_ok (f32_of_int n)) (seqZ 0 (n + 1))) (seqZ 1 N).
(** * Further definitions *)

(** *** Invariants of the loop over the samples *)

(** The signs [bcf_get_format_sign] leaves: missing, -1, 0 or 1. *)
Definition sign_ok (rec : bcf1_t) : Prop :=
  ∀ i, arr_get (fmt_sign_arr rec) i = bcf_int8_missing ∨ arr_get (fmt_sign_arr rec) i = -1 ∨
       arr_get (fmt_sign_arr rec) i = 0 ∨ arr_get (fmt_sign_arr rec) i = 1.

(** A pair of counters, none negative. *)
Definition pair_ok (a : list Z) : Prop :=
  length a = 2%nat ∧ 0 ≤ arr_get a 0 ∧ 0 ≤ arr_get a 1.

Definition pair_sum (a : list Z) : Z := arr_get a 0 + arr_get a 1.

(** The counters before sample [i]. *)
Definition counts_inv (i : Z) (s : agg_t) : Prop :=
  pair_ok (ac_het_phase s) ∧ pair_ok (fmt_bal s) ∧ pair_ok (fmt_bal_phase s) ∧
  pair_ok (ac_het_sex s) ∧
  pair_sum (ac_het_phase s) ≤ ac_het s ∧ pair_sum (ac_het_sex s) ≤ ac_het s ∧
  pair_sum (fmt_bal s) ≤ i ∧
  pair_sum (fmt_bal_phase s) ≤ pair_sum (ac_het_phase s) ∧
  pair_sum (fmt_bal_phase s) ≤ pair_sum (fmt_bal s) ∧
  length (ac_sex s) = 4%nat ∧
  0 ≤ arr_get (ac_sex s) 0 ∧ 0 ≤ arr_get (ac_sex s) 1 ∧
  0 ≤ arr_get (ac_sex s) 2 ∧ 0 ≤ arr_get (ac_sex s) 3 ∧
  arr_get (ac_sex s) 0 + arr_get (ac_sex s) 1 + arr_get (ac_sex s) 2 + arr_get (ac_sex s) 3
    + ac_het s ≤ i.

(** A store into bucket [e.1] at a cell below the bucket's count. *)
Definition store_ok (h : list Z) (e : Z * Z) : Prop :=
  (e.1 = 0 ∨ e.1 = 1) ∧ 0 ≤ e.2 < arr_get h e.1.

(** The stores into bucket [k]. *)
Definition stores_of (s : agg_t) (k : Z) : list (Z * Z) :=
  List.filter (fun e : Z * Z => e.1 =? k) (baf_stores s).

(** The stores of the loop; [full] says that no value to store is NaN. *)
Definition stores_inv (full : Prop) (s : agg_t) : Prop :=
  pair_ok (ac_het_phase s) ∧ length (baf_arr s) = 2%nat ∧
  Forall (store_ok (ac_het_phase s)) (baf_stores s) ∧ NoDup (baf_stores s) ∧
  (full → ∀ k, k = 0 ∨ k = 1 →
          stores_of s k = map (pair k) (seqZ 0 (arr_get (ac_het_phase s) k))).

(** The counter of the phased heterozygous samples is below [i]. *)
Definition phase_inv (i : Z) (s : agg_t) : Prop :=
  pair_ok (ac_het_phase s) ∧ pair_sum (ac_het_phase s) ≤ i.

(** The bucket of sample [i], as the loop computes it: [idx_gt_phase] for a
    heterozygous genotype with the reference allele, -1 for any other. *)
Definition phase_bucket (rec : bcf1_t) (i : Z) : Z :=
  if (arr_get (gt0_arr rec) i =? bcf_int16_missing)
     || (arr_get (gt0_arr rec) i =? bcf_int16_missing) then -1
  else if (arr_get (gt0_arr rec) i =? arr_get (gt1_arr rec) i)
          || (negb (arr_get (gt0_arr rec) i =? 0) && negb (arr_get (gt1_arr rec) i =? 0))
  then -1
  else if gt_phase rec
          && ((arr_get (gt_phase_arr rec) i =? -1) || (arr_get (gt_phase_arr rec) i =? 1))
  then Z.quot (1 - arr_get (gt_phase_arr rec) i) 2 else -1.

(** The samples of bucket [k] among the first [n], in order. *)
Definition bucket_samples (rec : bcf1_t) (k n : Z) : list Z :=
  List.filter (fun i => phase_bucket rec i =? k) (seqZ 0 n).

(** Bucket [k] before sample [i]: its count, and its cells when no value to
    store is NaN. *)
Definition bucket_inv (full : Prop) (rec : bcf1_t) (k i : Z) (s : agg_t) : Prop :=
  arr_get (ac_het_phase s) k = Z.of_nat (length (bucket_samples rec k i)) ∧
  (full → buf_cells (nth (Z.to_nat k) (baf_arr s) ∅) (arr_get (ac_het_phase s) k)
          = map (farr_get (fmt_data (baf_fmt rec))) (bucket_samples rec k i)).

(** *** [bcf_get_format_sign] *)

(** A FORMAT field with its data as [BRANCH] reads them: [raw_p] holds the
    elements of [fmt->p], read at the type [type_t] of the branch, as
    integers; for [BCF_BT_FLOAT] the branch reads [int32_t], so that they
    are the bit patterns of the floats. *)
Record bcf_fmt_raw := BcfFmtRaw { raw_n : Z; raw_type : bcf_type; raw_p : list Z }.

(** The body of the loop of [BRANCH]: the sign stored for the element [v]. *)
Definition branch_sign (vector_end missing v : Z) : Z :=
  if (v =? vector_end) || (v =? missing) then bcf_int8_missing
  else if v =? 0 then 0
  else if 0 <? v then 1
  else -1.

(** [BRANCH(type_t, vector_end, missing)] on [fmt_sign_arr[0..nsmpl)]. *)
Definition branch (vector_end missing : Z) (p fmt_sign_arr : list Z) (nsmpl : Z) : list Z :=
  fold_left (fun arr i => <[Z.to_nat i := branch_sign vector_end missing (arr_get p i)]> arr)
            (seqZ 0 nsmpl) fmt_sign_arr.

(** [bcf_get_format_sign]: the [int] returned and [fmt_sign_arr] after the
    call; [None] where the source calls [error]. *)
Definition bcf_get_format_sign (fmt : option bcf_fmt_raw) (fmt_sign_arr : list Z) (nsmpl : Z)
  : option (Z * list Z) :=
  match fmt with
  | None => Some (0, fmt_sign_arr)
  | Some f =>
      if negb (raw_n f =? 1) then Some (0, fmt_sign_arr)
      else
        match raw_type f with
        | BCF_BT_INT8 =>
            Some (1, branch bcf_int8_vector_end bcf_int8_missing (raw_p f) fmt_sign_arr nsmpl)
        | BCF_BT_INT16 =>
            Some (1, branch bcf_int16_vector_end bcf_int16_missing (raw_p f) fmt_sign_arr nsmpl)
        | BCF_BT_INT32 =>
            Some (1, branch bcf_int32_vector_end bcf_int32_missing (raw_p f) fmt_sign_arr nsmpl)
        | BCF_BT_FLOAT =>
            Some (1, branch bcf_float_vector_end bcf_float_missing (raw_p f) fmt_sign_arr nsmpl)
        | BCF_BT_CHAR => None
        end
  end.

(** The two markers of a type. *)
Definition markers (ty : bcf_type) : Z * Z :=
  match ty with
  | BCF_BT_INT8 => (bcf_int8_vector_end, bcf_int8_missing)
  | BCF_BT_INT16 => (bcf_int16_vector_end, bcf_int16_missing)
  | BCF_BT_INT32 => (bcf_int32_vector_end, bcf_int32_missing)
  | BCF_BT_FLOAT => (bcf_float_vector_end, bcf_float_missing)
  | BCF_BT_CHAR => (0, 0)
  end.

(** *** [sample_mean_var] on the values that are not NaN *)

(** The values of [x[0..n)] that are not NaN, in order. *)
Definition not_nan_values (x : list float) (n : Z) : list float :=
  List.filter (fun v => negb (isnan v)) (take (Z.to_nat n) x).

(** One more value in the sums of [sample_mean_var]. *)
Definition smv_add (st : float * float * Z) (v : float) : float * float * Z :=
  let '(xm, xss, j) := st in ((xm + v)%float, (xss + sq v)%float, j + 1).

(** *** The statistic [U] of [mann_whitney_u] as a count of pairs *)
Section mwu_pairs.
Context {V : Type} `{EqDecision V} (vlt : V → V → bool).

(** How many values of [b] are below [x]. *)
Definition below (b : list V) (x : V) : Z :=
  Z.of_nat (length (List.filter (fun y => vlt y x) b)).

(** Twice the statistic of the pairs [(x, y)] of [a] and [b]: a pair with
    [y < x] counts 2 and a pair with [y = x] counts 1. *)
Definition u_twice (a b : list V) : Z :=
  sumZ (map (fun x => 2 * below b x + occurrences x b) a).
End mwu_pairs.

(** *** The values [beta_binom_update] stores *)
Section beta_binom_values.
Variable log : float → float.

(** The cell at index [n] from the cell [prev] at index [n - 1], in each of
    the three caches: the right-hand sides of the assignments in the loops. *)
Definition bb_next_alpha (p rho prev : float) (n : Z) : float :=
  if feq rho 0 then (prev + log p - log (d_of_int n))%float
  else
    let s := ((1 - rho) / rho)%float in
    (prev + log ((p * s + d_of_int n - 1) / d_of_int n))%float.

Definition bb_next_beta (p rho prev : float) (n : Z) : float :=
  if feq rho 0 then (prev + log (1 - p) - log (d_of_int n))%float
  else
    let s := ((1 - rho) / rho)%float in
    (prev + log (((1 - p) * s + d_of_int n - 1) / d_of_int n))%float.

Definition bb_next_alpha_beta (p rho prev : float) (n : Z) : float :=
  if feq rho 0 then (prev - log (d_of_int n))%float
  else
    let s := ((1 - rho) / rho)%float in
    (prev + log ((p * s + (1 - p) * s + d_of_int n - 1) / d_of_int n))%float.
End beta_binom_values.

(** The cells [lo < i <= hi] of a cache follow the recurrence [next]. *)
Definition cells_follow (next : float → Z → float) (lo hi : Z) (a : gmap Z float) : Prop :=
  ∀ i, lo < i ≤ hi → a !! i = Some (next (rd a (i - 1)) i).

(** The marks from which a call of [beta_binom_update] runs its loops. *)
Definition bb_start (self : beta_binom_t) (p rho : float) : Z * Z :=
  if negb (feq (bb_p self) p) || negb (feq (bb_rho self) rho) then (0, 0)
  else (bb_n1 self, bb_n2 self).

(** The capacity of a cache. *)
Definition bb_capacity (self : beta_binom_t) (c : bb_cache) : Z :=
  match c with
  | Alpha => m_log_gamma_alpha self
  | Beta => m_log_gamma_beta self
  | AlphaBeta => m_log_gamma_alpha_beta self
  end.

(** The marks are inside the blocks. *)
Definition bb_wf (self : beta_binom_t) : Prop :=
  0 ≤ bb_n1 self < m_log_gamma_alpha self ∧ bb_n1 self < m_log_gamma_beta self ∧
  0 ≤ bb_n2 self < m_log_gamma_alpha_beta self.

(** *** The blocks of [binom_exact] *)

(** [len] of the block that holds rows [0 .. n]. *)
Definition binom_len (n : Z) : Z := 1 + (1 + Z.shiftr n 1) * Z.shiftr (n + 1) 1.

(** The two blocks are large enough for the rows the table holds. *)
Definition cap_ok (t : binom_tab) : Prop :=
  0 < n_size t →
  binom_len (n_size t - 1) ≤ m_dbinom t ∧ binom_len (n_size t - 1) ≤ m_pbinom t.

(** The index [binom_exact(k, n)] reads in [pbinom]. *)
Definition binom_idx (k n : Z) : Z :=
  1 + Z.shiftr n 1 * Z.shiftr (n + 1) 1 + (if n <? Z.shiftl k 1 then n - k else k).

(** Every cell the table holds lies inside its block. *)
Definition keys_ok (t : binom_tab) : Prop :=
  (∀ x, is_Some (dbinom t !! x) → 0 ≤ x < m_dbinom t) ∧
  (∀ x, is_Some (pbinom t !! x) → 0 ≤ x < m_pbinom t).

(** The cells of [d'] and [p'] are those of [d] and [p] and cells from [lo]
    up to [hi], [hi] left out. *)
Definition keys_within (lo hi : Z) (d p d' p' : gmap Z float) : Prop :=
  (∀ x, is_Some (d' !! x) → is_Some (d !! x) ∨ lo ≤ x < hi) ∧
  (∀ x, is_Some (p' !! x) → is_Some (p !! x) ∨ lo ≤ x < hi).

(** *** The calls of [binom_exact] in the test battery *)

(** No allelic depth is negative: what [process] needs of the arrays
    [bcf_get_allelic_depth] of mocha.h fills. *)
Definition ad_ok (rec : bcf1_t) : Prop :=
  ∀ i, 0 ≤ arr_get (ad0_arr rec) i ∧ 0 ≤ arr_get (ad1_arr rec) i.

(** *** The counts of the window, said of its bases *)

(** [fa[i]] after [if (fa[i] > 96) fa[i] = (char)(fa[i] - 32);] *)
Definition upper (c : Z) : Z := if 96 <? c then c - 32 else c.

(** How many bases of [l] satisfy [f]. *)
Definition count_bases (f : Z → bool) (l : list Z) : Z :=
  Z.of_nat (length (List.filter f l)).

Definition is_at (c : Z) : bool := (c =? 65) || (c =? 84).
Definition is_cg (c : Z) : bool := (c =? 67) || (c =? 71).

(** How many times a C is followed by a G. *)
Fixpoint count_cpg (l : list Z) : Z :=
  match l with
  | x :: (y :: _) as r => (if (x =? 67) && (y =? 71) then 1 else 0) + count_cpg r
  | _ => 0
  end.

(** The state of the scan before index [i]: the window is upper-cased up to
    [i] and the counts are those of this part. *)
Definition gc_scan (fa : list Z) (i : nat) (st : list Z * Z * Z * Z) : Prop :=
  let '(cur, at_cnt, cg_cnt, cpg_cnt) := st in
  cur = map upper (take i fa) ++ drop i fa ∧
  at_cnt = count_bases is_at (map upper (take i fa)) ∧
  cg_cnt = count_bases is_cg (map upper (take i fa)) ∧
  cpg_cnt = 2 * count_cpg (map upper (take i fa)).

(** *** [init]: the checks on the header and the INFO fields declared *)

(** What the loop over the options and the calls that load the files leave
    behind: [o_format] is the name given to [--balance], [o_gender] the
    array [mocha_parse_gender] returns for [--sex], [o_fai] says whether a
    reference was given to [--fasta-ref] (and loaded: [init] stops with an
    error otherwise). *)
Record init_opts := InitOpts {
  o_format : option string;
  o_ad : bool;
  o_phase : bool;
  o_gender : option (list Z);
  o_fai : bool;
  o_gc_win : Z;
  o_infer_baf_alleles : bool;
  o_cor_baf_lrr : bool
}.

(** The part of [init] from [args->nsmpl = bcf_hdr_nsamples(args->in_hdr)]
    on, with the two [bcf_hdr_append] calls for GC and CpG before it.
    [id2int name] stands for [bcf_hdr_id2int(args->in_hdr, BCF_DT_ID, name)]
    and [nsmpl] for the number of samples of the input header.  The result is
    the list of the INFO fields appended to the output header, in order, and
    the options [process] will read; [None] where the source calls [error]. *)
Definition init (o : init_opts) (id2int : string → Z) (nsmpl : Z)
  : option (list string * args_t) :=
  let args :=
    {| args_phase := o_phase o; args_ad := o_ad o; args_gc_win := o_gc_win o;
       args_format := match o_format o with Some _ => true | None => false end;
       args_infer_baf_alleles := o_infer_baf_alleles o;
       args_cor_baf_lrr := o_cor_baf_lrr o;
       args_nsmpl := nsmpl; args_gender := o_gender o; args_fai := o_fai o |} in
  let decl := if o_fai o then ["GC"; "CpG"]%string else [] in
  if nsmpl =? 0 then Some (decl, args)
  else
    let gt_id := id2int "GT"%string in
    let ad_id := id2int "AD"%string in
    let baf_id := id2int "BAF"%string in
    let lrr_id := id2int "LRR"%string in
    let fmt_id := match o_format o with Some f => id2int f | None => -1 end in
    let allele_a_id := id2int "ALLELE_A"%string in
    let allele_b_id := id2int "ALLELE_B"%string in
    if args_format args && (fmt_id <? 0) then None
    else if o_ad o && ((gt_id <? 0) || (ad_id <? 0)) then None
    else if o_phase o && ((gt_id <? 0) || ((ad_id <? 0) && (baf_id <? 0) && (fmt_id <? 0)))
    then None
    else if o_infer_baf_alleles o && ((gt_id <? 0) || (baf_id <? 0)) then None
    else
      let decl :=
        if args_format args then
          decl ++ ["Bal"; "Bal_Test"]%string
               ++ (if o_phase o then ["Bal_Phase"; "Bal_Phase_Test"]%string else [])
        else decl in
      let decl := decl ++ ["AC_Het"%string] in
      let decl :=
        match o_gender o with
        | Some _ => decl ++ ["AC_Het_Sex"; "AC_Sex_Test"]%string
        | None => decl
        end in
      let decl :=
        if o_ad o && (0 <=? ad_id) then decl ++ ["AD_Het"; "AD_Het_Test"]%string else decl in
      let decl :=
        if o_phase o then
          decl ++ ["AC_Het_Phase"; "AC_Het_Phase_Test"]%string
               ++ (if (0 <=? ad_id) || (0 <=? baf_id) then ["BAF_Phase_Test"%string] else [])
        else decl in
      match
        (if o_infer_baf_alleles o then
           if 0 <=? id2int "ALLELE_A"%string then None
           else if 0 <=? id2int "ALLELE_B"%string then None
           else Some (decl ++ ["ALLELE_A"; "ALLELE_B"]%string)
         else Some decl)
      with
      | None => None
      | Some decl =>
          if o_cor_baf_lrr o then
            if allele_a_id <? 0 then None
            else if allele_b_id <? 0 then None
            else if baf_id <? 0 then None
            else if lrr_id <? 0 then None
            else Some (decl ++ ["Cor_BAF_LRR"%string], args)
          else Some (decl, args)
      end.

(** The INFO fields a call of [process] can write under given options. *)
Definition may_write (args : args_t) : list string :=
  (if args_fai args then ["GC"%string; "CpG"%string] else [])
  ++ (if (args_nsmpl args =? 0)%Z then []
      else
        ["AC_Het"%string]
        ++ (match args_gender args with Some _ => ["AC_Het_Sex"%string; "AC_Sex_Test"%string] | None => [] end)
        ++ (if args_phase args then ["AC_Het_Phase"%string; "AC_Het_Phase_Test"%string] else [])
        ++ (if args_format args
            then ["Bal"%string; "Bal_Test"%string]
                 ++ (if args_phase args then ["Bal_Phase"%string; "Bal_Phase_Test"%string] else [])
            else [])
        ++ (if args_ad args then ["AD_Het"%string; "AD_Het_Test"%string] else [])
        ++ (if args_phase args then ["BAF_Phase_Test"%string] else [])
        ++ (if args_infer_baf_alleles args then ["ALLELE_A"%string; "ALLELE_B"%string] else [])
        ++ (if args_cor_baf_lrr args then ["Cor_BAF_LRR"%string] else [])).

(** The invariant rule of a [for] loop over [lo <= i < hi]. *)
Lemma for_loop_inv {S : Type} (f : S → Z → S) (P : Z → S → Prop) (lo hi : Z) (s : S) :
  lo ≤ hi →
  P lo s →
  (∀ i t, lo ≤ i < hi → P i t → P (i + 1) (f t i)) →
  P hi (fold_left f (seqZ lo (hi - lo)) s).
Proof.
  intros Hle H0 Hstep.
  remember (Z.to_nat (hi - lo)) as n eqn:Hn.
  revert lo s Hle H0 Hstep Hn.
  induction n as [|n IH]; intros lo s Hle H0 Hstep Hn.
  - assert (hi = lo) by lia. subst hi.
    rewrite seqZ_nil by lia. exact H0.
  - rewrite seqZ_cons by lia. simpl.
    replace (Z.pred (hi - lo)) with (hi - Z.succ lo) by lia.
    apply IH; [lia | | | lia].
    + replace (Z.succ lo) with (lo + 1) by lia. apply Hstep; [lia | exact H0].
    + intros i t Hi. apply Hstep. lia.
Qed.

(** Linear arithmetic with division by a constant. *)
Ltac zdiv := Z.div_mod_to_equations; lia.

Lemma shiftr1 (x : Z) : Z.shiftr x 1 = x / 2.
Proof. rewrite Z.shiftr_div_pow2 by lia. reflexivity. Qed.


(** ** Facts about the beta-binomial cache *)

(** A counting [while] loop: the body raises the mark by one, the loop runs
    while the mark is below [N] and has fuel for every iteration. *)
Lemma while_loop_count {St : Type} (mark : St → Z) (body : St → St) (N : Z)
      (P : Z → St → Prop) :
  (∀ t, mark (body t) = mark t + 1) →
  (∀ t, mark t < N → P (mark t) t → P (mark t + 1) (body t)) →
  ∀ s, P (mark s) s →
  P (Z.max (mark s) N)
    (while_loop (Z.to_nat (N - mark s)) (fun t => mark t <? N) body s) ∧
  mark (while_loop (Z.to_nat (N - mark s)) (fun t => mark t <? N) body s)
    = Z.max (mark s) N.
Proof.
  intros Hmark Hstep s.
  remember (Z.to_nat (N - mark s)) as fuel eqn:Hfuel.
  revert s Hfuel. induction fuel as [|fuel IH]; intros s Hfuel HP.
  - simpl. replace (Z.max (mark s) N) with (mark s) by lia. split; [exact HP | reflexivity].
  - simpl. destruct (Z.ltb_spec (mark s) N) as [Hlt|Hge]; [|lia].
    assert (Hfuel' : fuel = Z.to_nat (N - mark (body s))) by (rewrite Hmark; lia).
    destruct (IH (body s) Hfuel') as [H1 H2].
    { rewrite Hmark. apply Hstep; assumption. }
    rewrite Hmark in H1, H2.
    replace (Z.max (mark s + 1) N) with (Z.max (mark s) N) in H1, H2 by lia.
    split; assumption.
Qed.

Lemma seqZ_snoc (m n : Z) : 0 ≤ n → seqZ m (n + 1) = seqZ m n ++ [m + n].
Proof.
  intros Hn. rewrite seqZ_app by lia. f_equal.
Qed.

Lemma bb_loop1_spec (body : bb_st → bb_st) (N : Z) (self : beta_binom_t)
      (w0 : list (bb_cache * Z)) :
  bb_body1_shape body →
  ∀ r, r = while_loop (Z.to_nat (N - bb_n1 self)) (fun st => bb_n1 st.1 <? N) body (self, w0) →
  r.2 = w0 ++ flat_map (fun i => [(Alpha, i); (Beta, i)])
                       (seqZ (bb_n1 self + 1) (N - bb_n1 self)) ∧
  bb_n1 r.1 = Z.max (bb_n1 self) N ∧
  bb_frame1 (bb_n1 self) N self r.1.
Proof.
  intros Hshape r ->.
  pose (P := fun (m : Z) (st : bb_st) =>
    bb_n1 self ≤ m ∧
    st.2 = w0 ++ flat_map (fun i => [(Alpha, i); (Beta, i)])
                          (seqZ (bb_n1 self + 1) (m - bb_n1 self)) ∧
    bb_frame1 (bb_n1 self) m self st.1).
  destruct (while_loop_count (fun st : bb_st => bb_n1 st.1) body N P) with (s := (self, w0))
    as [(Hle & Hw & Hfr) Hmark].
  - intros [s w]. destruct (Hshape s w) as (va & vb & ->). reflexivity.
  - intros [s w] Hlt (Hle & Hw & Hfr). simpl in *.
    destruct (Hshape s w) as (va & vb & ->). unfold P. simpl.
    split; [lia|]. split.
    + rewrite Hw. replace (bb_n1 s + 1 - bb_n1 self) with (bb_n1 s - bb_n1 self + 1) by lia.
      rewrite seqZ_snoc by lia. rewrite flat_map_app, app_assoc. simpl.
      replace (bb_n1 self + 1 + (bb_n1 s - bb_n1 self)) with (bb_n1 s + 1) by lia.
      reflexivity.
    + destruct Hfr as (H1 & H2 & H3 & H4 & H5 & H6 & H7 & H8).
      unfold bb_frame1. simpl.
      split; [exact H1|]. split; [exact H2|]. split; [exact H3|].
      split; [exact H4|]. split; [exact H5|]. split; [exact H6|].
      split; [exact H7|].
      intros i Hi. rewrite !lookup_insert_ne by lia. apply H8. lia.
  - unfold P. simpl. split; [lia|]. split.
    + rewrite Z.sub_diag. simpl. rewrite app_nil_r. reflexivity.
    + unfold bb_frame1. repeat split; reflexivity.
  - simpl in *. split; [|split; [exact Hmark|]].
    + etransitivity; [exact Hw|]. f_equal. f_equal.
      destruct (Z.le_ge_cases N (bb_n1 self)).
      * rewrite !seqZ_nil by lia. reflexivity.
      * f_equal. lia.
    + destruct Hfr as (H1 & H2 & H3 & H4 & H5 & H6 & H7 & H8).
      unfold bb_frame1.
      split; [exact H1|]. split; [exact H2|]. split; [exact H3|].
      split; [exact H4|]. split; [exact H5|]. split; [exact H6|].
      split; [exact H7|].
      intros i Hi. apply H8. lia.
Qed.

Lemma bb_loop2_spec (body : bb_st → bb_st) (N : Z) (self : beta_binom_t)
      (w0 : list (bb_cache * Z)) :
  bb_body2_shape body →
  ∀ r, r = while_loop (Z.to_nat (N - bb_n2 self)) (fun st => bb_n2 st.1 <? N) body (self, w0) →
  r.2 = w0 ++ map (fun i => (AlphaBeta, i)) (seqZ (bb_n2 self + 1) (N - bb_n2 self)) ∧
  bb_n2 r.1 = Z.max (bb_n2 self) N ∧
  bb_frame2 (bb_n2 self) N self r.1.
Proof.
  intros Hshape r ->.
  pose (P := fun (m : Z) (st : bb_st) =>
    bb_n2 self ≤ m ∧
    st.2 = w0 ++ map (fun i => (AlphaBeta, i)) (seqZ (bb_n2 self + 1) (m - bb_n2 self)) ∧
    bb_frame2 (bb_n2 self) m self st.1).
  destruct (while_loop_count (fun st : bb_st => bb_n2 st.1) body N P) with (s := (self, w0))
    as [(Hle & Hw & Hfr) Hmark].
  - intros [s w]. destruct (Hshape s w) as (v & ->). reflexivity.
  - intros [s w] Hlt (Hle & Hw & Hfr). simpl in *.
    destruct (Hshape s w) as (v & ->). unfold P. simpl.
    split; [lia|]. split.
    + rewrite Hw. replace (bb_n2 s + 1 - bb_n2 self) with (bb_n2 s - bb_n2 self + 1) by lia.
      rewrite seqZ_snoc by lia. rewrite map_app, app_assoc. simpl.
      replace (bb_n2 self + 1 + (bb_n2 s - bb_n2 self)) with (bb_n2 s + 1) by lia.
      reflexivity.
    + destruct Hfr as (H1 & H2 & H3 & H4 & H5 & H6 & H7 & H8 & H9).
      unfold bb_frame2. simpl.
      split; [exact H1|]. split; [exact H2|]. split; [exact H3|].
      split; [exact H4|]. split; [exact H5|]. split; [exact H6|].
      split; [exact H7|]. split; [exact H8|].
      intros i Hi. rewrite lookup_insert_ne by lia. apply H9. lia.
  - unfold P. simpl. split; [lia|]. split.
    + rewrite Z.sub_diag. simpl. rewrite app_nil_r. reflexivity.
    + unfold bb_frame2. repeat split; reflexivity.
  - simpl in *. split; [|split; [exact Hmark|]].
    + etransitivity; [exact Hw|]. f_equal. f_equal.
      destruct (Z.le_ge_cases N (bb_n2 self)).
      * rewrite !seqZ_nil by lia. reflexivity.
      * f_equal. lia.
    + destruct Hfr as (H1 & H2 & H3 & H4 & H5 & H6 & H7 & H8 & H9).
      unfold bb_frame2.
      split; [exact H1|]. split; [exact H2|]. split; [exact H3|].
      split; [exact H4|]. split; [exact H5|]. split; [exact H6|].
      split; [exact H7|]. split; [exact H8|].
      intros i Hi. apply H9. lia.
Qed.

Section beta_binom_facts.
Variable log : float → float.

Lemma bb_binom_body1_shape (la lb : float) : bb_body1_shape (bb_binom_body1 log la lb).
Proof. intros self w. eexists. eexists. reflexivity. Qed.

Lemma bb_binom_body2_shape : bb_body2_shape (bb_binom_body2 log).
Proof. intros self w. eexists. reflexivity. Qed.

Lemma bb_beta_body1_shape (alpha beta : float) :
  bb_body1_shape (bb_beta_body1 log alpha beta).
Proof. intros self w. eexists. eexists. reflexivity. Qed.

Lemma bb_beta_body2_shape (alpha beta : float) :
  bb_body2_shape (bb_beta_body2 log alpha beta).
Proof. intros self w. eexists. reflexivity. Qed.

(** The two loops, one after the other, for bodies of the right shape. *)
Lemma bb_loops_spec (body1 body2 : bb_st → bb_st) (self : beta_binom_t) (n1 n2 : Z) :
  bb_body1_shape body1 → bb_body2_shape body2 →
  ∀ r,
    r = while_loop (Z.to_nat (n2 - bb_n2 self)) (fun st => bb_n2 st.1 <? n2) body2
          (while_loop (Z.to_nat (n1 - bb_n1 self)) (fun st => bb_n1 st.1 <? n1) body1
             (self, [])) →
    r.2 = bb_stores (bb_n1 self) n1 (bb_n2 self) n2 ∧
    bb_n1 r.1 = Z.max (bb_n1 self) n1 ∧ bb_n2 r.1 = Z.max (bb_n2 self) n2 ∧
    bb_frame1 (bb_n1 self) n1 self
      (while_loop (Z.to_nat (n1 - bb_n1 self)) (fun st => bb_n1 st.1 <? n1) body1
         (self, [])).1 ∧
    bb_frame2 (bb_n2 self) n2
      (while_loop (Z.to_nat (n1 - bb_n1 self)) (fun st => bb_n1 st.1 <? n1) body1
         (self, [])).1 r.1.
Proof.
  intros Hs1 Hs2 r Hr.
  remember (while_loop (Z.to_nat (n1 - bb_n1 self)) (fun st => bb_n1 st.1 <? n1) body1
              (self, [])) as l1 eqn:Hl1.
  destruct (bb_loop1_spec body1 n1 self [] Hs1 l1 Hl1) as (Hw1 & Hm1 & Hf1).
  destruct l1 as [s1 w1]. simpl in *.
  assert (Hn2 : bb_n2 s1 = bb_n2 self) by apply Hf1.
  rewrite <- Hn2 in Hr.
  destruct (bb_loop2_spec body2 n2 s1 w1 Hs2 r Hr) as (Hw2 & Hm2 & Hf2).
  rewrite Hn2 in *.
  split; [rewrite Hw2, Hw1; reflexivity|].
  split; [|split; [exact Hm2|split; assumption]].
  destruct Hf2 as (_ & _ & -> & _). exact Hm1.
Qed.

Lemma bb_fill_spec (self : beta_binom_t) (p rho : float) (n1 n2 : Z) :
  (bb_fill log self p rho n1 n2).2 = bb_stores (bb_n1 self) n1 (bb_n2 self) n2 ∧
  bb_fill_post self n1 n2 (bb_fill log self p rho n1 n2).1.
Proof.
  unfold bb_fill.
  set (e := bb_expand self n1 n2).
  assert (Hloops : ∀ body1 body2, bb_body1_shape body1 → bb_body2_shape body2 →
    ∀ r, r = while_loop (Z.to_nat (n2 - bb_n2 e)) (fun st => bb_n2 st.1 <? n2) body2
               (while_loop (Z.to_nat (n1 - bb_n1 e)) (fun st => bb_n1 st.1 <? n1) body1
                  (e, [])) →
    r.2 = bb_stores (bb_n1 self) n1 (bb_n2 self) n2 ∧ bb_fill_post self n1 n2 r.1).
  { intros body1 body2 Hs1 Hs2 r Hr.
    destruct (bb_loops_spec body1 body2 e n1 n2 Hs1 Hs2 r Hr)
      as (Hw & Hm1 & Hm2 & Hf1 & Hf2).
    split; [exact Hw|].
    destruct Hf1 as (A1 & A2 & A3 & A4 & A5 & A6 & A7 & A8).
    destruct Hf2 as (B1 & B2 & B3 & B4 & B5 & B6 & B7 & B8 & B9).
    unfold bb_fill_post.
    split; [exact Hm1|]. split; [exact Hm2|].
    split; [rewrite B1, A1; reflexivity|]. split; [rewrite B2, A2; reflexivity|].
    split; [rewrite B6, A5; reflexivity|]. split; [rewrite B7, A6; reflexivity|].
    split; [rewrite B8, A7; reflexivity|]. split.
    - intros i Hi. rewrite B4, B5. apply (A8 i Hi).
    - intros i Hi. rewrite (B9 i Hi), A4. reflexivity. }
  destruct (feq rho 0); cbv zeta.
  - exact (Hloops _ _ (bb_binom_body1_shape _ _) bb_binom_body2_shape _ eq_refl).
  - exact (Hloops _ _ (bb_beta_body1_shape _ _) (bb_beta_body2_shape _ _) _ eq_refl).
Qed.
End beta_binom_facts.

(** The stores of one call: which cells, and each once. *)
Lemma in_bb_stores (c : bb_cache) (i m1 n1 m2 n2 : Z) :
  In (c, i) (bb_stores m1 n1 m2 n2) ↔
  (c ≠ AlphaBeta ∧ m1 < i ≤ n1) ∨ (c = AlphaBeta ∧ m2 < i ≤ n2).
Proof.
  unfold bb_stores. rewrite in_app_iff, in_flat_map, in_map_iff. split.
  - intros [(x & Hx & Hin)|(x & E & Hx)].
    + apply list_elem_of_In, elem_of_seqZ in Hx.
      destruct Hin as [E|[E|[]]]; injection E as E1 E2; subst c x;
        left; split; (discriminate || lia).
    + apply list_elem_of_In, elem_of_seqZ in Hx.
      injection E as E1 E2. subst c x. right. split; [reflexivity | lia].
  - intros [[Hc Hi]|[-> Hi]].
    + left. exists i. split; [apply list_elem_of_In, elem_of_seqZ; lia|].
      destruct c; [left; reflexivity | right; left; reflexivity | contradiction].
    + right. exists i. split; [reflexivity | apply list_elem_of_In, elem_of_seqZ; lia].
Qed.

Lemma NoDup_alpha_beta (l : list Z) :
  NoDup l → NoDup (flat_map (fun i => [(Alpha, i); (Beta, i)]) l).
Proof.
  induction 1 as [|a l Ha Hl IH]; [constructor|].
  simpl. constructor; [|constructor; [|exact IH]].
  - rewrite list_elem_of_In. intros [E|Hin]; [discriminate|].
    apply in_flat_map in Hin as (x & Hx & [E|[E|[]]]); [|discriminate].
    injection E as E. subst x. apply Ha, list_elem_of_In, Hx.
  - rewrite list_elem_of_In. intros Hin.
    apply in_flat_map in Hin as (x & Hx & [E|[E|[]]]); [discriminate|].
    injection E as E. subst x. apply Ha, list_elem_of_In, Hx.
Qed.

Lemma NoDup_alpha_beta_pair (l : list Z) :
  NoDup l → NoDup (map (fun i => (AlphaBeta, i)) l).
Proof.
  induction 1 as [|a l Ha Hl IH]; [constructor|].
  simpl. constructor; [|exact IH].
  rewrite list_elem_of_In. intros Hin.
  apply in_map_iff in Hin as (x & E & Hx). injection E as E. subst x.
  apply Ha, list_elem_of_In, Hx.
Qed.

Lemma NoDup_bb_stores (m1 n1 m2 n2 : Z) : NoDup (bb_stores m1 n1 m2 n2).
Proof.
  unfold bb_stores. apply NoDup_app. split; [|split].
  - apply NoDup_alpha_beta, NoDup_seqZ.
  - intros [c i]. rewrite !list_elem_of_In, in_flat_map, in_map_iff.
    intros (x & _ & [E|[E|[]]]) (y & E' & _); congruence.
  - apply NoDup_alpha_beta_pair, NoDup_seqZ.
Qed.

Section beta_binom_claims.
Variable log : float → float.

(** When no parameter change is detected, a call is [bb_fill]. *)
Lemma beta_binom_update_same (self : beta_binom_t) (p rho : float) (n1 n2 : Z) :
  feq (bb_p self) p = true → feq (bb_rho self) rho = true →
  beta_binom_update log self p rho n1 n2 = bb_fill log self p rho n1 n2.
Proof. intros Hp Hrho. unfold beta_binom_update. rewrite Hp, Hrho. reflexivity. Qed.

(** When one is, a call is [bb_fill] after the reset. *)
Lemma beta_binom_update_changed (self : beta_binom_t) (p rho : float) (n1 n2 : Z) :
  feq (bb_p self) p = false ∨ feq (bb_rho self) rho = false →
  beta_binom_update log self p rho n1 n2 = bb_fill log (bb_reset self p rho) p rho n1 n2.
Proof.
  intros Hch. unfold beta_binom_update.
  destruct Hch as [->| ->]; [reflexivity|]. rewrite orb_true_r. reflexivity.
Qed.

(** Stores of a run of calls in which no parameter change is detected: each
    cell at most once, and only above the marks the run starts from. *)
Lemma bb_updates_same (p rho : float) (calls : list (Z * Z)) :
  ∀ self,
    feq (bb_p self) p = true → feq (bb_rho self) rho = true →
    NoDup (bb_updates log self p rho calls).2 ∧
    ∀ c i, In (c, i) (bb_updates log self p rho calls).2 →
           (c ≠ AlphaBeta → bb_n1 self < i) ∧ (c = AlphaBeta → bb_n2 self < i).
Proof.
  induction calls as [|[n1 n2] rest IH]; intros self Hp Hrho.
  - simpl. split; [constructor | intros c i []].
  - cbn [bb_updates]. rewrite beta_binom_update_same by assumption.
    destruct (bb_fill_spec log self p rho n1 n2) as [Hw Hpost].
    destruct (bb_fill log self p rho n1 n2) as [self1 w1]. simpl in Hw, Hpost.
    destruct Hpost as (Hm1 & Hm2 & Hp1 & Hrho1 & _).
    destruct (IH self1) as [Hnd Habove]; [rewrite Hp1; exact Hp | rewrite Hrho1; exact Hrho|].
    destruct (bb_updates log self1 p rho rest) as [self2 w2]. simpl in *. subst w1.
    split.
    + apply NoDup_app. split; [apply NoDup_bb_stores|]. split; [|exact Hnd].
      intros [c i]. rewrite !list_elem_of_In, in_bb_stores. intros Hin1 Hin2.
      destruct (Habove c i Hin2) as [Ha Hb].
      destruct Hin1 as [[Hc Hi]|[Hc Hi]]; [specialize (Ha Hc) | specialize (Hb Hc)]; lia.
    + intros c i. rewrite in_app_iff, in_bb_stores. intros [[[Hc Hi]|[Hc Hi]]|Hin].
      * split; [lia | contradiction].
      * split; [contradiction | lia].
      * destruct (Habove c i Hin) as [Ha Hb].
        split; intros Hc; [specialize (Ha Hc) | specialize (Hb Hc)]; lia.
Qed.
(** C8.  At fixed parameters [(p, rho)] (numbers: [p == p] and
    [rho == rho]) a sequence of calls, with non-decreasing targets or not,
    stores into each cell of each of the three caches at most once; and a
    call that detects a change of [p] or [rho] runs from the marks
    [n1 = n2 = 0] on the same blocks: the capacities only go through
    [hts_expand], and every cell outside the ranges [1..n1] and [1..n2] that
    the call recomputes keeps its contents. *)
Theorem beta_binom_update_monotone (self : beta_binom_t) (p rho : float) :
  (∀ calls : list (Z * Z),
     feq p p = true → feq rho rho = true →
     NoDup (bb_updates log self p rho calls).2) ∧
  (∀ n1 n2 : Z,
     feq (bb_p self) p = false ∨ feq (bb_rho self) rho = false →
     beta_binom_update log self p rho n1 n2
       = bb_fill log (bb_reset self p rho) p rho n1 n2 ∧
     bb_n1 (bb_reset self p rho) = 0 ∧ bb_n2 (bb_reset self p rho) = 0 ∧
     log_gamma_alpha (bb_reset self p rho) = log_gamma_alpha self ∧
     log_gamma_beta (bb_reset self p rho) = log_gamma_beta self ∧
     log_gamma_alpha_beta (bb_reset self p rho) = log_gamma_alpha_beta self ∧
     m_log_gamma_alpha (bb_reset self p rho) = m_log_gamma_alpha self ∧
     m_log_gamma_beta (bb_reset self p rho) = m_log_gamma_beta self ∧
     m_log_gamma_alpha_beta (bb_reset self p rho) = m_log_gamma_alpha_beta self ∧
     (beta_binom_update log self p rho n1 n2).2 = bb_stores 0 n1 0 n2 ∧
     bb_fill_post (bb_reset self p rho) n1 n2 (beta_binom_update log self p rho n1 n2).1).
Proof.
  split.
  - intros calls Hp Hrho.
    destruct (feq (bb_p self) p) eqn:Ep; [destruct (feq (bb_rho self) rho) eqn:Er|].
    + apply bb_updates_same; assumption.
    + destruct calls as [|[n1 n2] rest]; [constructor|].
      cbn [bb_updates]. rewrite beta_binom_update_changed by (right; exact Er).
      rewrite <- (beta_binom_update_same (bb_reset self p rho) p rho n1 n2) by assumption.
      apply (bb_updates_same p rho ((n1, n2) :: rest) (bb_reset self p rho)); assumption.
    + destruct calls as [|[n1 n2] rest]; [constructor|].
      cbn [bb_updates]. rewrite beta_binom_update_changed by (left; exact Ep).
      rewrite <- (beta_binom_update_same (bb_reset self p rho) p rho n1 n2) by assumption.
      apply (bb_updates_same p rho ((n1, n2) :: rest) (bb_reset self p rho)); assumption.
  - intros n1 n2 Hch. rewrite beta_binom_update_changed by exact Hch.
    destruct (bb_fill_spec log (bb_reset self p rho) p rho n1 n2) as [Hw Hpost].
    repeat (split; [reflexivity|]). split; [exact Hw | exact Hpost].
Qed.
End beta_binom_claims.

Lemma beta_binom_update_monotone_witness :
  feq 0.5 0.5 = true ∧ feq 0.25 0.25 = true ∧
  NoDup (bb_updates no_log beta_binom_init 0.5 0.25 [(2, 1); (3, 2)]).2 ∧
  (feq (bb_p beta_binom_init) 0.5 = false ∨ feq (bb_rho beta_binom_init) 0.25 = false) ∧
  (beta_binom_update no_log beta_binom_init 0.5 0.25 2 1).2 = bb_stores 0 2 0 1.
Proof.
  destruct (beta_binom_update_monotone no_log beta_binom_init 0.5 0.25) as [Hrun Hreset].
  split; [reflexivity|]. split; [reflexivity|]. split.
  - apply Hrun; reflexivity.
  - split; [left; reflexivity|]. apply (Hreset 2 1). left. reflexivity.
Defined.

(** The stores of two calls at the same parameters on a fresh cache. *)
Example bb_updates_trace :
  (bb_updates no_log beta_binom_init 0.5 0.25 [(2, 1); (3, 2)]).2 =
  [(Alpha, 1); (Beta, 1); (Alpha, 2); (Beta, 2); (AlphaBeta, 1);
   (Alpha, 3); (Beta, 3); (AlphaBeta, 2)].
Proof. vm_compute. reflexivity. Qed.

(** With a NaN parameter every call detects a parameter change. *)
Example bb_updates_nan_trace :
  (bb_updates no_log beta_binom_init nan 0.25 [(1, 0); (1, 0)]).2 =
  [(Alpha, 1); (Beta, 1); (Alpha, 1); (Beta, 1)].
Proof. vm_compute. reflexivity. Qed.

(** ** Facts about the Mann-Whitney walk *)

Lemma sumZ_app (l k : list Z) : sumZ (l ++ k) = sumZ l + sumZ k.
Proof. induction l as [|x l IH]; simpl; [reflexivity | rewrite IH; lia]. Qed.

Lemma sumZ_perm (l k : list Z) : Permutation l k → sumZ l = sumZ k.
Proof. induction 1; simpl; lia. Qed.

Lemma elem_head_app_l {A : Type} (x : A) (l k : list A) : x ∈ (x :: l) ++ k.
Proof. simpl. constructor. Qed.

Lemma elem_head_app_r {A : Type} (y : A) (l k : list A) : y ∈ l ++ y :: k.
Proof. apply elem_of_app. right. constructor. Qed.

Section mann_whitney_facts.
Context {V : Type} `{EqDecision V} (vlt veq : V → V → bool).
Hypothesis veq_spec : ∀ x y, veq x y = true ↔ x = y.
Hypothesis vlt_irrefl : ∀ x, vlt x x = false.
Hypothesis vlt_trans : ∀ x y z, vlt x y = true → vlt y z = true → vlt x z = true.
Hypothesis vlt_total : ∀ x y, vlt x y = true ∨ x = y ∨ vlt y x = true.


Lemma vlt_asym (x y : V) : vlt x y = true → vlt y x = false.
Proof.
  intros Hxy. destruct (vlt y x) eqn:Hyx; [|reflexivity].
  rewrite <- (vlt_irrefl x). symmetry. apply (vlt_trans x y x); assumption.
Qed.

Lemma vle_lt_trans (x y z : V) : vle vlt x y → vlt y z = true → vlt x z = true.
Proof.
  unfold vle. intros Hxy Hyz.
  destruct (vlt_total x y) as [Hlt|[->|Hgt]]; [|exact Hyz|congruence].
  apply (vlt_trans x y z); assumption.
Qed.

Lemma vlt_le_trans (x y z : V) : vlt x y = true → vle vlt y z → vlt x z = true.
Proof.
  unfold vle. intros Hxy Hyz.
  destruct (vlt_total y z) as [Hlt|[<-|Hgt]]; [|exact Hxy|congruence].
  apply (vlt_trans x y z); assumption.
Qed.

Lemma vle_trans (x y z : V) : vle vlt x y → vle vlt y z → vle vlt x z.
Proof.
  intros Hxy Hyz. unfold vle. destruct (vlt z x) eqn:Hzx; [|reflexivity].
  pose proof (vlt_le_trans z x y Hzx Hxy) as Hzy. unfold vle in Hyz. congruence.
Qed.

Lemma not_vlt_vle (x y : V) : vlt x y = false → vle vlt y x.
Proof. intros Hxy. exact Hxy. Qed.

(** *** [qsort] sorts *)
Lemma qsort_insert_perm (x : V) (l : list V) : Permutation (qsort_insert vlt x l) (x :: l).
Proof.
  induction l as [|y r IH]; simpl; [reflexivity|].
  destruct (vlt x y); [reflexivity|].
  rewrite IH. apply perm_swap.
Qed.

Lemma qsort_insert_sorted (x : V) (l : list V) :
  StronglySorted (vle vlt) l → StronglySorted (vle vlt) (qsort_insert vlt x l).
Proof.
  induction 1 as [|y r Hr IH Hy]; simpl.
  - constructor; [constructor | constructor].
  - destruct (vlt x y) eqn:Hxy.
    + constructor; [constructor; assumption|].
      constructor; [apply vlt_asym, Hxy|].
      eapply Forall_impl; [exact Hy|]. intros z Hz.
      unfold vle in *. destruct (vlt z x) eqn:Hzx; [|reflexivity].
      pose proof (vlt_trans z x y Hzx Hxy). congruence.
    + constructor; [exact IH|].
      rewrite qsort_insert_perm. constructor; [exact Hxy | exact Hy].
Qed.

Lemma qsort_perm (l : list V) : Permutation (qsort vlt l) l.
Proof.
  induction l as [|x l IH]; simpl; [reflexivity|].
  rewrite qsort_insert_perm, IH. reflexivity.
Qed.

Lemma qsort_sorted (l : list V) : StronglySorted (vle vlt) (qsort vlt l).
Proof.
  induction l as [|x l IH]; simpl; [constructor|].
  apply qsort_insert_sorted, IH.
Qed.

Lemma sorted_drop (l : list V) (i : nat) :
  StronglySorted (vle vlt) l → StronglySorted (vle vlt) (drop i l).
Proof.
  intros Hl. revert i. induction Hl as [|x r Hr IH Hx]; intros [|i]; simpl;
    [constructor | constructor | constructor; assumption | apply IH].
Qed.
(** *** The counting loop on a sorted array

    From index [i], where no cell is below [curr], the loop counts the
    cells equal to [curr] and stops at the first cell above it. *)
Lemma count_run_spec (a : list V) (curr : V) :
  StronglySorted (vle vlt) a →
  ∀ fuel i ca,
    (i ≤ length a)%nat → (length a - i ≤ fuel)%nat →
    Forall (fun z => vlt z curr = false) (drop i a) →
    ∃ c, count_run veq fuel a curr i ca = ((i + c)%nat, (ca + c)%nat) ∧
         drop i a = replicate c curr ++ drop (i + c) a ∧
         Forall (fun z => vlt curr z = true) (drop (i + c) a) ∧
         (i + c ≤ length a)%nat.
Proof.
  intros Hsorted fuel. induction fuel as [|fuel IH]; intros i ca Hi Hfuel Hge.
  - exists 0%nat. rewrite !Nat.add_0_r. simpl.
    assert (Hnil : drop i a = []) by (apply drop_ge; lia).
    rewrite Hnil. repeat split; [constructor | exact Hi].
  - simpl. destruct (a !! i) as [x|] eqn:Hx.
    + pose proof (drop_S _ _ _ Hx) as Hdrop.
      pose proof (lookup_lt_Some _ _ _ Hx) as Hlt.
      rewrite Hdrop in Hge. apply Forall_cons in Hge as [Hxge Hrest].
      destruct (veq x curr) eqn:Heq.
      * apply veq_spec in Heq. subst x.
        destruct (IH (S i) (S ca) ltac:(lia) ltac:(lia) Hrest) as (c & Hrun & Hd & Hgt & Hle).
        exists (S c). rewrite !Nat.add_succ_r. simpl in Hrun, Hd, Hgt, Hle.
        split; [exact Hrun|]. split; [|split; [exact Hgt | exact Hle]].
        rewrite Hdrop, Hd. reflexivity.
      * exists 0%nat. rewrite !Nat.add_0_r. simpl. split; [reflexivity|].
        split; [reflexivity|]. split; [|exact Hi].
        assert (Hcx : vlt curr x = true).
        { destruct (vlt_total curr x) as [Hlt'|[E|Hgt]]; [exact Hlt' | | congruence].
          subst x. assert (veq curr curr = true) by (apply veq_spec; reflexivity). congruence. }
        pose proof (sorted_drop a i Hsorted) as Hsd. rewrite Hdrop in *.
        apply StronglySorted_inv in Hsd as [_ Hxle].
        constructor; [exact Hcx|].
        eapply Forall_impl; [exact Hxle|]. intros z Hz.
        apply (vlt_le_trans curr x z Hcx Hz).
    + exists 0%nat. rewrite !Nat.add_0_r. simpl.
      assert (Hnil : drop i a = []) by (apply drop_ge, lookup_ge_None; exact Hx).
      rewrite Hnil. repeat split; [constructor | exact Hi].
Qed.

(** *** Occurrences *)
Lemma occurrences_app (v : V) (l k : list V) :
  occurrences v (l ++ k) = occurrences v l + occurrences v k.
Proof. unfold occurrences. rewrite List.filter_app, length_app. lia. Qed.

Lemma occurrences_replicate (v : V) (c : nat) : occurrences v (replicate c v) = Z.of_nat c.
Proof.
  unfold occurrences. induction c as [|c IH]; [reflexivity|].
  simpl. rewrite bool_decide_eq_true_2 by reflexivity. simpl. lia.
Qed.

Lemma occurrences_absent (v : V) (l : list V) :
  Forall (fun z => z ≠ v) l → occurrences v l = 0.
Proof.
  unfold occurrences. induction 1 as [|x l Hx Hl IH]; [reflexivity|].
  simpl. rewrite bool_decide_eq_false_2 by exact Hx. exact IH.
Qed.

Lemma occurrences_perm (v : V) (l k : list V) :
  Permutation l k → occurrences v l = occurrences v k.
Proof.
  unfold occurrences. induction 1 as [|x l k Hp IH|x y l|l k m H1 IH1 H2 IH2]; simpl.
  - reflexivity.
  - destruct (bool_decide (x = v)); simpl; lia.
  - destruct (bool_decide (x = v)), (bool_decide (y = v)); reflexivity.
  - lia.
Qed.

Lemma occurrences_nonneg (v : V) (l : list V) : 0 ≤ occurrences v l.
Proof. unfold occurrences. lia. Qed.
(** *** The value the walk takes next is the least one left *)
Lemma sorted_head_least (x : V) (l : list V) :
  StronglySorted (vle vlt) (x :: l) → Forall (fun z => vlt z x = false) (x :: l).
Proof.
  intros Hs. apply StronglySorted_inv in Hs as [_ Hx].
  constructor; [apply vlt_irrefl | exact Hx].
Qed.

Lemma least_below (x y : V) (l : list V) :
  vle vlt x y → Forall (fun z => vlt z y = false) l → Forall (fun z => vlt z x = false) l.
Proof.
  intros Hxy Hl. eapply Forall_impl; [exact Hl|]. intros z Hz.
  apply (vle_trans x y z Hxy Hz).
Qed.

Lemma mwu_curr_spec (sa sb : list V) (i j : nat) :
  StronglySorted (vle vlt) sa → StronglySorted (vle vlt) sb →
  (i < length sa ∨ j < length sb)%nat → (j ≤ length sb)%nat →
  ∃ curr, mwu_curr vlt sa sb i j = Some curr ∧
          curr ∈ drop i sa ++ drop j sb ∧
          Forall (fun z => vlt z curr = false) (drop i sa) ∧
          Forall (fun z => vlt z curr = false) (drop j sb).
Proof.
  intros Hsa Hsb Hlt Hj. unfold mwu_curr.
  pose proof (sorted_drop sa i Hsa) as Hda. pose proof (sorted_drop sb j Hsb) as Hdb.
  destruct (sa !! i) as [x|] eqn:Hx; destruct (sb !! j) as [y|] eqn:Hy.
  - pose proof (lookup_lt_Some _ _ _ Hx). pose proof (lookup_lt_Some _ _ _ Hy).
    rewrite (drop_S _ _ _ Hx) in *. rewrite (drop_S _ _ _ Hy) in *.
    replace (j =? length sb)%nat with false by (symmetry; apply Nat.eqb_neq; lia).
    replace (i <? length sa)%nat with true by (symmetry; apply Nat.ltb_lt; lia).
    simpl. destruct (vlt x y) eqn:Hxy.
    + exists x. split; [reflexivity|]. split; [apply elem_head_app_l|].
      split; [apply sorted_head_least, Hda|].
      apply (least_below x y); [apply vlt_asym, Hxy | apply sorted_head_least, Hdb].
    + exists y. split; [reflexivity|].
      split; [apply (elem_head_app_r y (x :: drop (S i) sa))|].
      split; [|apply sorted_head_least, Hdb].
      apply (least_below y x); [exact Hxy | apply sorted_head_least, Hda].
  - pose proof (lookup_lt_Some _ _ _ Hx). apply lookup_ge_None in Hy.
    rewrite (drop_S _ _ _ Hx) in *. rewrite (drop_ge sb j) by lia.
    replace (j =? length sb)%nat with true by (symmetry; apply Nat.eqb_eq; lia).
    simpl. exists x. split; [reflexivity|]. split; [apply elem_head_app_l|].
    split; [apply sorted_head_least, Hda | constructor].
  - apply lookup_ge_None in Hx. pose proof (lookup_lt_Some _ _ _ Hy).
    rewrite (drop_S _ _ _ Hy) in *. rewrite (drop_ge sa i) by lia.
    replace (j =? length sb)%nat with false by (symmetry; apply Nat.eqb_neq; lia).
    replace (i <? length sa)%nat with false by (symmetry; apply Nat.ltb_ge; lia).
    simpl. exists y. split; [reflexivity|]. split; [apply (elem_head_app_r y [])|].
    split; [constructor | apply sorted_head_least, Hdb].
  - apply lookup_ge_None in Hx, Hy. lia.
Qed.
(** *** The walk *)
Lemma remove_dups_step (curr : V) (R R' : list V) :
  (∀ x, x ∈ R ↔ x = curr ∨ x ∈ R') → curr ∉ R' →
  Permutation (remove_dups R) (curr :: remove_dups R').
Proof.
  intros Hmem Hnot. apply NoDup_Permutation.
  - apply NoDup_remove_dups.
  - constructor; [rewrite elem_of_remove_dups; exact Hnot | apply NoDup_remove_dups].
  - intros x. rewrite elem_of_cons, !elem_of_remove_dups. apply Hmem.
Qed.

Lemma above_not_elem (curr : V) (l : list V) :
  Forall (fun z => vlt curr z = true) l → curr ∉ l.
Proof.
  intros Hl Hin. rewrite Forall_forall in Hl. specialize (Hl curr Hin).
  rewrite vlt_irrefl in Hl. discriminate.
Qed.

Lemma above_absent (curr : V) (l : list V) :
  Forall (fun z => vlt curr z = true) l → occurrences curr l = 0.
Proof.
  intros Hl. apply occurrences_absent. eapply Forall_impl; [exact Hl|].
  intros z Hz ->. rewrite vlt_irrefl in Hz. discriminate.
Qed.

Lemma below_absent (curr : V) (l : list V) :
  Forall (fun z => vlt z curr = true) l → occurrences curr l = 0.
Proof.
  intros Hl. apply occurrences_absent. eapply Forall_impl; [exact Hl|].
  intros z Hz ->. rewrite vlt_irrefl in Hz. discriminate.
Qed.

(** On a sorted array whose cells before [i] are below [curr], the run of
    [c] cells equal to [curr] from [i] holds every occurrence of [curr]. *)
Lemma run_is_all (sa : list V) (curr : V) (i c : nat) :
  Forall (fun z => vlt z curr = true) (take i sa) →
  drop i sa = replicate c curr ++ drop (i + c) sa →
  Forall (fun z => vlt curr z = true) (drop (i + c) sa) →
  occurrences curr sa = Z.of_nat c.
Proof.
  intros Hbelow Hrun Habove.
  rewrite <- (take_drop i sa), Hrun, !occurrences_app.
  rewrite (below_absent _ _ Hbelow), (above_absent _ _ Habove), occurrences_replicate. lia.
Qed.

(** After the runs of [curr] are consumed, the cells consumed so far are
    still below the cells that remain. *)
Lemma split_after_run (sa sb : list V) (curr : V) (i j ca cb : nat) :
  (∀ x y, x ∈ take i sa ++ take j sb → y ∈ drop i sa ++ drop j sb → vlt x y = true) →
  drop i sa = replicate ca curr ++ drop (i + ca) sa →
  drop j sb = replicate cb curr ++ drop (j + cb) sb →
  Forall (fun z => vlt curr z = true) (drop (i + ca) sa) →
  Forall (fun z => vlt curr z = true) (drop (j + cb) sb) →
  ∀ x y, x ∈ take (i + ca) sa ++ take (j + cb) sb →
         y ∈ drop (i + ca) sa ++ drop (j + cb) sb → vlt x y = true.
Proof.
  intros Hsplit Hda Hdb Haa Hab x y Hx Hy.
  rewrite Forall_forall in Haa, Hab.
  assert (Hy' : vlt curr y = true).
  { apply elem_of_app in Hy as [Hy|Hy]; [apply Haa | apply Hab]; exact Hy. }
  assert (Hyold : y ∈ drop i sa ++ drop j sb).
  { rewrite Hda, Hdb. rewrite !elem_of_app in *. tauto. }
  rewrite <- (take_take_drop sa i ca), <- (take_take_drop sb j cb) in Hx.
  rewrite Hda, Hdb in Hx.
  rewrite !take_app_length' in Hx by (rewrite length_replicate; reflexivity).
  rewrite !elem_of_app in Hx.
  destruct Hx as [[Hx|Hx]|[Hx|Hx]].
  - apply Hsplit; [apply elem_of_app; left; exact Hx | exact Hyold].
  - apply elem_of_replicate_inv in Hx. subst x. exact Hy'.
  - apply Hsplit; [apply elem_of_app; right; exact Hx | exact Hyold].
  - apply elem_of_replicate_inv in Hx. subst x. exact Hy'.
Qed.
(** The walk from [(i, j)] adds to [ties] the term of every tie group
    among the cells that remain, and has fuel to finish. *)
Lemma mwu_walk_spec (sa sb : list V) :
  StronglySorted (vle vlt) sa → StronglySorted (vle vlt) sb →
  ∀ fuel i j U ties,
    (i ≤ length sa)%nat → (j ≤ length sb)%nat →
    ((length sa - i) + (length sb - j) < fuel)%nat →
    (∀ x y, x ∈ take i sa ++ take j sb → y ∈ drop i sa ++ drop j sb → vlt x y = true) →
    ∃ U', mwu_walk vlt veq fuel sa sb i j U ties =
          Some (U', ties + sumZ (map (shared_term sa sb)
                                     (remove_dups (drop i sa ++ drop j sb)))).
Proof.
  intros Hsa Hsb fuel. induction fuel as [|fuel IH]; intros i j U ties Hi Hj Hfuel Hsplit;
    [lia|].
  cbn [mwu_walk].
  destruct ((i <? length sa)%nat || (j <? length sb)%nat) eqn:Hcond.
  - assert (Hlt : (i < length sa ∨ j < length sb)%nat).
    { apply orb_prop in Hcond as [H1|H1]; apply Nat.ltb_lt in H1; lia. }
    destruct (mwu_curr_spec sa sb i j Hsa Hsb Hlt Hj) as (curr & -> & Hin & Hga & Hgb).
    destruct (count_run_spec sa curr Hsa (length sa) i 0%nat Hi ltac:(lia) Hga)
      as (ca & -> & Hda & Haa & Hia).
    destruct (count_run_spec sb curr Hsb (length sb) j 0%nat Hj ltac:(lia) Hgb)
      as (cb & -> & Hdb & Hab & Hjb).
    cbn [Nat.add].
    (* the cells before [i] and [j] are below [curr] *)
    assert (Hbelow : Forall (fun z => vlt z curr = true) (take i sa ++ take j sb)).
    { apply Forall_forall. intros z Hz. apply Hsplit; assumption. }
    apply Forall_app in Hbelow as [Hba Hbb].
    pose proof (run_is_all sa curr i ca Hba Hda Haa) as Hoa.
    pose proof (run_is_all sb curr j cb Hbb Hdb Hab) as Hob.
    (* at least one cell is consumed *)
    assert (Hprog : (1 ≤ ca + cb)%nat).
    { rewrite Hda, Hdb in Hin. rewrite !elem_of_app in Hin.
      destruct Hin as [[Hr|Hr]|[Hr|Hr]].
      - destruct ca; [inversion Hr | lia].
      - exfalso. exact (above_not_elem _ _ Haa Hr).
      - destruct cb; [inversion Hr | lia].
      - exfalso. exact (above_not_elem _ _ Hab Hr). }
    (* the remaining cells, before and after the step *)
    assert (Hstep : Permutation (remove_dups (drop i sa ++ drop j sb))
                      (curr :: remove_dups (drop (i + ca) sa ++ drop (j + cb) sb))).
    { apply remove_dups_step.
      - intros x. rewrite Hda, Hdb, !elem_of_app, !elem_of_replicate.
        split.
        + intros [[[-> _]|Hr]|[[-> _]|Hr]]; auto.
        + intros [->|[Hr|Hr]]; auto.
          destruct ca as [|ca]; [|left; left; split; [reflexivity | lia]].
          right. left. split; [reflexivity | lia].
      - rewrite elem_of_app. intros [Hr|Hr];
          [exact (above_not_elem _ _ Haa Hr) | exact (above_not_elem _ _ Hab Hr)]. }
    edestruct (IH (i + ca)%nat (j + cb)%nat) as (U' & ->);
      [exact Hia | exact Hjb | lia
      | exact (split_after_run sa sb curr i j ca cb Hsplit Hda Hdb Haa Hab) |].
    exists U'. f_equal. f_equal.
    rewrite (sumZ_perm _ _ (Permutation_map _ Hstep)). simpl.
    unfold shared_term at 2. rewrite Hoa, Hob. unfold tie_term. rewrite Hoa, Hob.
    set (S := sumZ _).
    destruct (Nat.eqb_spec ca 0) as [->|Hca]; [simpl; lia|].
    destruct (Nat.eqb_spec cb 0) as [->|Hcb];
      [simpl; rewrite andb_false_r; lia|].
    replace ((0 <? Z.of_nat ca) && (0 <? Z.of_nat cb)) with true by lia.
    simpl. ring.
  - apply orb_false_elim in Hcond as [H1 H2]. apply Nat.ltb_ge in H1, H2.
    rewrite !drop_ge by lia. simpl. exists U. rewrite Z.add_0_r. reflexivity.
Qed.
Lemma shared_term_perm (a a' b b' : list V) (v : V) :
  Permutation a a' → Permutation b b' → shared_term a b v = shared_term a' b' v.
Proof.
  intros Ha Hb. unfold shared_term, tie_term.
  rewrite (occurrences_perm v a a' Ha), (occurrences_perm v b b' Hb). reflexivity.
Qed.

Lemma tie_groups_perm (a a' b b' : list V) :
  Permutation a a' → Permutation b b' → Permutation (tie_groups a b) (tie_groups a' b').
Proof.
  intros Ha Hb. unfold tie_groups.
  apply NoDup_Permutation; [apply NoDup_remove_dups | apply NoDup_remove_dups |].
  intros x. rewrite !elem_of_remove_dups, Ha, Hb. reflexivity.
Qed.

End mann_whitney_facts.



(** Scenario 6 of the specification: [a = b = {1, 2, 3}] gives [U = 4.5]
    (and three shared tie groups of two, [ties = 18]). *)
Example mwu_stats_123 :
  match mwu_stats Z.ltb Z.eqb [1; 2; 3] [1; 2; 3] with
  | Some (U, ties) => Qeq_bool U (9 # 2) && (ties =? 18)
  | None => false
  end = true.
Proof. reflexivity. Qed.

(** ** Facts about [process] *)

(** *** The aggregation of the BAF values by phase *)

(** C1 (the source departs from it).  One sample, heterozygous and phased
    [0|1], whose BAF is NaN (a missing BAF is a NaN): the loop counts it in
    [ac_het_phase[0]] and places nothing into [baf_arr[0]]. *)
Lemma aggregate_nan_baf :
  arr_get (ac_het_phase (aggregate (args0 1) (rec0 [0] [1] [1] (Some [nan]) None) ∅ ∅)) 0 = 1 ∧
  baf_placed (aggregate (args0 1) (rec0 [0] [1] [1] (Some [nan]) None) ∅ ∅) 0 = 0.
Proof. split; reflexivity. Qed.

(** With a second such sample whose BAF is 0.5, the value goes to cell 1 and
    cell 0 keeps what the previous record left there, while the battery
    reads cells 0 and 1. *)
Example aggregate_nan_baf_hole :
  let s := aggregate (args0 2) (rec0 [0; 0] [1; 1] [1; 1] (Some [nan; 0.5%float]) None) ∅ ∅ in
  arr_get (ac_het_phase s) 0 = 2 ∧ baf_stores s = [(0, 1)] ∧
  nth 0 (baf_arr s) ∅ !! 0 = None ∧ nth 0 (baf_arr s) ∅ !! 1 = Some 0.5%float.
Proof. vm_compute. repeat split. Qed.

(** Scenario 1 of the specification, with two samples per phase. *)
Example aggregate_scenario_1 :
  let s := aggregate (args0 4)
             (rec0 [0; 0; 1; 1] [1; 1; 0; 0] [1; 1; -1; -1]
                   (Some [0.5625; 0.5625; 0.4375; 0.4375]%float) None) ∅ ∅ in
  ac_het s = 4 ∧ ac_het_phase s = [2; 2] ∧ baf_placed s 0 = 2 ∧ baf_placed s 1 = 2.
Proof. vm_compute. repeat split. Qed.

(** *** The inference of the A and B alleles *)

(** C6 (the source departs from it).  Inference is on, the record is
    biallelic and has GT and a BAF field of one float per sample, but no LRR
    field: [process] leaves through [if (!baf || !lrr) goto ret;] and writes
    neither ALLELE_A nor ALLELE_B.  With an LRR field it writes both. *)
Lemma process_infer_without_lrr :
  written (process0 (args0 2) (rec0 [0; 1] [0; 1] [0; 0] (Some [0.25; 0.75]%float) None)
                    binom_tab_init ∅ ∅)
    = ["AC_Het"; "AC_Het_Phase"; "AC_Het_Phase_Test"]%string ∧
  written (process0 (args0 2)
                    (rec0 [0; 1] [0; 1] [0; 0] (Some [0.25; 0.75]%float) (Some [0; 0]%float))
                    binom_tab_init ∅ ∅)
    = ["AC_Het"; "AC_Het_Phase"; "AC_Het_Phase_Test"; "ALLELE_A"; "ALLELE_B"]%string.
Proof. split; vm_compute; reflexivity. Qed.

(** Scenario 3 of the specification. *)
Example infer_alleles_scenario_3 :
  infer_alleles get_median_spec
    (rec0 [0; 0; 1; 1] [0; 0; 1; 1] [0; 0; 0; 0] (Some [0.25; 0.375; 0.75; 0.625]%float) None) 4
  = Some (0, 1).
Proof. vm_compute. reflexivity. Qed.

Section infer_alleles_claims.
Variable get_median : list float → float.

(** C7.  Whenever the inference writes ALLELE_A and ALLELE_B, each value is
    -1 or an allele index below [n_allele], and the two values differ
    unless both are -1; in particular two non-negative values differ. *)
Theorem infer_alleles_range (rec : bcf1_t) (nsmpl a b : Z) :
  infer_alleles get_median rec nsmpl = Some (a, b) →
  -1 ≤ a ≤ n_allele rec - 1 ∧ -1 ≤ b ≤ n_allele rec - 1 ∧
  (a = b → a = -1 ∧ b = -1) ∧
  (0 ≤ a → 0 ≤ b → a ≠ b).
Proof.
  unfold infer_alleles, candidate_alleles.
  destruct (Z.eqb_spec (n_allele rec) 1) as [->|_];
    [|destruct (Z.eqb_spec (n_allele rec) 2) as [->|_];
      [|destruct (Z.eqb_spec (n_allele rec) 3) as [->|_]; [|discriminate]]].
  all: unfold allele_of_median, resolve_alleles; cbn [fst snd].
  all: repeat match goal with |- context [flt ?x ?y] => destruct (flt x y) end.
  all: cbn; intros E; injection E as <- <-; lia.
Qed.
End infer_alleles_claims.

Lemma infer_alleles_range_witness :
  infer_alleles get_median_spec
    (rec0 [0; 0; 1; 1] [0; 0; 1; 1] [0; 0; 0; 0] (Some [0.25; 0.375; 0.75; 0.625]%float) None) 4
  = Some (0, 1) ∧
  -1 ≤ 0 ≤ 2 - 1 ∧ -1 ≤ 1 ≤ 2 - 1 ∧ (0 = 1 → 0 = -1 ∧ 1 = -1) ∧ (0 ≤ 0 → 0 ≤ 1 → 0 ≠ 1).
Proof.
  split; [exact infer_alleles_scenario_3|].
  exact (infer_alleles_range get_median_spec _ 4 0 1 infer_alleles_scenario_3).
Defined.

(** *** The GC and CpG content *)

Lemma arr_get_insert_ne (l : list Z) (i j v : Z) :
  0 ≤ i → 0 ≤ j → i ≠ j → arr_get (<[Z.to_nat i := v]> l) j = arr_get l j.
Proof.
  intros Hi Hj Hne. unfold arr_get.
  rewrite !nth_lookup, list_lookup_insert_ne by lia. reflexivity.
Qed.

Lemma gc_step_inv (n : nat) (i : Z) (st : list Z * Z * Z * Z) :
  0 ≤ i → gc_inv n i st → gc_inv n (i + 1) (gc_step st i).
Proof.
  intros Hi. destruct st as [[[fa at_cnt] cg_cnt] cpg_cnt].
  intros (Hlen & Hat & Hcg & Hsum & Hcpg & Hprev). unfold gc_step.
  set (fa2 := if 96 <? arr_get fa i then <[Z.to_nat i := arr_get fa i - 32]> fa else fa).
  assert (Hlen2 : length fa2 = n).
  { unfold fa2. destruct (96 <? arr_get fa i); [rewrite length_insert|]; exact Hlen. }
  assert (Hprev2 : 0 < i → arr_get fa2 (i - 1) = arr_get fa (i - 1)).
  { intros Hpos. unfold fa2. destruct (96 <? arr_get fa i); [|reflexivity].
    apply arr_get_insert_ne; lia. }
  unfold gc_inv. replace (i + 1 - 1) with i by lia.
  generalize dependent (arr_get fa2 i). intros c.
  destruct (Z.ltb_spec 0 i) as [Hpos|Hzero].
  - rewrite (Hprev2 Hpos). specialize (Hprev Hpos).
    destruct (Z.eqb_spec (arr_get fa (i - 1)) 67) as [HC|HC];
      destruct (Z.eqb_spec c 65), (Z.eqb_spec c 84), (Z.eqb_spec c 67), (Z.eqb_spec c 71);
      simpl; repeat split; try lia; try (intros; lia).
  - destruct (Z.eqb_spec c 65), (Z.eqb_spec c 84), (Z.eqb_spec c 67), (Z.eqb_spec c 71);
      simpl; repeat split; try lia; try (intros; lia).
Qed.

Lemma gc_counts_bounds (fa : list Z) :
  let '(at_cnt, cg_cnt, cpg_cnt) := gc_counts fa in
  0 ≤ at_cnt ∧ 0 ≤ cg_cnt ∧ at_cnt + cg_cnt ≤ Z.of_nat (length fa) ∧
  0 ≤ cpg_cnt ≤ Z.of_nat (length fa).
Proof.
  unfold gc_counts.
  pose proof (for_loop_inv gc_step (gc_inv (length fa)) 0 (Z.of_nat (length fa))
                (fa, 0, 0, 0) ltac:(lia)) as H.
  rewrite Z.sub_0_r in H.
  destruct (fold_left gc_step _ _) as [[[fa' at_cnt] cg_cnt] cpg_cnt].
  destruct H as (_ & Hat & Hcg & Hsum & Hcpg & _).
  - unfold gc_inv. repeat split; try lia; try (intros; lia).
  - intros i t Hi. apply gc_step_inv. lia.
  - repeat split; lia.
Qed.

Lemma ratio_check_sound (N c n : Z) :
  ratio_check N = true → 0 ≤ c ≤ n → 1 ≤ n ≤ N →
  fle 0 (f32_div (f32_of_int c) (f32_of_int n)) = true ∧
  fle (f32_div (f32_of_int c) (f32_of_int n)) 1 = true.
Proof.
  intros H Hc Hn. unfold ratio_check in H.
  rewrite forallb_forall in H.
  assert (Hin : In n (seqZ 1 N)) by (apply list_elem_of_In, elem_of_seqZ; lia).
  specialize (H n Hin). rewrite forallb_forall in H.
  assert (Hin' : In c (seqZ 0 (n + 1))) by (apply list_elem_of_In, elem_of_seqZ; lia).
  specialize (H c Hin'). unfold ratio_ok in H. apply andb_prop, H.
Qed.

(** Ratios of counts up to 512, by evaluation. *)
Lemma ratio_check_512 : ratio_check 512 = true.
Proof. vm_compute. reflexivity. Qed.

Lemma ratio_in_unit (c n : Z) :
  0 ≤ c ≤ n → 1 ≤ n ≤ 512 →
  fle 0 (f32_div (f32_of_int c) (f32_of_int n)) = true ∧
  fle (f32_div (f32_of_int c) (f32_of_int n)) 1 = true.
Proof. apply (ratio_check_sound 512 c n ratio_check_512). Qed.


(** Scenario 4 of the specification: the window ACGTACGTACGT. *)
Example gc_content_acgt :
  gc_content [65; 67; 71; 84; 65; 67; 71; 84; 65; 67; 71; 84] = (0.5, 0.5)%float.
Proof. vm_compute. reflexivity. Qed.

(** Lower case is counted as upper case: the window acgt. *)
Example gc_counts_lower : gc_counts [97; 99; 103; 116] = (2, 2, 2).
Proof. reflexivity. Qed.



(** *** The sentinel of the kernels in BAF_Phase_Test *)

Section sentinel_claims.
Variable log10 : float → float.
Variable binom_dist : Z → float → Z → float.
Variable kt_fisher_exact : Z → Z → Z → Z → float.
Variable get_median : list float → float.
Variable kf_betai : float → float → float → float.
Variable mwu_pvalue : Z → Z → Q → Z → float.

(** C99, 7.12.6.8 with F.9.3.8: [log10(+inf)] is [+inf]. *)
Hypothesis log10_inf : log10 infinity = infinity.

Lemma neg_log10_sentinel : neg_log10 log10 infinity = neg_infinity.
Proof. unfold neg_log10. rewrite log10_inf. vm_compute. reflexivity. Qed.

Lemma welch_t_test_sentinel (a b : list float) (na nb : Z) :
  na < 2 ∨ nb < 2 → welch_t_test kf_betai a b na nb = infinity.
Proof.
  intros H. unfold welch_t_test.
  destruct (Z.ltb_spec na 2), (Z.ltb_spec nb 2); try reflexivity. lia.
Qed.

(** BAF_Phase_Test is the last field of the battery, written when phase is
    on and both counts are not zero. *)
Lemma test_battery_baf_phase_test args s tab out tab' ret :
  test_battery log10 binom_dist kt_fisher_exact get_median kf_betai mwu_pvalue args s tab
    = Some (out, tab') →
  In ("BAF_Phase_Test"%string, info_float ret) out →
  baf_phase_test log10 get_median kf_betai mwu_pvalue s = Some ret ∧
  arr_get (ac_het_phase s) 0 ≠ 0 ∧ arr_get (ac_het_phase s) 1 ≠ 0.
Proof.
  unfold test_battery, binom_test. intros Hb Hin.
  destruct (args_gender args), (args_phase args), (args_format args), (args_ad args).
  all: repeat match type of Hb with
              | context [binom_exact ?d ?t ?k ?n] =>
                  destruct (binom_exact d t k n); cbv beta iota zeta in Hb
              end.
  all: cbn [andb] in Hb.
  all: try (injection Hb as <- _; simpl in Hin; intuition discriminate).
  all: destruct (Z.eqb_spec (arr_get (ac_het_phase s) 0) 0) as [|H0];
    cbn [negb andb] in Hb;
    [injection Hb as <- _; simpl in Hin; intuition discriminate|].
  all: destruct (Z.eqb_spec (arr_get (ac_het_phase s) 1) 0) as [|H1];
    cbn [negb andb] in Hb;
    [injection Hb as <- _; simpl in Hin; intuition discriminate|].
  all: destruct (baf_phase_test _ _ _ _ s) as [ret'|]; [|discriminate].
  all: injection Hb as <- _; simpl in Hin.
  all: intuition (try discriminate).
  all: match goal with H : (_, info_float _) = (_, info_float _) |- _ =>
         injection H as ->; reflexivity end.
Qed.
Variable get_cov : list (float * float) → float * float * float.

(** The same for a whole call of [process]: the state is the one the loop
    over the samples leaves. *)
Lemma process_baf_phase_test args rec tab baf_arr0 baf_arr1 out tab' ret :
  process log10 binom_dist kt_fisher_exact get_median kf_betai mwu_pvalue get_cov
          args rec tab baf_arr0 baf_arr1 = Some (out, tab') →
  In ("BAF_Phase_Test"%string, info_float ret) out →
  ∃ out1 tab1,
    test_battery log10 binom_dist kt_fisher_exact get_median kf_betai mwu_pvalue
                 args (aggregate args rec baf_arr0 baf_arr1) tab = Some (out1, tab1) ∧
    In ("BAF_Phase_Test"%string, info_float ret) out1.
Proof.
  unfold process. intros Hp Hin.
  destruct (args_fai args); [destruct (fa rec) as [w|]; [|discriminate]|].
  all: destruct (args_nsmpl args =? 0);
    [injection Hp as <- _; simpl in Hin; intuition discriminate|].
  all: destruct (gt_alleles rec); cbn [negb] in Hp;
    [|injection Hp as <- _; simpl in Hin; intuition discriminate].
  all: destruct (test_battery _ _ _ _ _ _ args _ tab) as [[out1 tab1]|]; [|discriminate].
  all: exists out1, tab1; split; [reflexivity|].
  all: destruct (negb _ || negb _).
  all: try destruct (args_infer_baf_alleles args).
  all: try (destruct (infer_alleles _ _ _) as [[a b]|]; [|discriminate]).
  all: try destruct (args_cor_baf_lrr args).
  all: injection Hp as <- _.
  all: rewrite ?in_app_iff in Hin; simpl in Hin; rewrite ?in_app_iff in Hin; simpl in Hin.
  all: intuition discriminate.
Qed.

(** C5 (as amended).  Where a call of [process] writes BAF_Phase_Test: if a
    phase bucket holds fewer than two values, [welch_t_test] returns its
    sentinel [HUGE_VAL] and the third entry written is [-inf], the sentinel
    under [0.0f - (float)log10(.)]; and the fourth entry is never from the
    sentinel of [mann_whitney_u], both counts being other than zero. *)
Theorem baf_phase_test_sentinel args rec tab baf_arr0 baf_arr1 out tab' ret :
  process log10 binom_dist kt_fisher_exact get_median kf_betai mwu_pvalue get_cov
          args rec tab baf_arr0 baf_arr1 = Some (out, tab') →
  In ("BAF_Phase_Test"%string, info_float ret) out →
  let s := aggregate args rec baf_arr0 baf_arr1 in
  let n0 := arr_get (ac_het_phase s) 0 in
  let n1 := arr_get (ac_het_phase s) 1 in
  let a := buf_cells (nth 0 (baf_arr s) ∅) n0 in
  let b := buf_cells (nth 1 (baf_arr s) ∅) n1 in
  (n0 < 2 ∨ n1 < 2 →
   welch_t_test kf_betai a b n0 n1 = infinity ∧ nth 2 ret nan = neg_infinity) ∧
  (∃ U ties, mwu_stats flt feq a b = Some (U, ties) ∧
             nth 3 ret nan = neg_log10 log10 (mwu_pvalue n0 n1 U ties)).
Proof.
  intros Hp Hin s n0 n1 a b.
  destruct (process_baf_phase_test _ _ _ _ _ _ _ _ Hp Hin) as (out1 & tab1 & Hb & Hin1).
  destruct (test_battery_baf_phase_test _ _ _ _ _ _ Hb Hin1) as (Hret & H0 & H1).
  fold s in Hret, H0, H1. unfold baf_phase_test, mann_whitney_u in Hret.
  fold n0 n1 in Hret, H0, H1. fold a b in Hret.
  destruct (mwu_stats flt feq a b) as [[U ties]|]; [|discriminate].
  destruct (Z.eqb_spec n0 0); [contradiction|].
  destruct (Z.eqb_spec n1 0); [contradiction|].
  cbn [orb] in Hret. injection Hret as <-. split.
  - intros Hn. split; [apply welch_t_test_sentinel, Hn|].
    cbn [nth]. rewrite (welch_t_test_sentinel a b n0 n1 Hn). apply neg_log10_sentinel.
  - exists U, ties. split; reflexivity.
Qed.
End sentinel_claims.

(** A record with one phased heterozygous sample on each side: the third
    entry of BAF_Phase_Test is [-inf], which is not [HUGE_VAL]. *)
Lemma baf_phase_test_sentinel_cex :
  info_of "BAF_Phase_Test"
          (process0 (args0 2) (rec0 [0; 1] [1; 0] [1; -1] (Some [0.5625; 0.4375]%float) None)
                    binom_tab_init ∅ ∅)
    = Some (info_float [0.5625; 0.4375; neg_infinity; 0]%float) ∧
  welch_t_test no_betai [0.5625%float] [0.4375%float] 1 1 = infinity ∧
  feq neg_infinity infinity = false.
Proof. vm_compute. repeat split. Qed.

Lemma baf_phase_test_sentinel_witness :
  info_of "BAF_Phase_Test"
          (process0 (args0 2) (rec0 [0; 1] [1; 0] [1; -1] (Some [0.5625; 0.4375]%float) None)
                    binom_tab_init ∅ ∅)
    = Some (info_float [0.5625; 0.4375; neg_infinity; 0]%float) ∧
  no_log10 infinity = infinity ∧
  nth 2 [0.5625; 0.4375; neg_infinity; 0]%float nan = neg_infinity.
Proof.
  split; [vm_compute; reflexivity|]. split; [reflexivity|].
  refine (proj2 (proj1 (baf_phase_test_sentinel no_log10 no_binom_dist no_fisher get_median_spec
            no_betai no_mwu_pvalue eq_refl no_cov (args0 2)
            (rec0 [0; 1] [1; 0] [1; -1] (Some [0.5625; 0.4375]%float) None)
            binom_tab_init ∅ ∅ _ _ [0.5625; 0.4375; neg_infinity; 0]%float _ _) _)).
  - vm_compute. reflexivity.
  - vm_compute. right. right. right. left. reflexivity.
  - vm_compute. left. reflexivity.
Defined.

(** ** Facts about [binom_exact] *)

Lemma rstart_succ (i : Z) : 0 ≤ i → rstart (i + 1) = rstart i + ncell i.
Proof.
  intros Hi. unfold rstart, ncell. rewrite !shiftr1.
  destruct (Z.eqb_spec (i + 1) 0) as [?|_]; [lia|].
  destruct (Z.eqb_spec i 0) as [->|Hne]; [reflexivity|].
  assert (Hpar : i = 2 * (i / 2) ∨ i = 2 * (i / 2) + 1) by zdiv.
  set (q := i / 2) in *.
  destruct Hpar as [Hq|Hq].
  - replace ((i + 1) / 2) with q by zdiv.
    replace ((i + 1 + 1) / 2) with (q + 1) by zdiv. ring.
  - replace ((i + 1) / 2) with (q + 1) by zdiv.
    replace ((i + 1 + 1) / 2) with (q + 1) by zdiv. ring.
Qed.

Lemma ncell_pos (i : Z) : 0 ≤ i → 1 ≤ ncell i.
Proof.
  intros Hi. unfold ncell. rewrite shiftr1.
  destruct (Z.eqb_spec i 0); zdiv.
Qed.

Lemma ncell_succ (i : Z) : 0 ≤ i → ncell (i + 1) - 1 ≤ ncell i.
Proof.
  intros Hi. unfold ncell. rewrite !shiftr1.
  destruct (Z.eqb_spec (i + 1) 0); [lia|].
  destruct (Z.eqb_spec i 0); zdiv.
Qed.

Lemma rstart_mono (a b : Z) : 0 ≤ a ≤ b → rstart a ≤ rstart b.
Proof.
  intros [Ha Hab].
  replace b with (a + Z.of_nat (Z.to_nat (b - a))) by lia.
  induction (Z.to_nat (b - a)) as [|n IH].
  - replace (a + Z.of_nat 0) with a by lia. lia.
  - replace (a + Z.of_nat (S n)) with (a + Z.of_nat n + 1) by lia.
    rewrite rstart_succ by lia.
    pose proof (ncell_pos (a + Z.of_nat n)). lia.
Qed.

Lemma dv_row0 (i : Z) : 1 ≤ i → dv i 0 = (dv (i - 1) 0 * 0.5)%float.
Proof.
  intros Hi. unfold dv.
  replace (Z.to_nat i) with (S (Z.to_nat (i - 1))) by lia. reflexivity.
Qed.

Lemma dv_step (i j : Z) :
  1 ≤ i → 1 ≤ j →
  dv i j = (d_of_int i / d_of_int j * dv (i - 1) (j - 1) * 0.5)%float.
Proof.
  intros Hi Hj. unfold dv.
  replace (Z.to_nat i) with (S (Z.to_nat (i - 1))) by lia.
  replace (Z.to_nat j) with (S (Z.to_nat (j - 1))) by lia.
  cbn [dval].
  replace (Z.of_nat (S (Z.to_nat (i - 1)))) with i by lia.
  replace (Z.of_nat (S (Z.to_nat (j - 1)))) with j by lia.
  reflexivity.
Qed.

Lemma pv_0 (i : Z) : pv i 0 = dv i 0.
Proof. reflexivity. Qed.

Lemma pv_step (i j : Z) : 1 ≤ j → pv i j = (pv i (j - 1) + dv i j)%float.
Proof.
  intros Hj. unfold pv, dv.
  replace (Z.to_nat j) with (S (Z.to_nat (j - 1))) by lia. reflexivity.
Qed.

Lemma rd_Some (a : gmap Z float) (i : Z) (x : float) : a !! i = Some x → rd a i = x.
Proof. unfold rd. intros ->. reflexivity. Qed.

Lemma prev_idx_rstart (i : Z) :
  1 ≤ i → (if i - 1 =? 0 then 0 else 1 + Z.shiftr (i - 1) 1 * Z.shiftr i 1) = rstart (i - 1).
Proof.
  intros Hi. unfold rstart. replace (i - 1 + 1) with i by lia. reflexivity.
Qed.

Lemma curr_idx_rstart (i : Z) : 1 ≤ i → 1 + Z.shiftr i 1 * Z.shiftr (i + 1) 1 = rstart i.
Proof. intros Hi. unfold rstart. destruct (Z.eqb_spec i 0); [lia | reflexivity]. Qed.

Lemma ncell_shiftr (i : Z) : 1 ≤ i → Z.shiftr (i + 1) 1 = ncell i.
Proof. intros Hi. unfold ncell. destruct (Z.eqb_spec i 0); [lia | reflexivity]. Qed.

(** The inner loop writes cells [1 .. c-1] of row [i] from row [i-1] and
    leaves everything below the row untouched. *)
Lemma binom_inner_ok (i rs ps c : Z) (d1 p1 : gmap Z float) :
  1 ≤ i → 1 ≤ c →
  ps + (c - 1) ≤ rs →
  (∀ j, 0 ≤ j < c - 1 → d1 !! (ps + j) = Some (dv (i - 1) j)) →
  d1 !! rs = Some (dv i 0) →
  p1 !! rs = Some (pv i 0) →
  ∀ a b d p,
    fold_left (binom_inner i) (seqZ 1 (c - 1)) (ps, rs, d1, p1) = (a, b, d, p) →
    (∀ x, x < rs → d !! x = d1 !! x ∧ p !! x = p1 !! x) ∧
    (∀ j, 0 ≤ j < c → d !! (rs + j) = Some (dv i j) ∧ p !! (rs + j) = Some (pv i j)).
Proof.
  intros Hi Hc Hps Hprev Hd0 Hp0 a b d p Hfold.
  pose (P := fun (j : Z) (st : Z * Z * gmap Z float * gmap Z float) =>
    let '(pi, ci, d, p) := st in
    pi = ps + j - 1 ∧ ci = rs + j - 1 ∧
    (∀ x, x < rs → d !! x = d1 !! x ∧ p !! x = p1 !! x) ∧
    (∀ j', 0 ≤ j' < j → d !! (rs + j') = Some (dv i j') ∧ p !! (rs + j') = Some (pv i j'))).
  assert (HP : P c (fold_left (binom_inner i) (seqZ 1 (c - 1)) (ps, rs, d1, p1))).
  { apply for_loop_inv; [lia | |].
    - unfold P. repeat split; try lia.
      + assert (j' = 0) by lia. subst j'. rewrite Z.add_0_r. exact Hd0.
      + assert (j' = 0) by lia. subst j'. rewrite Z.add_0_r. exact Hp0.
    - intros j [[[pi ci] d'] p'] Hj (Hpi & Hci & Hlow & Hrow). subst pi ci.
      unfold P, binom_inner.
      replace (rs + j - 1 + 1) with (rs + j) by lia.
      assert (Hrd : rd d' (ps + j - 1) = dv (i - 1) (j - 1)).
      { apply rd_Some. replace (ps + j - 1) with (ps + (j - 1)) by lia.
        destruct (Hlow (ps + (j - 1))) as [-> _]; [lia|]. apply Hprev. lia. }
      assert (Hrp : rd p' (rs + j - 1) = pv i (j - 1)).
      { apply rd_Some. replace (rs + j - 1) with (rs + (j - 1)) by lia.
        apply Hrow. lia. }
      rewrite Hrd, Hrp, <- dv_step by lia.
      rewrite (rd_Some _ _ (dv i j)) by apply lookup_insert_eq.
      rewrite <- pv_step by lia.
      split; [lia|]. split; [lia|]. split.
      + intros x Hx. rewrite !lookup_insert_ne by lia. apply Hlow, Hx.
      + intros j' Hj'. destruct (Z.eq_dec j' j) as [->|Hne].
        * rewrite !lookup_insert_eq. split; reflexivity.
        * rewrite !lookup_insert_ne by lia. apply Hrow. lia. }
  rewrite Hfold in HP. destruct HP as (_ & _ & Hlow & Hrow). split; assumption.
Qed.

(** One iteration of the outer loop completes row [i]. *)
Lemma binom_row_ok (i : Z) (d p d' p' : gmap Z float) :
  1 ≤ i → rows_ok i d p → binom_row (d, p) i = (d', p') → rows_ok (i + 1) d' p'.
Proof.
  intros Hi [Hd Hp] Hrow. unfold binom_row in Hrow.
  rewrite prev_idx_rstart, curr_idx_rstart, ncell_shiftr in Hrow by lia.
  set (rs := rstart i) in *. set (ps := rstart (i - 1)) in *.
  assert (Hrs : rs = ps + ncell (i - 1)).
  { unfold rs, ps. replace i with (i - 1 + 1) at 1 by lia. apply rstart_succ. lia. }
  pose proof (ncell_pos (i - 1) ltac:(lia)) as Hn1.
  pose proof (ncell_pos i ltac:(lia)) as Hn2.
  pose proof (ncell_succ (i - 1) ltac:(lia)) as Hn3.
  replace (i - 1 + 1) with i in Hn3 by lia.
  assert (Hps : d !! ps = Some (dv (i - 1) 0)).
  { specialize (Hd (i - 1) 0). rewrite Z.add_0_r in Hd. apply Hd; lia. }
  rewrite (rd_Some _ _ _ Hps) in Hrow.
  rewrite <- (dv_row0 i) in Hrow by lia.
  rewrite (rd_Some _ rs (dv i 0)) in Hrow by apply lookup_insert_eq.
  destruct (fold_left _ _ _) as [[[a b] d2] p2] eqn:Hfold.
  injection Hrow as -> ->.
  apply binom_inner_ok in Hfold; try lia.
  - destruct Hfold as [Hlow Hcur]. split.
    + intros i' j Hi' Hj. destruct (Z.eq_dec i' i) as [->|Hne].
      * apply Hcur. exact Hj.
      * pose proof (rstart_mono (i' + 1) i ltac:(lia)) as Hm.
        rewrite rstart_succ in Hm by lia. fold rs in Hm.
        destruct (Hlow (rstart i' + j)) as [-> _]; [lia|].
        rewrite lookup_insert_ne by lia. apply Hd; lia.
    + intros i' j Hi' Hj. destruct (Z.eq_dec i' i) as [->|Hne].
      * apply Hcur. exact Hj.
      * pose proof (rstart_mono (i' + 1) i ltac:(lia)) as Hm.
        rewrite rstart_succ in Hm by lia. fold rs in Hm.
        destruct (Hlow (rstart i' + j)) as [_ ->]; [lia|].
        rewrite lookup_insert_ne by lia. apply Hp; lia.
  - intros j Hj. rewrite lookup_insert_ne by lia. apply Hd; lia.
  - apply lookup_insert_eq.
  - rewrite pv_0. apply lookup_insert_eq.
Qed.

(** The outer loop over rows [lo .. hi-1]. *)
Lemma binom_rows_ok (lo hi : Z) (d p d' p' : gmap Z float) :
  1 ≤ lo ≤ hi → rows_ok lo d p →
  fold_left binom_row (seqZ lo (hi - lo)) (d, p) = (d', p') →
  rows_ok hi d' p'.
Proof.
  intros Hlo Hok Hfold.
  assert (HP : (fun (i : Z) (dp : gmap Z float * gmap Z float) => rows_ok i dp.1 dp.2)
                 hi (fold_left binom_row (seqZ lo (hi - lo)) (d, p))).
  { apply for_loop_inv; [lia | exact Hok |].
    intros i [d1 p1] Hi Hinv. simpl in Hinv.
    destruct (binom_row (d1, p1) i) as [d2 p2] eqn:Hrow. simpl.
    eapply binom_row_ok; [lia | exact Hinv | exact Hrow]. }
  rewrite Hfold in HP. exact HP.
Qed.

Lemma rstart_ge1 (i : Z) : 1 ≤ i → 1 ≤ rstart i.
Proof. intros Hi. pose proof (rstart_mono 1 i ltac:(lia)) as H. exact H. Qed.

Lemma rows_ok_set0 (hi : Z) (d p : gmap Z float) :
  (1 < hi → rows_ok hi d p) → rows_ok (Z.max 1 hi) (<[0 := 1%float]> d) p.
Proof.
  intros Hok. split.
  - intros i j Hi Hj. destruct (Z.eq_dec i 0) as [->|Hne].
    + change (ncell 0) with 1 in Hj. assert (j = 0) by lia. subst j.
      change (rstart 0 + 0) with 0. rewrite lookup_insert_eq. reflexivity.
    + pose proof (rstart_ge1 i ltac:(lia)).
      rewrite lookup_insert_ne by lia. apply Hok; lia.
  - intros i j Hi Hj. apply Hok; lia.
Qed.

Lemma tab_ok_init : tab_ok binom_tab_init.
Proof. split; [reflexivity|]. split; simpl; [lia | intros H; lia]. Qed.

Lemma binom_grow_ok (t : binom_tab) (n : Z) :
  tab_ok t → 1 ≤ n → n_size t ≤ n →
  tab_ok (binom_grow t n) ∧ n_size (binom_grow t n) = n + 1.
Proof.
  intros (Hrel & Hsz & Hrows) Hn Hle. unfold binom_grow.
  set (lo := if n_size t =? 0 then 1 else n_size t).
  destruct (fold_left _ _ _) as [d p] eqn:Hfold. unfold tab_ok. simpl.
  split; [|reflexivity].
  split; [exact Hrel|]. split; [lia|]. intros _.
  assert (Hlo : lo = Z.max 1 (n_size t)).
  { unfold lo. destruct (Z.eqb_spec (n_size t) 0); lia. }
  apply (binom_rows_ok lo (n + 1) _ _ _ _ ltac:(lia)) in Hfold; [exact Hfold|].
  rewrite Hlo. apply rows_ok_set0. intros H. apply Hrows. lia.
Qed.

Section binom_exact_facts.
Variable binom_dist : Z → float → Z → float.

(** What an in-range call returns, and that it keeps the invariant. *)
Lemma binom_exact_spec (t : binom_tab) (k n : Z) :
  tab_ok t → 0 ≤ k ≤ n → n ≤ 1000 →
  tab_ok (binom_exact binom_dist t k n).2 ∧
  (binom_exact binom_dist t k n).1 =
    if k =? Z.shiftr n 1 then 1%float else (2 * pv n (Z.min k (n - k)))%float.
Proof.
  intros Hok Hk Hn. unfold binom_exact.
  replace ((n <? 0) && (k <? 0)) with false by lia.
  replace ((n <? 0) || (k <? 0) || (n <? k)) with false by lia.
  replace (1000 <? n) with false by lia.
  rewrite shiftr1. destruct (Z.eqb_spec k (n / 2)) as [Heq|Hne]; [split; [exact Hok | reflexivity]|].
  rewrite Z.shiftl_mul_pow2 by lia. change (2 ^ 1) with 2.
  assert (Hn1 : 1 ≤ n) by zdiv.
  set (k' := if n <? k * 2 then n - k else k).
  assert (Hk' : k' = Z.min k (n - k)).
  { unfold k'. destruct (Z.ltb_spec n (k * 2)); lia. }
  assert (Hcell : 0 ≤ k' < ncell n).
  { rewrite <- ncell_shiftr, shiftr1 by lia. rewrite Hk'. zdiv. }
  set (t' := if n_size t <=? n then binom_grow t n else t).
  assert (Ht' : tab_ok t' ∧ n < n_size t').
  { unfold t'. destruct (Z.leb_spec (n_size t) n) as [Hle|Hgt].
    - destruct (binom_grow_ok t n Hok Hn1 Hle) as [H1 H2]. split; [exact H1 | lia].
    - split; [exact Hok | lia]. }
  destruct Ht' as [Hok' Hsz']. simpl. split; [exact Hok'|].
  destruct Hok' as (_ & _ & Hrows). destruct (Hrows ltac:(lia)) as [_ Hp].
  rewrite <- shiftr1, curr_idx_rstart by lia.
  rewrite (rd_Some _ _ (pv n k')) by (apply Hp; lia).
  rewrite Hk'. reflexivity.
Qed.

(** Every call except the release call keeps the invariant. *)
Lemma binom_exact_tab_ok (t : binom_tab) (k n : Z) :
  tab_ok t → ¬ (n < 0 ∧ k < 0) → tab_ok (binom_exact binom_dist t k n).2.
Proof.
  intros Hok Hrel.
  destruct (Z_lt_dec n 0) as [Hn|Hn]; [|destruct (Z_lt_dec k 0) as [Hk|Hk];
    [|destruct (Z_lt_dec n k) as [Hnk|Hnk]; [|destruct (Z_lt_dec 1000 n) as [Hb|Hb]]]].
  5: { apply binom_exact_spec; [exact Hok | lia | lia]. }
  all: unfold binom_exact.
  all: replace ((n <? 0) && (k <? 0)) with false by lia.
  1-3: replace ((n <? 0) || (k <? 0) || (n <? k)) with true by lia; exact Hok.
  replace ((n <? 0) || (k <? 0) || (n <? k)) with false by lia.
  replace (1000 <? n) with true by lia. exact Hok.
Qed.

Lemma binom_reachable_ok (t : binom_tab) : binom_reachable binom_dist t → tab_ok t.
Proof.
  induction 1 as [|t k n _ IH Hrel]; [apply tab_ok_init|].
  apply binom_exact_tab_ok; assumption.
Qed.
End binom_exact_facts.

Lemma ncell_nat_Z (i : nat) : Z.of_nat (ncell_nat i) = ncell (Z.of_nat i).
Proof.
  unfold ncell, ncell_nat. destruct i as [|i]; [reflexivity|].
  destruct (Z.eqb_spec (Z.of_nat (S i)) 0); [lia|].
  rewrite shiftr1, Nat.div2_div, Nat2Z.inj_div. f_equal. lia.
Qed.

Lemma ncell_nat_succ (i : nat) : (ncell_nat (S i) - 1 ≤ ncell_nat i)%nat.
Proof.
  pose proof (ncell_succ (Z.of_nat i) ltac:(lia)) as H.
  replace (Z.of_nat i + 1) with (Z.of_nat (S i)) in H by lia.
  rewrite <- !ncell_nat_Z in H. lia.
Qed.

Lemma ncell_nat_pos (i : nat) : (1 ≤ ncell_nat i)%nat.
Proof.
  pose proof (ncell_pos (Z.of_nat i) ltac:(lia)) as H.
  rewrite <- ncell_nat_Z in H. lia.
Qed.

Lemma dtail_spec (i j m : nat) :
  dtail (Z.of_nat (S i)) (Z.of_nat (S j)) (map (dval i) (seq j m))
  = map (dval (S i)) (seq (S j) m).
Proof.
  revert j. induction m as [|m IH]; intros j; [reflexivity|].
  cbn [seq map dtail].
  replace (Z.of_nat (S j) + 1) with (Z.of_nat (S (S j))) by lia.
  rewrite IH. reflexivity.
Qed.

Lemma next_drow_spec (i : nat) :
  next_drow (Z.of_nat (S i)) (ncell_nat (S i)) (drow_spec i) = drow_spec (S i).
Proof.
  unfold drow_spec.
  pose proof (ncell_nat_pos i) as Hi. pose proof (ncell_nat_pos (S i)) as HSi.
  pose proof (ncell_nat_succ i) as Hle.
  assert (Hnext : next_drow (Z.of_nat (S i)) (ncell_nat (S i))
                    (map (dval i) (seq 0 (ncell_nat i))) =
                  (dval i 0 * 0.5)%float ::
                  take (ncell_nat (S i) - 1)
                       (dtail (Z.of_nat (S i)) (Z.of_nat 1)
                          (map (dval i) (seq 0 (ncell_nat i))))).
  { destruct (ncell_nat i); [lia | reflexivity]. }
  rewrite Hnext, dtail_spec, firstn_map, take_seq.
  destruct (ncell_nat (S i)) as [|c'] eqn:Hc'; [lia|].
  cbn [seq map]. f_equal. f_equal. f_equal. lia.
Qed.

Lemma psums_spec (i j m : nat) :
  psums (pval i j) (map (dval i) (seq (S j) m)) = map (pval i) (seq (S j) m).
Proof.
  revert j. induction m as [|m IH]; intros j; [reflexivity|].
  cbn [seq map psums]. change (pval i j + dval i (S j))%float with (pval i (S j)).
  rewrite IH. reflexivity.
Qed.

Lemma prow_spec (i : nat) : prow_of (drow_spec i) = map (pval i) (seq 0 (ncell_nat i)).
Proof.
  unfold drow_spec, prow_of. pose proof (ncell_nat_pos i) as Hi.
  destruct (ncell_nat i) as [|c]; [lia|].
  cbn [seq map]. f_equal. apply (psums_spec i 0 c).
Qed.

Lemma forallb_from_spec (g : Z → float → bool) (f : nat → float) (j m : nat) :
  forallb_from g (Z.of_nat j) (map f (seq j m)) = true →
  ∀ k, (j ≤ k < j + m)%nat → g (Z.of_nat k) (f k) = true.
Proof.
  revert j. induction m as [|m IH]; intros j H k Hk; [lia|].
  cbn [seq map forallb_from] in H. apply andb_prop in H as [H1 H2].
  destruct (Nat.eq_dec k j) as [->|Hne]; [exact H1|].
  replace (Z.of_nat j + 1) with (Z.of_nat (S j)) in H2 by lia.
  apply (IH (S j)); [exact H2 | lia].
Qed.

Lemma table_check_sound (good : Z → Z → float → bool) (m i : nat) :
  table_check good m (Z.of_nat i) (drow_spec i) = true →
  ∀ i' j, (i < i' ≤ i + m)%nat → (j < ncell_nat i')%nat →
          good (Z.of_nat i') (Z.of_nat j) (pval i' j) = true.
Proof.
  revert i. induction m as [|m IH]; intros i H i' j Hi' Hj; [lia|].
  cbn [table_check] in H.
  replace (Z.of_nat i + 1) with (Z.of_nat (S i)) in H by lia.
  rewrite <- ncell_nat_Z, Nat2Z.id, next_drow_spec in H.
  apply andb_prop in H as [H1 H2].
  destruct (Nat.eq_dec i' (S i)) as [->|Hne].
  - rewrite prow_spec in H1.
    apply (forallb_from_spec _ _ 0%nat _ H1). lia.
  - apply (IH (S i)); [exact H2 | lia | exact Hj].
Qed.

(** Every cell of rows 1 to 1000 is good: decided by evaluating the rows. *)
Lemma cells_good_1000 : table_check cell_good 1000 0 [1%float] = true.
Proof. vm_compute. reflexivity. Qed.

Lemma pv_good (n j : Z) :
  1 ≤ n ≤ 1000 → 0 ≤ j < ncell n → cell_good n j (pv n j) = true.
Proof.
  intros Hn Hj. unfold pv.
  rewrite <- (Z2Nat.id n) at 1 by lia. rewrite <- (Z2Nat.id j) at 1 by lia.
  apply (table_check_sound cell_good 1000 0 cells_good_1000); [lia|].
  apply Nat2Z.inj_lt. rewrite ncell_nat_Z, !Z2Nat.id by lia. lia.
Qed.

Example f32_of_double_tenth : f32_of_double 0x1.999999999999ap-4 = 0x1.99999ap-4%float.
Proof. vm_compute. reflexivity. Qed.

Example f32_of_double_huge : f32_of_double 0x1p+1000 = infinity.
Proof. vm_compute. reflexivity. Qed.

Section binom_exact_claims.
Variable binom_dist : Z → float → Z → float.

Lemma binom_exact_cell (t : binom_tab) (k n : Z) :
  binom_reachable binom_dist t → 0 ≤ k ≤ n → n ≤ 1000 → k ≠ Z.shiftr n 1 →
  let j := Z.min k (n - k) in
  (binom_exact binom_dist t k n).1 = (2 * pv n j)%float ∧
  cell_good n j (pv n j) = true.
Proof.
  intros Hreach Hk Hn Hne j.
  destruct (binom_exact_spec binom_dist t k n (binom_reachable_ok _ _ Hreach) Hk Hn)
    as [_ Hval].
  destruct (Z.eqb_spec k (Z.shiftr n 1)) as [?|_]; [contradiction|].
  split; [exact Hval|].
  rewrite shiftr1 in Hne.
  apply pv_good; [zdiv|].
  rewrite <- ncell_shiftr, shiftr1 by zdiv. unfold j. zdiv.
Qed.

Lemma binom_sym_test_eq (t : binom_tab) (k n : Z) :
  binom_sym_test binom_dist t k n =
  feq (binom_exact binom_dist t k n).1
      (binom_exact binom_dist (binom_exact binom_dist t k n).2 (n - k) n).1.
Proof.
  unfold binom_sym_test.
  destruct (binom_exact binom_dist t k n) as [r1 t1]. simpl.
  destruct (binom_exact binom_dist t1 (n - k) n) as [r2 t2]. reflexivity.
Qed.

(** C10.  An out-of-domain call ([n < 0], [k < 0] or [k > n]) returns NaN
    whatever the table holds, and leaves the table as it was, except that
    the sentinel call ([n < 0] and [k < 0]) frees the two blocks. *)
Theorem binom_exact_out_of_domain (t : binom_tab) (k n : Z) :
  n < 0 ∨ k < 0 ∨ k > n →
  binom_exact binom_dist t k n =
    (nan, if (n <? 0) && (k <? 0) then binom_free t else t) ∧
  dbinom (binom_exact binom_dist t k n).2 = dbinom t ∧
  pbinom (binom_exact binom_dist t k n).2 = pbinom t ∧
  n_size (binom_exact binom_dist t k n).2 = n_size t.
Proof.
  intros Hdom. unfold binom_exact.
  destruct ((n <? 0) && (k <? 0)) eqn:Hsent; [repeat split|].
  replace ((n <? 0) || (k <? 0) || (n <? k)) with true by lia.
  repeat split.
Qed.

(** C2 (as amended).  For [0 <= k <= n <= 1000] the two calls
    [binom_exact(k, n)] and [binom_exact(n - k, n)] compare equal whenever
    [n] is even or neither [k] nor [n - k] is [n >> 1], and
    [binom_exact(n / 2, n)] is 1 for even [n]. *)
Theorem binom_exact_symmetry (t : binom_tab) (k n : Z) :
  binom_reachable binom_dist t → 0 ≤ k ≤ n → n ≤ 1000 →
  (Z.even n = true ∨ (k ≠ Z.shiftr n 1 ∧ n - k ≠ Z.shiftr n 1) →
   binom_sym_test binom_dist t k n = true) ∧
  (Z.even n = true → (binom_exact binom_dist t (n / 2) n).1 = 1%float).
Proof.
  intros Hreach Hk Hn. split.
  - intros Hcond. rewrite binom_sym_test_eq.
    set (t1 := (binom_exact binom_dist t k n).2).
    assert (Hreach1 : binom_reachable binom_dist t1).
    { apply reach_call; [exact Hreach | lia]. }
    destruct (Z.eq_dec k (Z.shiftr n 1)) as [Hmid|Hmid].
    + (* the middle of an even row: both calls take the shortcut *)
      assert (Hmid' : n - k = Z.shiftr n 1).
      { destruct Hcond as [Hev|[? _]]; [|contradiction].
        rewrite shiftr1 in *. apply Zeven_bool_iff, Zeven_div2 in Hev.
        rewrite Z.div2_div in Hev. lia. }
      pose proof (binom_exact_spec binom_dist t k n
                    (binom_reachable_ok _ _ Hreach) Hk Hn) as [_ Hv1].
      pose proof (binom_exact_spec binom_dist t1 (n - k) n
                    (binom_reachable_ok _ _ Hreach1) ltac:(lia) Hn) as [_ Hv2].
      apply Z.eqb_eq in Hmid, Hmid'. rewrite Hmid in Hv1. rewrite Hmid' in Hv2.
      rewrite Hv1, Hv2. reflexivity.
    + assert (Hmid' : n - k ≠ Z.shiftr n 1).
      { destruct Hcond as [Hev|[_ ?]]; [|assumption].
        rewrite shiftr1 in *. apply Zeven_bool_iff, Zeven_div2 in Hev.
        rewrite Z.div2_div in Hev. lia. }
      destruct (binom_exact_cell t k n Hreach Hk Hn Hmid) as [Hv1 Hgood].
      destruct (binom_exact_cell t1 (n - k) n Hreach1 ltac:(lia) Hn Hmid') as [Hv2 _].
      replace (Z.min (n - k) (n - (n - k))) with (Z.min k (n - k)) in Hv2 by lia.
      rewrite Hv1, Hv2. unfold cell_good in Hgood.
      apply andb_prop in Hgood as [Hgood _].
      apply andb_prop in Hgood as [Hgood _].
      apply andb_prop in Hgood as [Hgood _]. exact Hgood.
  - intros Hev.
    pose proof (binom_exact_spec binom_dist t (n / 2) n
                  (binom_reachable_ok _ _ Hreach) ltac:(zdiv) Hn) as [_ Hv].
    rewrite shiftr1, Z.eqb_refl in Hv. exact Hv.
Qed.

(** C3 (as amended).  For [0 <= k <= n <= 1000] the value of
    [binom_exact(k, n)] is strictly positive, so [log10] is never taken at
    zero; it is at most 1 unless [n] is odd and [k = (n + 1) / 2], where it
    is at most [1 + 2^-50]; and [binom_exact(0, 0)] is 1, which the test
    battery reports as the annotation 0.0. *)
Theorem binom_exact_positive_bounded (t : binom_tab) (k n : Z) :
  binom_reachable binom_dist t → 0 ≤ k ≤ n → n ≤ 1000 →
  flt 0 (binom_exact binom_dist t k n).1 = true ∧
  fle (binom_exact binom_dist t k n).1 0x1.0000000000004p+0 = true ∧
  (¬ (Z.odd n = true ∧ k = (n + 1) / 2) → fle (binom_exact binom_dist t k n).1 1 = true) ∧
  (binom_exact binom_dist t 0 0).1 = 1%float ∧
  (∀ log10 : float → float,
     log10 1%float = 0%float →
     neg_log10 log10 (binom_exact binom_dist t 0 0).1 = 0%float).
Proof.
  intros Hreach Hk Hn.
  assert (H00 : (binom_exact binom_dist t 0 0).1 = 1%float).
  { pose proof (binom_exact_spec binom_dist t 0 0
                  (binom_reachable_ok _ _ Hreach) ltac:(lia) ltac:(lia)) as [_ Hv].
    exact Hv. }
  assert (Hann : ∀ log10 : float → float, log10 1%float = 0%float →
                 neg_log10 log10 (binom_exact binom_dist t 0 0).1 = 0%float).
  { intros log10 Hlog. rewrite H00. unfold neg_log10. rewrite Hlog.
    vm_compute. reflexivity. }
  destruct (Z.eq_dec k (Z.shiftr n 1)) as [Hmid|Hmid].
  - pose proof (binom_exact_spec binom_dist t k n
                  (binom_reachable_ok _ _ Hreach) Hk Hn) as [_ Hv].
    apply Z.eqb_eq in Hmid. rewrite Hmid in Hv. rewrite Hv.
    repeat split; try reflexivity; assumption.
  - destruct (binom_exact_cell t k n Hreach Hk Hn Hmid) as [Hv Hgood].
    rewrite Hv. unfold cell_good in Hgood.
    apply andb_prop in Hgood as [Hgood Hle1].
    apply andb_prop in Hgood as [Hgood Hle].
    apply andb_prop in Hgood as [_ Hpos].
    split; [exact Hpos|]. split; [exact Hle|]. split; [|split; assumption].
    intros Hnot. apply orb_prop in Hle1 as [Hle1|Hodd]; [exact Hle1|].
    exfalso. apply Hnot. apply andb_prop in Hodd as [Hodd Hj].
    apply Z.eqb_eq in Hj. rewrite shiftr1 in Hj, Hmid.
    split; [exact Hodd|].
    apply Zodd_bool_iff, Zodd_ex in Hodd as [m Hm]. zdiv.
Qed.
End binom_exact_claims.

Lemma binom_exact_out_of_domain_witness :
  (3 < 0 ∨ 5 < 0 ∨ 5 > 3) ∧
  binom_exact no_binom_dist binom_tab_init 5 3 = (nan, binom_tab_init) ∧
  binom_exact no_binom_dist binom_tab_init (-1) (-1) = (nan, binom_free binom_tab_init).
Proof.
  split; [lia|]. split.
  - apply (binom_exact_out_of_domain no_binom_dist binom_tab_init 5 3). lia.
  - apply (binom_exact_out_of_domain no_binom_dist binom_tab_init (-1) (-1)). lia.
Defined.

(** On a fresh table, [binom_exact(20, 41)] takes the [k == n >> 1] shortcut
    and is 1.0, while [binom_exact(21, 41)] is folded onto the same [k = 20]
    and read from the table, where the rounded sum is one ulp above 1/2. *)
Lemma binom_exact_symmetry_cex :
  (binom_exact no_binom_dist binom_tab_init 20 41).1 = 1%float ∧
  (binom_exact no_binom_dist (binom_exact no_binom_dist binom_tab_init 20 41).2 21 41).1
    = 0x1.0000000000001p+0%float ∧
  binom_sym_test no_binom_dist binom_tab_init 20 41 = false.
Proof.
  assert (H1 : binom_exact no_binom_dist binom_tab_init 20 41 = (1%float, binom_tab_init))
    by reflexivity.
  assert (H2 : (binom_exact no_binom_dist binom_tab_init 21 41).1
               = 0x1.0000000000001p+0%float).
  { destruct (binom_exact_spec no_binom_dist binom_tab_init 21 41 tab_ok_init
                ltac:(lia) ltac:(lia)) as [_ ->].
    vm_compute. reflexivity. }
  rewrite binom_sym_test_eq, H1. cbn [fst snd]. rewrite H2.
  repeat split.
Qed.

Lemma binom_exact_symmetry_witness :
  binom_reachable no_binom_dist binom_tab_init ∧ 0 ≤ 3 ≤ 10 ∧ 10 ≤ 1000 ∧
  binom_sym_test no_binom_dist binom_tab_init 3 10 = true ∧
  (binom_exact no_binom_dist binom_tab_init (10 / 2) 10).1 = 1%float.
Proof.
  split; [apply reach_init|]. split; [lia|]. split; [lia|].
  destruct (binom_exact_symmetry no_binom_dist binom_tab_init 3 10
              (reach_init _) ltac:(lia) ltac:(lia)) as [Hsym Hmid].
  split; [apply Hsym; left; reflexivity | apply Hmid; reflexivity].
Defined.

(** On a fresh table [binom_exact(21, 41)] exceeds 1. *)
Lemma binom_exact_above_one_cex :
  (binom_exact no_binom_dist binom_tab_init 21 41).1 = 0x1.0000000000001p+0%float ∧
  fle (binom_exact no_binom_dist binom_tab_init 21 41).1 1 = false.
Proof.
  destruct (binom_exact_spec no_binom_dist binom_tab_init 21 41 tab_ok_init
              ltac:(lia) ltac:(lia)) as [_ ->].
  vm_compute. repeat split.
Qed.

(** Scenario 2 of the specification: [binom_exact(3, 10) = 0.34375]. *)
Example binom_exact_3_10 :
  (binom_exact no_binom_dist binom_tab_init 3 10).1 = 0.34375%float.
Proof.
  destruct (binom_exact_spec no_binom_dist binom_tab_init 3 10 tab_ok_init
              ltac:(lia) ltac:(lia)) as [_ ->].
  vm_compute. reflexivity.
Qed.

Lemma binom_exact_positive_bounded_witness :
  binom_reachable no_binom_dist binom_tab_init ∧ 0 ≤ 3 ≤ 10 ∧ 10 ≤ 1000 ∧
  flt 0 (binom_exact no_binom_dist binom_tab_init 3 10).1 = true ∧
  fle (binom_exact no_binom_dist binom_tab_init 3 10).1 1 = true ∧
  neg_log10 (fun x => (x - 1)%float) (binom_exact no_binom_dist binom_tab_init 0 0).1
    = 0%float.
Proof.
  split; [apply reach_init|]. split; [lia|]. split; [lia|].
  destruct (binom_exact_positive_bounded no_binom_dist binom_tab_init 3 10
              (reach_init _) ltac:(lia) ltac:(lia)) as (Hpos & _ & Hle & _ & Hann).
  split; [exact Hpos|]. split.
  - apply Hle. intros [Hodd _]. discriminate Hodd.
  - apply Hann. reflexivity.
Defined.
(** * Further properties of the code *)

Lemma pair_shape (a : list Z) : length a = 2%nat → a = [arr_get a 0; arr_get a 1].
Proof. destruct a as [|x [|y [|z a]]]; try discriminate. reflexivity. Qed.

Lemma quad_shape (a : list Z) :
  length a = 4%nat → a = [arr_get a 0; arr_get a 1; arr_get a 2; arr_get a 3].
Proof. destruct a as [|x [|y [|z [|w [|v a]]]]]; try discriminate. reflexivity. Qed.

(** Case analysis on what the body of the loop reads at sample [i]. *)
Ltac split_sign Hsign rec i :=
  try match goal with
      | |- context [arr_get (fmt_sign_arr rec) i] =>
          let H := fresh in
          let v := fresh "v" in
          pose proof (Hsign i) as H; revert H;
          generalize (arr_get (fmt_sign_arr rec) i); intros v H;
          destruct H as [-> | [-> | [-> | ->]]]; destruct (fmt_sign rec)
      end.

Ltac split_phase rec i :=
  try match goal with
      | |- context [arr_get (gt_phase_arr rec) i] =>
          let p := fresh "p" in
          generalize (arr_get (gt_phase_arr rec) i); intros p;
          destruct (Z.eqb_spec p (-1)) as [-> | ?]; [|destruct (Z.eqb_spec p 1) as [-> | ?]];
          destruct (gt_phase rec)
      end.

Ltac split_gender args i :=
  unfold gender_known, gender_of;
  try match goal with
      | |- context [args_gender args] =>
          let g := fresh "g" in
          let gv := fresh "gv" in
          destruct (args_gender args) as [g|];
          [generalize (arr_get g i); intros gv;
           destruct (Z.eqb_spec gv 1) as [-> | ?]; [|destruct (Z.eqb_spec gv 2) as [-> | ?]]|]
      end.

Ltac split_gt rec i :=
  try match goal with
      | |- context [arr_get (gt0_arr rec) i] =>
          let a0 := fresh "a" in
          let a1 := fresh "a" in
          generalize (arr_get (gt0_arr rec) i), (arr_get (gt1_arr rec) i); intros a0 a1;
          destruct (Z.eqb_spec a0 a1), (Z.eqb_spec a0 0), (Z.eqb_spec a1 0),
            (Z.ltb_spec 0 a0), (Z.ltb_spec 0 a1);
          try lia
      end.

Lemma sample_step_counts (args : args_t) (rec : bcf1_t) (i : Z) (s : agg_t) :
  sign_ok rec → counts_inv i s → counts_inv (i + 1) (sample_step args rec s i).
Proof.
  intros Hsign ((Lh & Hh) & (Lf & Hf) & (Lg & Hg) & (Lx & Hx) & H).
  destruct H as (H1 & H2 & H3 & H4 & H5 & Ls & Hs).
  unfold sample_step.
  destruct ((arr_get (gt0_arr rec) i =? bcf_int16_missing)
            || (arr_get (gt0_arr rec) i =? bcf_int16_missing)).
  { unfold counts_inv, pair_ok. repeat split; try tauto; lia. }
  unfold pair_sum in *.
  rewrite (pair_shape _ Lh), (pair_shape _ Lf), (pair_shape _ Lg), (pair_shape _ Lx),
    (quad_shape _ Ls).
  revert Hh Hf Hg Hx H1 H2 H3 H4 H5 Hs.
  generalize (arr_get (ac_het_phase s) 0), (arr_get (ac_het_phase s) 1),
    (arr_get (fmt_bal s) 0), (arr_get (fmt_bal s) 1),
    (arr_get (fmt_bal_phase s) 0), (arr_get (fmt_bal_phase s) 1),
    (arr_get (ac_het_sex s) 0), (arr_get (ac_het_sex s) 1),
    (arr_get (ac_sex s) 0), (arr_get (ac_sex s) 1), (arr_get (ac_sex s) 2),
    (arr_get (ac_sex s) 3).
  intros h0 h1 f0 f1 g0 g1 x0 x1 s0 s1 s2 s3 Hh Hf Hg Hx H1 H2 H3 H4 H5 Hs.
  destruct ((arr_get (gt0_arr rec) i =? arr_get (gt1_arr rec) i) || _) eqn:Hhet.
  all: unfold counts_inv, pair_ok, pair_sum;
    cbn [ac_het ac_sex ac_het_sex ac_het_phase fmt_bal fmt_bal_phase ad_het].
  all: repeat match goal with |- _ ∧ _ => split end.
  all: split_sign Hsign rec i; split_phase rec i; split_gender args i.
  all: try (cbv [arr_get arr_add bcf_int8_missing]; simpl; lia).
  all: revert Hhet; split_gt rec i.
  all: cbv [arr_get arr_add]; simpl; intros; try discriminate; try lia.
Qed.

Lemma store_ok_mono (h0 h1 h0' h1' : Z) (e : Z * Z) :
  h0 ≤ h0' → h1 ≤ h1' → store_ok [h0; h1] e → store_ok [h0'; h1'] e.
Proof.
  intros H0 H1 ([E|E] & H); rewrite E in H; unfold store_ok; rewrite E;
    cbv [arr_get] in *; simpl in *; split; (tauto || lia).
Qed.

Lemma stores_fresh (h0 h1 k : Z) (l : list (Z * Z)) :
  Forall (store_ok [h0; h1]) l → k = 0 ∨ k = 1 → (k, arr_get [h0; h1] k) ∉ l.
Proof.
  intros Hall Hk Hin. rewrite Forall_forall in Hall.
  destruct (Hall _ Hin) as [_ H]. simpl in H. lia.
Qed.

Lemma stores_step (full : Prop) (l : list (Z * Z)) (h0 h1 k : Z) (nanb : bool) :
  0 ≤ h0 → 0 ≤ h1 → k = 0 ∨ k = 1 →
  Forall (store_ok [h0; h1]) l → NoDup l →
  (full → ∀ j, j = 0 ∨ j = 1 →
          List.filter (fun e : Z * Z => e.1 =? j) l
          = map (pair j) (seqZ 0 (arr_get [h0; h1] j))) →
  (full → nanb = false) →
  let h' := arr_add [h0; h1] k 1 in
  let l' := if negb nanb then l ++ [(k, arr_get h' k - 1)] else l in
  Forall (store_ok h') l' ∧ NoDup l' ∧
  (full → ∀ j, j = 0 ∨ j = 1 →
          List.filter (fun e : Z * Z => e.1 =? j) l' = map (pair j) (seqZ 0 (arr_get h' j))).
Proof.
  intros H0 H1 Hk Hall Hnd Hf Hnan h' l'.
  assert (Hh' : h' = [if k =? 0 then h0 + 1 else h0; if k =? 0 then h1 else h1 + 1]).
  { destruct Hk as [-> | ->]; reflexivity. }
  assert (Hget : arr_get h' k - 1 = arr_get [h0; h1] k).
  { rewrite Hh'. destruct Hk as [-> | ->]; cbv [arr_get]; simpl; lia. }
  assert (Hmono : Forall (store_ok h') l).
  { rewrite Hh'. eapply Forall_impl; [exact Hall|]. intros e He.
    apply (store_ok_mono h0 h1); [destruct (k =? 0); lia..|exact He]. }
  subst l'. rewrite Hget. destruct nanb; cbn [negb].
  - split; [exact Hmono|]. split; [exact Hnd|]. intros F. specialize (Hnan F). discriminate.
  - split; [|split].
    + apply Forall_app. split; [exact Hmono|]. constructor; [|constructor].
      rewrite Hh'. destruct Hk as [-> | ->]; split; cbv [arr_get]; simpl; (tauto || lia).
    + apply NoDup_app. split; [exact Hnd|]. split; [|apply NoDup_singleton].
      intros e He Hin. apply list_elem_of_singleton in Hin. subst e.
      exact (stores_fresh h0 h1 k l Hall Hk He).
    + intros F j Hj. rewrite List.filter_app, (Hf F j Hj). cbn [List.filter fst].
      rewrite Hh'. destruct Hk as [-> | ->], Hj as [-> | ->]; cbv [arr_get]; simpl.
      * rewrite seqZ_snoc, map_app by lia. reflexivity.
      * rewrite app_nil_r. reflexivity.
      * rewrite app_nil_r. reflexivity.
      * rewrite seqZ_snoc, map_app by lia. reflexivity.
Qed.

Lemma sample_step_stores (full : Prop) (args : args_t) (rec : bcf1_t) (i : Z) (s : agg_t) :
  (full → fmt_is_float1 (baf_fmt rec) = true ∧
          isnan (farr_get (fmt_data (baf_fmt rec)) i) = false) →
  stores_inv full s → stores_inv full (sample_step args rec s i).
Proof.
  intros Hfull Hinv. unfold sample_step.
  destruct ((arr_get (gt0_arr rec) i =? bcf_int16_missing)
            || (arr_get (gt0_arr rec) i =? bcf_int16_missing)); [exact Hinv|].
  destruct ((arr_get (gt0_arr rec) i =? arr_get (gt1_arr rec) i) || _); [exact Hinv|].
  destruct Hinv as ((Lh & Hh) & Lb & Hall & Hnd & Hf).
  unfold stores_inv, pair_ok, stores_of in *.
  cbn [ac_het ac_sex ac_het_sex ac_het_phase fmt_bal fmt_bal_phase ad_het baf_arr baf_stores].
  rewrite (pair_shape _ Lh) in Hall, Hf |- *.
  revert Hh Hall Hf.
  generalize (arr_get (ac_het_phase s) 0), (arr_get (ac_het_phase s) 1).
  intros h0 h1 Hh Hall Hf.
  match goal with |- context [isnan ?c] => set (cb := c) end.
  assert (Hc : full → isnan cb = false).
  { intros F. destruct (Hfull F) as [Hb Hn]. unfold cb. rewrite Hb. exact Hn. }
  clearbody cb. clear Hfull.
  assert (G0 : arr_get [h0; h1] 0 = h0) by reflexivity.
  assert (G1 : arr_get [h0; h1] 1 = h1) by reflexivity.
  split_phase rec i.
  all: change (Z.quot (1 - -1) 2) with 1; change (Z.quot (1 - 1) 2) with 0.
  all: cbn [andb orb negb]; change (0 <=? 1) with true; change (0 <=? 0) with true;
    change (0 <=? -1) with false; change (-1 =? -1) with true; change (1 =? 1) with true;
    cbn [andb orb negb].
  all: try (repeat split; try assumption; lia).
  all: try match goal with |- context [(?p =? -1) || (?p =? 1)] =>
             destruct (Z.eqb_spec p (-1)); [lia|]; destruct (Z.eqb_spec p 1); [lia|];
             cbn [andb orb negb]; change (0 <=? -1) with false; cbn [andb orb negb]
           end.
  all: try (repeat split; try assumption; lia).
  all: match goal with
       | |- context [arr_add [?a; ?b] ?k 1] =>
           destruct (stores_step full (baf_stores s) a b k (isnan cb)) as (A & B & C);
           try assumption; try lia; try tauto
       end.
  all: split; [split; [reflexivity|cbv [arr_get arr_add]; simpl; lia]|].
  all: split; [destruct (negb (isnan cb)); [rewrite length_insert|]; exact Lb|].
  all: split; [exact A|]. all: split; [exact B|exact C].
Qed.

Lemma agg_init_counts (b0 b1 : gmap Z float) : counts_inv 0 (agg_init b0 b1).
Proof. unfold counts_inv, pair_ok, pair_sum. cbv [arr_get]. simpl. repeat split; lia. Qed.

Lemma agg_init_stores (full : Prop) (b0 b1 : gmap Z float) : stores_inv full (agg_init b0 b1).
Proof.
  unfold stores_inv, pair_ok, stores_of. simpl.
  split; [cbv [arr_get]; simpl; repeat split; lia|]. split; [reflexivity|].
  split; [constructor|]. split; [constructor|].
  intros _ k [-> | ->]; reflexivity.
Qed.

Lemma aggregate_inv (full : Prop) (args : args_t) (rec : bcf1_t) (b0 b1 : gmap Z float) :
  0 ≤ args_nsmpl args → sign_ok rec →
  (full → fmt_is_float1 (baf_fmt rec) = true ∧
          ∀ i, 0 ≤ i < args_nsmpl args →
               isnan (farr_get (fmt_data (baf_fmt rec)) i) = false) →
  counts_inv (args_nsmpl args) (aggregate args rec b0 b1) ∧
  stores_inv full (aggregate args rec b0 b1).
Proof.
  intros Hn Hsign Hfull. unfold aggregate.
  pose proof (for_loop_inv (sample_step args rec)
                (fun i s => counts_inv i s ∧ stores_inv full s)
                0 (args_nsmpl args) (agg_init b0 b1) Hn) as H.
  rewrite Z.sub_0_r in H. apply H.
  - split; [apply agg_init_counts|apply agg_init_stores].
  - intros i t Hi [Hc Hs]. split.
    + apply sample_step_counts; assumption.
    + apply sample_step_stores; [|exact Hs].
      intros F. destruct (Hfull F) as [Hb Hnan]. split; [exact Hb|apply Hnan; lia].
Qed.

(** X1.  The counters the loop over the samples leaves, given the signs of
    [bcf_get_format_sign]: none is negative, the phased heterozygous samples
    are among the heterozygous ones, which are among the samples, and the
    samples counted by sign and phase are among those counted by sign and
    those counted by phase. *)
Theorem aggregate_counts_bounded (args : args_t) (rec : bcf1_t) (b0 b1 : gmap Z float) :
  0 ≤ args_nsmpl args → sign_ok rec →
  let s := aggregate args rec b0 b1 in
  (0 ≤ arr_get (ac_het_phase s) 0 ∧ 0 ≤ arr_get (ac_het_phase s) 1 ∧
   arr_get (ac_het_phase s) 0 + arr_get (ac_het_phase s) 1 ≤ ac_het s ∧
   ac_het s ≤ args_nsmpl args) ∧
  (0 ≤ arr_get (fmt_bal s) 0 ∧ 0 ≤ arr_get (fmt_bal s) 1 ∧
   arr_get (fmt_bal s) 0 + arr_get (fmt_bal s) 1 ≤ args_nsmpl args) ∧
  (0 ≤ arr_get (fmt_bal_phase s) 0 ∧ 0 ≤ arr_get (fmt_bal_phase s) 1 ∧
   arr_get (fmt_bal_phase s) 0 + arr_get (fmt_bal_phase s) 1
     ≤ arr_get (ac_het_phase s) 0 + arr_get (ac_het_phase s) 1 ∧
   arr_get (fmt_bal_phase s) 0 + arr_get (fmt_bal_phase s) 1
     ≤ arr_get (fmt_bal s) 0 + arr_get (fmt_bal s) 1) ∧
  (0 ≤ arr_get (ac_het_sex s) 0 ∧ 0 ≤ arr_get (ac_het_sex s) 1 ∧
   arr_get (ac_het_sex s) 0 + arr_get (ac_het_sex s) 1 ≤ ac_het s) ∧
  (0 ≤ arr_get (ac_sex s) 0 ∧ 0 ≤ arr_get (ac_sex s) 1 ∧
   0 ≤ arr_get (ac_sex s) 2 ∧ 0 ≤ arr_get (ac_sex s) 3 ∧
   arr_get (ac_sex s) 0 + arr_get (ac_sex s) 1 + arr_get (ac_sex s) 2 + arr_get (ac_sex s) 3
     + ac_het s ≤ args_nsmpl args).
Proof.
  intros Hn Hsign s.
  destruct (aggregate_inv False args rec b0 b1 Hn Hsign) as [Hc _]; [tauto|].
  fold s in Hc. unfold counts_inv, pair_ok, pair_sum in Hc.
  repeat split; try tauto; lia.
Qed.

Lemma sample_step_phase (args : args_t) (rec : bcf1_t) (i : Z) (s : agg_t) :
  phase_inv i s → phase_inv (i + 1) (sample_step args rec s i).
Proof.
  intros ((Lh & Hh) & H). unfold sample_step, phase_inv, pair_ok, pair_sum in *.
  destruct ((arr_get (gt0_arr rec) i =? bcf_int16_missing)
            || (arr_get (gt0_arr rec) i =? bcf_int16_missing)).
  { repeat split; try tauto; lia. }
  destruct ((arr_get (gt0_arr rec) i =? arr_get (gt1_arr rec) i) || _);
    cbn [ac_het_phase]; [repeat split; try tauto; lia|].
  rewrite (pair_shape _ Lh). revert Hh H.
  generalize (arr_get (ac_het_phase s) 0), (arr_get (ac_het_phase s) 1). intros h0 h1 Hh H.
  split_phase rec i.
  all: cbv [arr_get arr_add]; simpl; repeat split; lia.
Qed.

Lemma buf_cells_snoc (buf : gmap Z float) (h : Z) (v : float) :
  0 ≤ h → buf_cells (<[h := v]> buf) (h + 1) = buf_cells buf h ++ [v].
Proof.
  intros Hh. unfold buf_cells. rewrite seqZ_snoc, map_app by lia. simpl. f_equal.
  - apply map_ext_in. intros j Hj. apply list_elem_of_In, elem_of_seqZ in Hj.
    unfold rd. rewrite lookup_insert_ne by lia. reflexivity.
  - unfold rd. rewrite Z.add_0_l, lookup_insert_eq. reflexivity.
Qed.

Lemma bucket_samples_snoc (rec : bcf1_t) (k i : Z) :
  0 ≤ i →
  bucket_samples rec k (i + 1)
  = bucket_samples rec k i ++ (if phase_bucket rec i =? k then [i] else []).
Proof.
  intros Hi. unfold bucket_samples. rewrite seqZ_snoc, List.filter_app by lia.
  rewrite Z.add_0_l. simpl. destruct (phase_bucket rec i =? k); reflexivity.
Qed.

Lemma sample_step_bucket (full : Prop) (args : args_t) (rec : bcf1_t) (k i : Z) (s : agg_t) :
  0 ≤ i → k = 0 ∨ k = 1 →
  (full → fmt_is_float1 (baf_fmt rec) = true ∧
          isnan (farr_get (fmt_data (baf_fmt rec)) i) = false) →
  pair_ok (ac_het_phase s) → length (baf_arr s) = 2%nat →
  bucket_inv full rec k i s → bucket_inv full rec k (i + 1) (sample_step args rec s i).
Proof.
  intros Hi Hk Hfull (Lh & Hh) Lb (Hcnt & Hval). unfold bucket_inv.
  rewrite bucket_samples_snoc by exact Hi. unfold sample_step, phase_bucket.
  destruct ((arr_get (gt0_arr rec) i =? bcf_int16_missing)
            || (arr_get (gt0_arr rec) i =? bcf_int16_missing)).
  { replace (-1 =? k) with false by (destruct Hk as [-> | ->]; reflexivity).
    rewrite app_nil_r. split; assumption. }
  destruct ((arr_get (gt0_arr rec) i =? arr_get (gt1_arr rec) i) || _).
  { replace (-1 =? k) with false by (destruct Hk as [-> | ->]; reflexivity).
    rewrite app_nil_r. split; assumption. }
  cbn [ac_het ac_sex ac_het_sex ac_het_phase fmt_bal fmt_bal_phase ad_het baf_arr baf_stores].
  match goal with |- context [isnan ?c] => set (cb := c) end.
  assert (Hc : full → isnan cb = false ∧ cb = farr_get (fmt_data (baf_fmt rec)) i).
  { intros F. destruct (Hfull F) as [Hb Hn]. unfold cb. rewrite Hb. split; [exact Hn|reflexivity]. }
  clearbody cb. clear Hfull.
  destruct (baf_arr s) as [|b0 [|b1 [|b2 l]]]; try discriminate. clear Lb.
  revert Hcnt Hval. rewrite (pair_shape _ Lh). revert Hh.
  generalize (arr_get (ac_het_phase s) 0), (arr_get (ac_het_phase s) 1).
  intros h0 h1 Hh Hcnt Hval.
  split_phase rec i.
  all: change (Z.quot (1 - -1) 2) with 1; change (Z.quot (1 - 1) 2) with 0.
  all: cbn [andb orb negb]; change (0 <=? 1) with true; change (0 <=? 0) with true;
    change (0 <=? -1) with false; change (-1 =? -1) with true; change (1 =? 1) with true;
    cbn [andb orb negb].
  all: try match goal with |- context [(?p =? -1) || (?p =? 1)] =>
             destruct (Z.eqb_spec p (-1)); [lia|]; destruct (Z.eqb_spec p 1); [lia|];
             cbn [andb orb negb]; change (0 <=? -1) with false; cbn [andb orb negb]
           end.
  all: destruct Hk as [-> | ->].
  all: change (-1 =? 0) with false; change (-1 =? 1) with false; change (1 =? 0) with false;
    change (0 =? 1) with false; change (0 =? 0) with true; change (1 =? 1) with true;
    rewrite ?app_nil_r.
  all: try (split; assumption).
  all: cbv [arr_add arr_get] in *; simpl in Hcnt, Hval |- *.
  all: rewrite ?length_app, ?map_app; simpl.
  all: split; [lia|].
  all: intros F; destruct (Hc F) as [Hn ->]; rewrite Hn; simpl.
  all: try exact (Hval F).
  all: match goal with |- context [<[?h + 1 - 1 := _]> _] =>
         replace (h + 1 - 1) with h by lia end.
  all: rewrite buf_cells_snoc by lia; rewrite (Hval F); reflexivity.
Qed.

Lemma agg_init_bucket (full : Prop) (rec : bcf1_t) (k : Z) (b0 b1 : gmap Z float) :
  k = 0 ∨ k = 1 → bucket_inv full rec k 0 (agg_init b0 b1).
Proof. intros [-> | ->]; split; reflexivity. Qed.

Lemma aggregate_bucket (full : Prop) (args : args_t) (rec : bcf1_t) (k : Z)
      (b0 b1 : gmap Z float) :
  0 ≤ args_nsmpl args → k = 0 ∨ k = 1 →
  (full → fmt_is_float1 (baf_fmt rec) = true ∧
          ∀ i, 0 ≤ i < args_nsmpl args →
               isnan (farr_get (fmt_data (baf_fmt rec)) i) = false) →
  phase_inv (args_nsmpl args) (aggregate args rec b0 b1) ∧
  stores_inv full (aggregate args rec b0 b1) ∧
  bucket_inv full rec k (args_nsmpl args) (aggregate args rec b0 b1).
Proof.
  intros Hn Hk Hfull. unfold aggregate.
  pose proof (for_loop_inv (sample_step args rec)
                (fun i s => phase_inv i s ∧ stores_inv full s ∧ bucket_inv full rec k i s)
                0 (args_nsmpl args) (agg_init b0 b1) Hn) as H.
  rewrite Z.sub_0_r in H. apply H.
  - split; [|split; [apply agg_init_stores|apply agg_init_bucket, Hk]].
    unfold phase_inv, pair_ok, pair_sum. cbv [arr_get]. simpl. repeat split; lia.
  - intros i t Hi (Hp & Hs & Hb).
    assert (Hf : full → fmt_is_float1 (baf_fmt rec) = true ∧
                 isnan (farr_get (fmt_data (baf_fmt rec)) i) = false).
    { intros F. destruct (Hfull F) as [Hbaf Hnan]. split; [exact Hbaf|apply Hnan; lia]. }
    split; [apply sample_step_phase, Hp|]. split; [apply sample_step_stores; assumption|].
    apply sample_step_bucket; try assumption; try lia; [apply Hp|apply Hs].
Qed.

(** X2.  The stores of the loop over the samples into [args->baf_arr]: each goes
    to bucket 0 or 1, at a cell below the bucket's final count and below
    [nsmpl], the size of the two blocks, and no cell is stored twice. *)
Theorem aggregate_stores_in_bounds (args : args_t) (rec : bcf1_t) (b0 b1 : gmap Z float) :
  0 ≤ args_nsmpl args →
  let s := aggregate args rec b0 b1 in
  NoDup (baf_stores s) ∧
  ∀ k pos, (k, pos) ∈ baf_stores s →
           (k = 0 ∨ k = 1) ∧ 0 ≤ pos < arr_get (ac_het_phase s) k ∧ pos < args_nsmpl args.
Proof.
  intros Hn s.
  destruct (aggregate_bucket False args rec 0 b0 b1 Hn) as (Hp & Hs & _); [tauto..|].
  fold s in Hp, Hs. destruct Hs as (_ & _ & Hall & Hnd & _). split; [exact Hnd|].
  intros k pos Hin. rewrite Forall_forall in Hall. destruct (Hall _ Hin) as [Hk Hpos].
  cbn [fst snd] in Hk, Hpos. split; [exact Hk|]. split; [exact Hpos|].
  destruct Hp as ((_ & H0 & H1) & Hsum). unfold pair_sum in Hsum.
  destruct Hk as [-> | ->]; lia.
Qed.

(** X3.  The counts by phase are the numbers of samples of each bucket; and when
    the record has a BAF field of one float per sample with no NaN for the
    samples, the first cells of each buffer hold the BAF values of the
    bucket's samples, in the order of the samples. *)
Theorem aggregate_baf_values (args : args_t) (rec : bcf1_t) (b0 b1 : gmap Z float) :
  0 ≤ args_nsmpl args →
  let s := aggregate args rec b0 b1 in
  let n := args_nsmpl args in
  (arr_get (ac_het_phase s) 0 = Z.of_nat (length (bucket_samples rec 0 n)) ∧
   arr_get (ac_het_phase s) 1 = Z.of_nat (length (bucket_samples rec 1 n))) ∧
  (fmt_is_float1 (baf_fmt rec) = true →
   (∀ i, 0 ≤ i < n → isnan (farr_get (fmt_data (baf_fmt rec)) i) = false) →
   buf_cells (nth 0 (baf_arr s) ∅) (arr_get (ac_het_phase s) 0)
     = map (farr_get (fmt_data (baf_fmt rec))) (bucket_samples rec 0 n) ∧
   buf_cells (nth 1 (baf_arr s) ∅) (arr_get (ac_het_phase s) 1)
     = map (farr_get (fmt_data (baf_fmt rec))) (bucket_samples rec 1 n) ∧
   baf_placed s 0 = arr_get (ac_het_phase s) 0 ∧
   baf_placed s 1 = arr_get (ac_het_phase s) 1).
Proof.
  intros Hn s n.
  set (full := fmt_is_float1 (baf_fmt rec) = true ∧
               ∀ i, 0 ≤ i < n → isnan (farr_get (fmt_data (baf_fmt rec)) i) = false).
  destruct (aggregate_bucket full args rec 0 b0 b1 Hn) as (_ & Hs & Hc0 & Hv0);
    [tauto | exact (fun F => F) |].
  destruct (aggregate_bucket full args rec 1 b0 b1 Hn) as (_ & _ & Hc1 & Hv1);
    [tauto | exact (fun F => F) |].
  fold s n in Hs, Hc0, Hv0, Hc1, Hv1.
  split; [split; assumption|]. intros Hb Hnan.
  assert (F : full) by (split; assumption).
  split; [exact (Hv0 F)|]. split; [exact (Hv1 F)|].
  destruct Hs as (_ & _ & _ & _ & Hst). unfold baf_placed.
  pose proof (Hst F 0 (or_introl eq_refl)) as E0.
  pose proof (Hst F 1 (or_intror eq_refl)) as E1.
  unfold stores_of in E0, E1. rewrite E0, E1, !length_map, !length_seqZ.
  fold n in Hc0, Hc1. lia.
Qed.

Lemma sign_ok_rec0 (gt0 gt1 phase_arr : list Z) (baf lrr : option (list float)) :
  sign_ok (rec0 gt0 gt1 phase_arr baf lrr).
Proof. intros i. unfold arr_get. simpl. destruct (Z.to_nat i); tauto. Qed.

Lemma aggregate_counts_bounded_witness :
  let s := aggregate (args0 4)
             (rec0 [0; 0; 1; 1] [1; 1; 0; 0] [1; 1; -1; -1]
                   (Some [0.5625; 0.5625; 0.4375; 0.4375]%float) None) ∅ ∅ in
  ac_het s = 4 ∧ ac_het_phase s = [2; 2] ∧
  arr_get (ac_het_phase s) 0 + arr_get (ac_het_phase s) 1 ≤ ac_het s ∧ ac_het s ≤ 4.
Proof.
  intros s. split; [reflexivity|]. split; [reflexivity|].
  pose proof (aggregate_counts_bounded (args0 4)
                (rec0 [0; 0; 1; 1] [1; 1; 0; 0] [1; 1; -1; -1]
                      (Some [0.5625; 0.5625; 0.4375; 0.4375]%float) None) ∅ ∅
                ltac:(simpl; lia) (sign_ok_rec0 _ _ _ _ _)) as H.
  cbv zeta in H. fold s in H. split; apply H.
Defined.

Lemma aggregate_stores_in_bounds_witness :
  let s := aggregate (args0 4)
             (rec0 [0; 0; 1; 1] [1; 1; 0; 0] [1; 1; -1; -1]
                   (Some [0.5625; 0.5625; 0.4375; 0.4375]%float) None) ∅ ∅ in
  baf_stores s = [(0, 0); (0, 1); (1, 0); (1, 1)] ∧ NoDup (baf_stores s).
Proof.
  intros s. split; [reflexivity|].
  apply (aggregate_stores_in_bounds (args0 4)
           (rec0 [0; 0; 1; 1] [1; 1; 0; 0] [1; 1; -1; -1]
                 (Some [0.5625; 0.5625; 0.4375; 0.4375]%float) None) ∅ ∅).
  simpl. lia.
Defined.

Lemma aggregate_baf_values_witness :
  let r := rec0 [0; 1; 0; 1] [1; 0; 1; 0] [1; -1; 1; -1]
                (Some [0.5625; 0.4375; 0.625; 0.375]%float) None in
  let s := aggregate (args0 4) r ∅ ∅ in
  bucket_samples r 0 4 = [0; 2] ∧ bucket_samples r 1 4 = [1; 3] ∧
  buf_cells (nth 0 (baf_arr s) ∅) (arr_get (ac_het_phase s) 0) = [0.5625; 0.625]%float ∧
  buf_cells (nth 1 (baf_arr s) ∅) (arr_get (ac_het_phase s) 1) = [0.4375; 0.375]%float.
Proof.
  intros r s. split; [reflexivity|]. split; [reflexivity|].
  destruct (aggregate_baf_values (args0 4) r ∅ ∅ ltac:(simpl; lia)) as [_ H].
  destruct H as (H0 & H1 & _); [reflexivity| |].
  - intros i Hi. simpl in Hi.
    assert (E : i = 0 ∨ i = 1 ∨ i = 2 ∨ i = 3) by lia.
    destruct E as [-> | [-> | [-> | ->]]]; reflexivity.
  - fold s in H0, H1. split; [rewrite H0|rewrite H1]; reflexivity.
Defined.

(** ** [bcf_get_format_sign] *)

Lemma branch_length (ve ms : Z) (p arr : list Z) (n : Z) :
  length (branch ve ms p arr n) = length arr.
Proof.
  unfold branch. generalize (seqZ 0 n). intros l. revert arr.
  induction l as [|i l IH]; intros arr; simpl; [reflexivity|].
  rewrite IH, length_insert. reflexivity.
Qed.

Lemma branch_spec (ve ms : Z) (p arr : list Z) (n : Z) :
  0 ≤ n ≤ Z.of_nat (length arr) →
  ∀ i, 0 ≤ i →
       arr_get (branch ve ms p arr n) i
       = if i <? n then branch_sign ve ms (arr_get p i) else arr_get arr i.
Proof.
  intros Hn. unfold branch.
  pose proof (for_loop_inv
                (fun arr i => <[Z.to_nat i := branch_sign ve ms (arr_get p i)]> arr)
                (fun m a => length a = length arr ∧
                            ∀ i, 0 ≤ i → arr_get a i
                                 = if i <? m then branch_sign ve ms (arr_get p i)
                                   else arr_get arr i)
                0 n arr ltac:(lia)) as H.
  rewrite Z.sub_0_r in H. apply H.
  - split; [reflexivity|]. intros i Hi. destruct (Z.ltb_spec i 0); [lia|reflexivity].
  - intros m a Hm [Hlen Ha]. split; [rewrite length_insert; exact Hlen|].
    intros i Hi. unfold arr_get at 1. rewrite nth_lookup.
    destruct (Z.eq_dec i m) as [->|Hne].
    + rewrite list_lookup_insert_eq by lia. simpl.
      destruct (Z.ltb_spec m (m + 1)); [reflexivity|lia].
    + rewrite list_lookup_insert_ne by lia. rewrite <- nth_lookup.
      fold (arr_get a i). rewrite (Ha i Hi).
      destruct (Z.ltb_spec i m), (Z.ltb_spec i (m + 1)); try reflexivity; lia.
Qed.

Lemma bcf_get_format_sign_cells (f : bcf_fmt_raw) (arr : list Z) (nsmpl : Z) :
  raw_n f = 1 → raw_type f ≠ BCF_BT_CHAR → 0 ≤ nsmpl ≤ Z.of_nat (length arr) →
  ∃ out, bcf_get_format_sign (Some f) arr nsmpl = Some (1, out) ∧
         length out = length arr ∧
         (∀ i, 0 ≤ i < nsmpl →
               arr_get out i
               = if (arr_get (raw_p f) i =? (markers (raw_type f)).1)
                    || (arr_get (raw_p f) i =? (markers (raw_type f)).2)
                 then bcf_int8_missing else Z.sgn (arr_get (raw_p f) i)) ∧
         (∀ i, nsmpl ≤ i → arr_get out i = arr_get arr i).
Proof.
  intros Hn Hty Hlen. unfold bcf_get_format_sign. rewrite Hn. simpl.
  assert (Hsgn : ∀ ve ms v, branch_sign ve ms v
                            = if (v =? ve) || (v =? ms) then bcf_int8_missing else Z.sgn v).
  { intros ve ms v. unfold branch_sign. destruct ((v =? ve) || (v =? ms)); [reflexivity|].
    destruct (Z.eqb_spec v 0) as [->|?]; [reflexivity|].
    destruct (Z.ltb_spec 0 v); lia. }
  destruct (raw_type f); try contradiction; eexists; (split; [reflexivity|]).
  all: split; [apply branch_length|].
  all: split; intros i Hi; rewrite branch_spec by lia.
  all: destruct (Z.ltb_spec i nsmpl); try lia; try reflexivity.
  all: apply Hsgn.
Qed.

(** X4.  [bcf_get_format_sign] on a field of one value per sample and of a
    numeric type returns 1 and fills [fmt_sign_arr[0..nsmpl)]: a marker of
    the type (missing or end of vector) gives [bcf_int8_missing], any other
    element its sign, -1, 0 or 1; the cells from [nsmpl] on keep their
    contents. *)
Theorem bcf_get_format_sign_spec (f : bcf_fmt_raw) (arr : list Z) (nsmpl : Z) :
  raw_n f = 1 → raw_type f ≠ BCF_BT_CHAR → 0 ≤ nsmpl ≤ Z.of_nat (length arr) →
  ∃ out, bcf_get_format_sign (Some f) arr nsmpl = Some (1, out) ∧
         length out = length arr ∧
         (∀ i, 0 ≤ i < nsmpl →
               arr_get out i
               = if (arr_get (raw_p f) i =? (markers (raw_type f)).1)
                    || (arr_get (raw_p f) i =? (markers (raw_type f)).2)
                 then bcf_int8_missing else Z.sgn (arr_get (raw_p f) i)) ∧
         (∀ i, nsmpl ≤ i → arr_get out i = arr_get arr i).
Proof. exact (bcf_get_format_sign_cells f arr nsmpl). Qed.

Lemma bcf_get_format_sign_spec_witness :
  bcf_get_format_sign
    (Some {| raw_n := 1; raw_type := BCF_BT_INT8; raw_p := [5; -3; 0; -128; -127] |})
    [9; 9; 9; 9; 9; 9] 5
  = Some (1, [1; -1; 0; -128; -128; 9]) ∧
  ∃ out,
    bcf_get_format_sign
      (Some {| raw_n := 1; raw_type := BCF_BT_INT8; raw_p := [5; -3; 0; -128; -127] |})
      [9; 9; 9; 9; 9; 9] 5
    = Some (1, out) ∧
    length out = 6%nat ∧ arr_get out 5 = 9.
Proof.
  split; [reflexivity|].
  destruct (bcf_get_format_sign_spec
              {| raw_n := 1; raw_type := BCF_BT_INT8; raw_p := [5; -3; 0; -128; -127] |}
              [9; 9; 9; 9; 9; 9] 5 eq_refl ltac:(discriminate) ltac:(simpl; lia))
    as (out & E & L & _ & H).
  exists out. split; [exact E|]. split; [exact L|]. apply (H 5). lia.
Defined.

(** X5.  What [bcf_get_format_sign] leaves in a block of [nsmpl] cells is what
    the loop of [process] over the samples relies on: every sign is missing,
    -1, 0 or 1, so that [idx_fmt_sign = (1 - sign) / 2] is 0 for a positive
    value and 1 for a negative one, inside [fmt_bal[0..1]]. *)
Theorem bcf_get_format_sign_ok (f : bcf_fmt_raw) (arr out : list Z) (rec : bcf1_t) :
  raw_n f = 1 →
  bcf_get_format_sign (Some f) arr (Z.of_nat (length arr)) = Some (1, out) →
  fmt_sign_arr rec = out →
  sign_ok rec ∧
  ∀ i, arr_get out i ≠ bcf_int8_missing → arr_get out i ≠ 0 →
       Z.quot (1 - arr_get out i) 2 = 0 ∨ Z.quot (1 - arr_get out i) 2 = 1.
Proof.
  intros Hn E Hrec.
  assert (Hty : raw_type f ≠ BCF_BT_CHAR).
  { intros Hc. unfold bcf_get_format_sign in E. rewrite Hn, Hc in E. discriminate. }
  destruct (bcf_get_format_sign_cells f arr (Z.of_nat (length arr)) Hn Hty ltac:(lia))
    as (out' & E' & Hlen & Hin & _).
  rewrite E in E'. injection E' as <-.
  assert (Hall : ∀ i, arr_get out i = bcf_int8_missing ∨ arr_get out i = -1 ∨
                      arr_get out i = 0 ∨ arr_get out i = 1).
  { intros i. destruct (Z_lt_dec i 0) as [Hneg|Hpos].
    - replace (arr_get out i) with (arr_get out 0)
        by (unfold arr_get; f_equal; lia).
      destruct (Z_lt_dec 0 (Z.of_nat (length arr))) as [Hl|Hl].
      + rewrite Hin by lia. destruct (_ || _); [tauto|]. lia.
      + destruct out; [|simpl in Hlen; lia]. cbv. tauto.
    - destruct (Z_lt_dec i (Z.of_nat (length arr))) as [Hl|Hl].
      + rewrite Hin by lia. destruct (_ || _); [tauto|]. lia.
      + unfold arr_get. rewrite nth_overflow by lia. tauto. }
  split; [intros i; rewrite Hrec; apply Hall|].
  intros i Hm H0. unfold bcf_int8_missing in *.
  destruct (Hall i) as [H|[H|[H|H]]]; rewrite H in *; try contradiction; [right|left];
    reflexivity.
Qed.

Lemma bcf_get_format_sign_ok_witness :
  sign_ok {| n_allele := 2; fa := None; gt_phase := false; gt_phase_arr := [];
             gt_alleles := true; gt0_arr := [0; 0; 0]; gt1_arr := [1; 1; 1];
             fmt_sign := true; fmt_sign_arr := [1; -1; -128];
             ad := false; ad0_arr := []; ad1_arr := [];
             baf_fmt := None; lrr_fmt := None; allele_a := 0; allele_b := 1 |}.
Proof.
  apply (bcf_get_format_sign_ok
           {| raw_n := 1; raw_type := BCF_BT_INT16; raw_p := [300; -2; -32768] |}
           [0; 0; 0] [1; -1; -128]); reflexivity.
Defined.

(** ** [sample_mean_var] *)

Lemma smv_loop_values (x : list float) (n : Z) :
  0 ≤ n ≤ Z.of_nat (length x) →
  fold_left (smv_step x) (seqZ 0 n) (0%float, 0%float, 0)
  = fold_left smv_add (not_nan_values x n) (0%float, 0%float, 0).
Proof.
  intros Hn.
  pose proof (for_loop_inv (smv_step x)
                (fun i st => st = fold_left smv_add (not_nan_values x i) (0%float, 0%float, 0))
                0 n (0%float, 0%float, 0) ltac:(lia)) as H.
  rewrite Z.sub_0_r in H. apply H; [reflexivity|].
  intros i st Hi ->. unfold not_nan_values.
  replace (Z.to_nat (i + 1)) with (S (Z.to_nat i)) by lia.
  assert (Hx : x !! Z.to_nat i = Some (farr_get x i)).
  { unfold farr_get. rewrite nth_lookup.
    destruct (lookup_lt_is_Some_2 x (Z.to_nat i) ltac:(lia)) as [v Hv].
    rewrite Hv. reflexivity. }
  rewrite (take_S_r _ _ _ Hx), List.filter_app, fold_left_app. simpl.
  generalize (fold_left smv_add
                (List.filter (fun v => negb (isnan v)) (take (Z.to_nat i) x))
                (0%float, 0%float, 0)).
  intros [[xm xss] j]. unfold smv_step.
  destruct (isnan (farr_get x i)); reflexivity.
Qed.

Lemma smv_add_count (l : list float) (xm xss : float) (j : Z) :
  (fold_left smv_add l (xm, xss, j)).2 = j + Z.of_nat (length l).
Proof.
  revert xm xss j. induction l as [|v l IH]; intros xm xss j; simpl; [lia|].
  rewrite IH. lia.
Qed.

Lemma not_nan_values_idem (x : list float) (n : Z) :
  not_nan_values (not_nan_values x n) (Z.of_nat (length (not_nan_values x n)))
  = not_nan_values x n.
Proof.
  unfold not_nan_values at 1. rewrite Nat2Z.id, firstn_all.
  unfold not_nan_values. generalize (take (Z.to_nat n) x). intros l.
  induction l as [|v l IH]; simpl; [reflexivity|].
  destruct (isnan v) eqn:E; simpl; [exact IH|]. rewrite E. simpl. f_equal. exact IH.
Qed.

(** X6.  [sample_mean_var] skips the NaN values: with [m] values of [x[0..n)]
    that are not NaN, it returns -1 exactly when [m <= 1], and otherwise
    leaves in [*xm] and [*xss] what it leaves for these [m] values alone. *)
Theorem sample_mean_var_skips_nan (x : list float) (n : Z) (xm0 xss0 : float) :
  0 ≤ n ≤ Z.of_nat (length x) →
  let y := not_nan_values x n in
  let m := Z.of_nat (length y) in
  (sample_mean_var x n xm0 xss0).1.1 = (if m <=? 1 then -1 else 0) ∧
  (1 < m → sample_mean_var x n xm0 xss0 = sample_mean_var y m xm0 xss0).
Proof.
  intros Hn y m.
  assert (Hm : m ≤ n).
  { unfold m, y, not_nan_values.
    pose proof (List.filter_length_le (fun v => negb (isnan v)) (take (Z.to_nat n) x)).
    rewrite length_take in H. lia. }
  assert (Hx : ∀ a b, 2 ≤ n →
            sample_mean_var x n a b =
            let '(xm, xss, j) := fold_left smv_add y (0%float, 0%float, 0) in
            if j <=? 1 then (-1, xm, xss)
            else (0, (xm / d_of_int j)%float,
                  ((xss - sq (xm / d_of_int j) * d_of_int j) / d_of_int (j - 1))%float)).
  { intros a b H2. unfold sample_mean_var.
    destruct (Z.ltb_spec n 2); [lia|]. rewrite smv_loop_values by lia. reflexivity. }
  pose proof (smv_add_count y 0%float 0%float 0) as Hj. fold m in Hj.
  split.
  - destruct (Z.leb_spec m 1) as [Hle|Hgt].
    + destruct (Z_lt_dec n 2) as [Hn2|Hn2].
      * unfold sample_mean_var. destruct (Z.ltb_spec n 2); [reflexivity|lia].
      * rewrite Hx by lia. destruct (fold_left smv_add y _) as [[xm xss] j].
        simpl in Hj. destruct (Z.leb_spec j 1); [reflexivity|lia].
    + rewrite Hx by lia. destruct (fold_left smv_add y _) as [[xm xss] j].
      simpl in Hj. destruct (Z.leb_spec j 1); [lia|reflexivity].
  - intros Hgt. rewrite Hx by lia. unfold sample_mean_var.
    destruct (Z.ltb_spec m 2); [lia|].
    rewrite smv_loop_values by lia. unfold m, y. rewrite not_nan_values_idem. reflexivity.
Qed.

Lemma sample_mean_var_skips_nan_witness :
  sample_mean_var [1; nan; 3; nan]%float 4 0 0 = sample_mean_var [1; 3]%float 2 0 0 ∧
  sample_mean_var [1; nan; 3; nan]%float 4 0 0 = (0, 2%float, 2%float).
Proof.
  split; [|vm_compute; reflexivity].
  refine (proj2 (sample_mean_var_skips_nan [1; nan; 3; nan]%float 4 0 0 _) _);
    simpl; lia.
Defined.

(** ** [mann_whitney_u]: the statistic [U] *)

Lemma u_twice_app {V : Type} `{EqDecision V} (vlt : V → V → bool) (l k b : list V) :
  u_twice vlt (l ++ k) b = u_twice vlt l b + u_twice vlt k b.
Proof. unfold u_twice. rewrite map_app. apply sumZ_app. Qed.

Lemma u_twice_replicate {V : Type} `{EqDecision V} (vlt : V → V → bool)
      (c : nat) (x : V) (b : list V) :
  u_twice vlt (replicate c x) b = Z.of_nat c * (2 * below vlt b x + occurrences x b).
Proof.
  unfold u_twice. induction c as [|c IH]; [reflexivity|].
  cbn [replicate map sumZ fold_right]. fold (sumZ (map (fun x0 => 2 * below vlt b x0 + occurrences x0 b) (replicate c x))).
  rewrite IH. lia.
Qed.

Lemma u_twice_perm {V : Type} `{EqDecision V} (vlt : V → V → bool) (a a' b b' : list V) :
  Permutation a a' → Permutation b b' → u_twice vlt a b = u_twice vlt a' b'.
Proof.
  intros Ha Hb. unfold u_twice.
  rewrite (sumZ_perm _ _ (Permutation_map _ Ha)). f_equal. apply map_ext. intros x.
  rewrite (occurrences_perm x b b' Hb). unfold below.
  assert (Hf : Permutation (List.filter (fun y => vlt y x) b)
                           (List.filter (fun y => vlt y x) b')).
  { clear -Hb. induction Hb as [|y l k Hp IH|y z l|l k m H1 IH1 H2 IH2]; simpl.
    - reflexivity.
    - destruct (vlt y x); [constructor|]; exact IH.
    - destruct (vlt y x), (vlt z x); try reflexivity. constructor.
    - etransitivity; eassumption. }
  rewrite (Permutation_length Hf). reflexivity.
Qed.

Section mwu_pairs_facts.
Context {V : Type} `{EqDecision V} (vlt veq : V → V → bool).
Hypothesis veq_spec : ∀ x y, veq x y = true ↔ x = y.
Hypothesis vlt_irrefl : ∀ x, vlt x x = false.
Hypothesis vlt_trans : ∀ x y z, vlt x y = true → vlt y z = true → vlt x z = true.
Hypothesis vlt_total : ∀ x y, vlt x y = true ∨ x = y ∨ vlt y x = true.

Lemma filter_all (f : V → bool) (l : list V) :
  Forall (fun z => f z = true) l → List.filter f l = l.
Proof. induction 1 as [|x l Hx Hl IH]; simpl; [reflexivity|]. rewrite Hx, IH. reflexivity. Qed.

Lemma filter_none (f : V → bool) (l : list V) :
  Forall (fun z => f z = false) l → List.filter f l = [].
Proof. induction 1 as [|x l Hx Hl IH]; simpl; [reflexivity|]. rewrite Hx. exact IH. Qed.

(** On a sorted array split at [j] around the run of [curr], the cells
    below [curr] are the first [j]. *)
Lemma below_is_index (sb : list V) (curr : V) (j c : nat) :
  (j ≤ length sb)%nat →
  Forall (fun z => vlt z curr = true) (take j sb) →
  drop j sb = replicate c curr ++ drop (j + c) sb →
  Forall (fun z => vlt curr z = true) (drop (j + c) sb) →
  below vlt sb curr = Z.of_nat j.
Proof.
  intros Hj Hbelow Hrun Habove. unfold below.
  rewrite <- (take_drop j sb), Hrun, !List.filter_app, !length_app.
  rewrite (filter_all _ _ Hbelow), length_take.
  rewrite (filter_none (fun y => vlt y curr) (replicate c curr)).
  - rewrite (filter_none (fun y => vlt y curr) (drop (j + c) sb)).
    + simpl. lia.
    + eapply Forall_impl; [exact Habove|]. intros z Hz.
      apply (vlt_asym vlt vlt_irrefl vlt_trans), Hz.
  - apply Forall_forall. intros z Hz. apply elem_of_replicate_inv in Hz. subst z.
    apply vlt_irrefl.
Qed.

(** The walk from [(i, j)] adds to [U], for every cell of [a] that remains,
    the number of cells of [b] below it and half the number equal to it. *)
Lemma mwu_walk_pairs (sa sb : list V) :
  StronglySorted (vle vlt) sa → StronglySorted (vle vlt) sb →
  ∀ fuel i j U ties,
    (i ≤ length sa)%nat → (j ≤ length sb)%nat →
    ((length sa - i) + (length sb - j) < fuel)%nat →
    (∀ x y, x ∈ take i sa ++ take j sb → y ∈ drop i sa ++ drop j sb → vlt x y = true) →
    ∃ U' ties', mwu_walk vlt veq fuel sa sb i j U ties = Some (U', ties') ∧
                (U' == U + inject_Z (u_twice vlt (drop i sa) sb) * (1 # 2))%Q.
Proof.
  intros Hsa Hsb fuel. induction fuel as [|fuel IH]; intros i j U ties Hi Hj Hfuel Hsplit;
    [lia|].
  cbn [mwu_walk].
  destruct ((i <? length sa)%nat || (j <? length sb)%nat) eqn:Hcond.
  - assert (Hlt : (i < length sa ∨ j < length sb)%nat).
    { apply orb_prop in Hcond as [H1|H1]; apply Nat.ltb_lt in H1; lia. }
    destruct (mwu_curr_spec vlt vlt_irrefl vlt_trans vlt_total sa sb i j Hsa Hsb Hlt Hj)
      as (curr & -> & Hin & Hga & Hgb).
    destruct (count_run_spec vlt veq veq_spec vlt_trans vlt_total sa curr Hsa
                (length sa) i 0%nat Hi ltac:(lia) Hga) as (ca & -> & Hda & Haa & Hia).
    destruct (count_run_spec vlt veq veq_spec vlt_trans vlt_total sb curr Hsb
                (length sb) j 0%nat Hj ltac:(lia) Hgb) as (cb & -> & Hdb & Hab & Hjb).
    cbn [Nat.add].
    assert (Hbelow : Forall (fun z => vlt z curr = true) (take i sa ++ take j sb)).
    { apply Forall_forall. intros z Hz. apply Hsplit; assumption. }
    apply Forall_app in Hbelow as [Hba Hbb].
    pose proof (run_is_all vlt vlt_irrefl sb curr j cb Hbb Hdb Hab) as Hob.
    pose proof (below_is_index sb curr j cb Hj Hbb Hdb Hab) as Hidx.
    assert (Hprog : (1 ≤ ca + cb)%nat).
    { rewrite Hda, Hdb in Hin. rewrite !elem_of_app in Hin.
      destruct Hin as [[Hr|Hr]|[Hr|Hr]].
      - destruct ca; [inversion Hr | lia].
      - exfalso. exact (above_not_elem vlt vlt_irrefl _ _ Haa Hr).
      - destruct cb; [inversion Hr | lia].
      - exfalso. exact (above_not_elem vlt vlt_irrefl _ _ Hab Hr). }
    edestruct (IH (i + ca)%nat (j + cb)%nat) as (U' & ties' & -> & HU);
      [exact Hia | exact Hjb | lia
      | exact (split_after_run vlt sa sb curr i j ca cb Hsplit Hda Hdb Haa Hab) |].
    exists U', ties'. split; [reflexivity|].
    rewrite HU, Hda, u_twice_app, u_twice_replicate, Hob, Hidx.
    rewrite Nat2Z.inj_add.
    repeat (rewrite inject_Z_plus || rewrite inject_Z_mult).
    change (inject_Z 2) with (2 # 1)%Q. ring.
  - apply orb_false_elim in Hcond as [H1 H2]. apply Nat.ltb_ge in H1, H2.
    rewrite !drop_ge by lia. exists U, ties. split; [reflexivity|].
    unfold u_twice. simpl. ring.
Qed.

Lemma mwu_stats_pairs (a b : list V) :
  ∃ U ties, mwu_stats vlt veq a b = Some (U, ties) ∧
            (U == inject_Z (u_twice vlt a b) * (1 # 2))%Q.
Proof.
  unfold mwu_stats.
  pose proof (qsort_perm vlt a) as Hpa. pose proof (qsort_perm vlt b) as Hpb.
  destruct (mwu_walk_pairs (qsort vlt a) (qsort vlt b)
              (qsort_sorted vlt vlt_irrefl vlt_trans a)
              (qsort_sorted vlt vlt_irrefl vlt_trans b)
              (length a + length b + 1) 0 0 0%Q 0) as (U & ties & HU & HQ).
  - lia.
  - lia.
  - rewrite (Permutation_length Hpa), (Permutation_length Hpb). lia.
  - intros x y Hx. simpl in Hx. inversion Hx.
  - exists U, ties. split; [exact HU|]. rewrite HQ, drop_0.
    rewrite (u_twice_perm vlt _ _ _ _ Hpa Hpb). ring.
Qed.


Lemma pair_weight (x y : V) :
  2 * Z.b2z (vlt y x) + Z.b2z (bool_decide (y = x))
  + 2 * Z.b2z (vlt x y) + Z.b2z (bool_decide (x = y)) = 2.
Proof.
  destruct (vlt_total x y) as [Hxy|[->|Hyx]].
  - rewrite Hxy, (vlt_asym vlt vlt_irrefl vlt_trans x y Hxy).
    rewrite !bool_decide_eq_false_2; [reflexivity| |]; intros ->;
      rewrite vlt_irrefl in Hxy; discriminate.
  - rewrite vlt_irrefl, !bool_decide_eq_true_2 by reflexivity. reflexivity.
  - rewrite Hyx, (vlt_asym vlt vlt_irrefl vlt_trans y x Hyx).
    rewrite !bool_decide_eq_false_2; [reflexivity| |]; intros ->;
      rewrite vlt_irrefl in Hyx; discriminate.
Qed.

Lemma below_cons (x y : V) (l : list V) :
  below vlt (y :: l) x = Z.b2z (vlt y x) + below vlt l x.
Proof. unfold below. simpl. destruct (vlt y x); simpl; lia. Qed.

Lemma occurrences_cons (x y : V) (l : list V) :
  occurrences x (y :: l) = Z.b2z (bool_decide (y = x)) + occurrences x l.
Proof. unfold occurrences. simpl. destruct (bool_decide (y = x)); simpl; lia. Qed.

Lemma u_twice_cons_r (x : V) (a b : list V) :
  u_twice vlt b (x :: a)
  = u_twice vlt b a
    + sumZ (map (fun y => 2 * Z.b2z (vlt x y) + Z.b2z (bool_decide (x = y))) b).
Proof.
  unfold u_twice. induction b as [|y b IH]; [reflexivity|].
  cbn [map sumZ fold_right]. fold (sumZ (map (fun x0 => 2 * below vlt (x :: a) x0 + occurrences x0 (x :: a)) b)).
  fold (sumZ (map (fun x0 => 2 * below vlt a x0 + occurrences x0 a) b)).
  fold (sumZ (map (fun y0 => 2 * Z.b2z (vlt x y0) + Z.b2z (bool_decide (x = y0))) b)).
  rewrite IH, below_cons, occurrences_cons. lia.
Qed.

Lemma pairs_of_one (x : V) (b : list V) :
  2 * below vlt b x + occurrences x b
  + sumZ (map (fun y => 2 * Z.b2z (vlt x y) + Z.b2z (bool_decide (x = y))) b)
  = 2 * Z.of_nat (length b).
Proof.
  induction b as [|y b IH]; [reflexivity|].
  cbn [map sumZ fold_right length].
  fold (sumZ (map (fun y0 => 2 * Z.b2z (vlt x y0) + Z.b2z (bool_decide (x = y0))) b)).
  rewrite below_cons, occurrences_cons. pose proof (pair_weight x y). lia.
Qed.

Lemma u_twice_complement (a b : list V) :
  u_twice vlt a b + u_twice vlt b a = 2 * (Z.of_nat (length a) * Z.of_nat (length b)).
Proof.
  induction a as [|x a IH].
  - unfold u_twice. simpl. induction b as [|y b IHb]; [reflexivity|].
    cbn [map sumZ fold_right]. fold (sumZ (map (fun x => 2 * below vlt [] x + occurrences x []) b)).
    unfold below at 1, occurrences at 1. simpl. lia.
  - rewrite u_twice_cons_r. unfold u_twice at 1. cbn [map sumZ fold_right length].
    fold (sumZ (map (fun x0 => 2 * below vlt b x0 + occurrences x0 b) a)).
    fold (u_twice vlt a b). pose proof (pairs_of_one x b). lia.
Qed.

End mwu_pairs_facts.

Lemma Zltb_trans (x y z : Z) : (x <? y) = true → (y <? z) = true → (x <? z) = true.
Proof. intros Hxy Hyz. apply Z.ltb_lt in Hxy, Hyz. apply Z.ltb_lt. lia. Qed.

Lemma Zltb_total (x y : Z) : (x <? y) = true ∨ x = y ∨ (y <? x) = true.
Proof.
  destruct (Z.lt_trichotomy x y) as [Hlt|[Heq|Hgt]];
    [left; apply Z.ltb_lt, Hlt | right; left; exact Heq | right; right; apply Z.ltb_lt, Hgt].
Qed.



(** ** [beta_binom_update]: the values of the caches *)

Lemma cells_follow_insert (next : float → Z → float) (lo k : Z) (a : gmap Z float) :
  lo ≤ k → cells_follow next lo k a →
  cells_follow next lo (k + 1) (<[k + 1 := next (rd a k) (k + 1)]> a).
Proof.
  intros Hk Ha i Hi. destruct (Z.eq_dec i (k + 1)) as [->|Hne].
  - rewrite lookup_insert_eq. unfold rd. rewrite lookup_insert_ne by lia.
    replace (k + 1 - 1) with k by lia. reflexivity.
  - unfold rd. rewrite !lookup_insert_ne by lia. apply Ha. lia.
Qed.

Lemma cells_follow_frame (next : float → Z → float) (lo hi : Z) (a b : gmap Z float) :
  (∀ i, lo ≤ i ≤ hi → b !! i = a !! i) → cells_follow next lo hi a → cells_follow next lo hi b.
Proof.
  intros Hab Ha i Hi. unfold rd. rewrite !Hab by lia. apply Ha. exact Hi.
Qed.

Lemma bb_loop1_values (fa fb : float → Z → float) (body : bb_st → bb_st) (N : Z)
      (self : beta_binom_t) (w0 : list (bb_cache * Z)) :
  (∀ s w, body (s, w) =
          (bb_store1 s (bb_n1 s + 1)
             (fa (rd (log_gamma_alpha s) (bb_n1 s)) (bb_n1 s + 1))
             (fb (rd (log_gamma_beta s) (bb_n1 s)) (bb_n1 s + 1)),
           w ++ [(Alpha, bb_n1 s + 1); (Beta, bb_n1 s + 1)])) →
  let r := (while_loop (Z.to_nat (N - bb_n1 self)) (fun st => bb_n1 st.1 <? N) body
              (self, w0)).1 in
  cells_follow fa (bb_n1 self) N (log_gamma_alpha r) ∧
  cells_follow fb (bb_n1 self) N (log_gamma_beta r).
Proof.
  intros Hbody r.
  pose proof (while_loop_count (fun st : bb_st => bb_n1 st.1) body N
                (fun k st => cells_follow fa (bb_n1 self) k (log_gamma_alpha st.1) ∧
                             cells_follow fb (bb_n1 self) k (log_gamma_beta st.1) ∧
                             bb_n1 self ≤ k)) as H.
  destruct (H ltac:(intros [s w]; rewrite Hbody; reflexivity)
              ltac:(intros [s w] Hlt (Ha & Hb & Hle); rewrite Hbody; simpl in *;
                    split; [apply cells_follow_insert; assumption|];
                    split; [apply cells_follow_insert; assumption|lia])
              (self, w0)
              ltac:(simpl; split; [intros i Hi; lia|split; [intros i Hi; lia|lia]]))
    as [(Ha & Hb & _) _].
  simpl in Ha, Hb. fold r in Ha, Hb.
  split; intros i Hi; [apply Ha|apply Hb]; lia.
Qed.

Lemma bb_loop2_values (f : float → Z → float) (body : bb_st → bb_st) (N : Z)
      (self : beta_binom_t) (w0 : list (bb_cache * Z)) :
  (∀ s w, body (s, w) =
          (bb_store2 s (bb_n2 s + 1)
             (f (rd (log_gamma_alpha_beta s) (bb_n2 s)) (bb_n2 s + 1)),
           w ++ [(AlphaBeta, bb_n2 s + 1)])) →
  let r := (while_loop (Z.to_nat (N - bb_n2 self)) (fun st => bb_n2 st.1 <? N) body
              (self, w0)).1 in
  cells_follow f (bb_n2 self) N (log_gamma_alpha_beta r).
Proof.
  intros Hbody r.
  pose proof (while_loop_count (fun st : bb_st => bb_n2 st.1) body N
                (fun k st => cells_follow f (bb_n2 self) k (log_gamma_alpha_beta st.1) ∧
                             bb_n2 self ≤ k)) as H.
  destruct (H ltac:(intros [s w]; rewrite Hbody; reflexivity)
              ltac:(intros [s w] Hlt (Ha & Hle); rewrite Hbody; simpl in *;
                    split; [apply cells_follow_insert; assumption|lia])
              (self, w0)
              ltac:(simpl; split; [intros i Hi; lia|lia]))
    as [(Ha & _) _].
  simpl in Ha. fold r in Ha. intros i Hi. apply Ha. lia.
Qed.

Section beta_binom_values_facts.
Variable log : float → float.

Lemma bb_fill_values (self : beta_binom_t) (p rho : float) (n1 n2 : Z) :
  let r := (bb_fill log self p rho n1 n2).1 in
  cells_follow (bb_next_alpha log p rho) (bb_n1 self) n1 (log_gamma_alpha r) ∧
  cells_follow (bb_next_beta log p rho) (bb_n1 self) n1 (log_gamma_beta r) ∧
  cells_follow (bb_next_alpha_beta log p rho) (bb_n2 self) n2 (log_gamma_alpha_beta r).
Proof.
  unfold bb_fill. set (e := bb_expand self n1 n2).
  assert (Hloops : ∀ fa fb fab body1 body2,
    (∀ s w, body1 (s, w) =
            (bb_store1 s (bb_n1 s + 1)
               (fa (rd (log_gamma_alpha s) (bb_n1 s)) (bb_n1 s + 1))
               (fb (rd (log_gamma_beta s) (bb_n1 s)) (bb_n1 s + 1)),
             w ++ [(Alpha, bb_n1 s + 1); (Beta, bb_n1 s + 1)])) →
    (∀ s w, body2 (s, w) =
            (bb_store2 s (bb_n2 s + 1)
               (fab (rd (log_gamma_alpha_beta s) (bb_n2 s)) (bb_n2 s + 1)),
             w ++ [(AlphaBeta, bb_n2 s + 1)])) →
    let r := (while_loop (Z.to_nat (n2 - bb_n2 e)) (fun st => bb_n2 st.1 <? n2) body2
                (while_loop (Z.to_nat (n1 - bb_n1 e)) (fun st => bb_n1 st.1 <? n1) body1
                   (e, []))).1 in
    cells_follow fa (bb_n1 self) n1 (log_gamma_alpha r) ∧
    cells_follow fb (bb_n1 self) n1 (log_gamma_beta r) ∧
    cells_follow fab (bb_n2 self) n2 (log_gamma_alpha_beta r)).
  { intros fa fb fab body1 body2 H1 H2.
    assert (E1 : bb_n1 e = bb_n1 self) by reflexivity.
    assert (E2 : bb_n2 e = bb_n2 self) by reflexivity.
    remember (while_loop (Z.to_nat (n1 - bb_n1 e)) (fun st => bb_n1 st.1 <? n1) body1 (e, []))
      as l1 eqn:El1.
    assert (S1 : bb_body1_shape body1) by (intros s w; rewrite H1; eauto).
    assert (S2 : bb_body2_shape body2) by (intros s w; rewrite H2; eauto).
    destruct (bb_loop1_spec body1 n1 e [] S1 l1 El1) as (_ & _ & F1).
    destruct F1 as (_ & _ & F1n2 & F1ab & _).
    pose proof (bb_loop1_values fa fb body1 n1 e [] H1) as V1. rewrite <- El1 in V1.
    destruct l1 as [s1 w1]. simpl in F1n2, F1ab, V1.
    destruct (bb_loop2_spec body2 n2 s1 w1 S2 _ eq_refl) as (_ & _ & F2).
    destruct F2 as (_ & _ & _ & F2a & F2b & _).
    pose proof (bb_loop2_values fab body2 n2 s1 w1 H2) as V2.
    cbv zeta in V2 |- *. rewrite F1n2 in F2a, F2b, V2. rewrite E2, F2a, F2b.
    rewrite ?E1 in V1.
    split; [apply V1|]. split; [apply V1|exact V2]. }
  destruct (feq rho 0) eqn:Hrho; cbv zeta.
  - apply (Hloops (bb_next_alpha log p rho) (bb_next_beta log p rho)
             (bb_next_alpha_beta log p rho)).
    + intros s w. unfold bb_binom_body1, bb_next_alpha, bb_next_beta. rewrite Hrho.
      replace (bb_n1 s + 1 - 1) with (bb_n1 s) by lia. reflexivity.
    + intros s w. unfold bb_binom_body2, bb_next_alpha_beta. rewrite Hrho.
      replace (bb_n2 s + 1 - 1) with (bb_n2 s) by lia. reflexivity.
  - apply (Hloops (bb_next_alpha log p rho) (bb_next_beta log p rho)
             (bb_next_alpha_beta log p rho)).
    + intros s w. unfold bb_beta_body1, bb_next_alpha, bb_next_beta. rewrite Hrho.
      replace (bb_n1 s + 1 - 1) with (bb_n1 s) by lia. reflexivity.
    + intros s w. unfold bb_beta_body2, bb_next_alpha_beta. rewrite Hrho.
      replace (bb_n2 s + 1 - 1) with (bb_n2 s) by lia. reflexivity.
Qed.

(** X9.  Every cell a call of [beta_binom_update] assigns holds the cell before
    it plus the increment of its index for [(p, rho)]:
    [f(n, x) = f(n - 1, x) + log((x + n - 1) / n)], or the binomial
    increments when [rho == 0].  The cells assigned are those above the marks
    the loops start from, which are 0 after a change of [(p, rho)]. *)
Theorem beta_binom_update_values (self : beta_binom_t) (p rho : float) (n1 n2 : Z) :
  let r := (beta_binom_update log self p rho n1 n2).1 in
  cells_follow (bb_next_alpha log p rho) (bb_start self p rho).1 n1 (log_gamma_alpha r) ∧
  cells_follow (bb_next_beta log p rho) (bb_start self p rho).1 n1 (log_gamma_beta r) ∧
  cells_follow (bb_next_alpha_beta log p rho) (bb_start self p rho).2 n2
               (log_gamma_alpha_beta r).
Proof.
  unfold beta_binom_update, bb_start.
  destruct (negb (feq (bb_p self) p) || negb (feq (bb_rho self) rho)).
  - apply (bb_fill_values (bb_reset self p rho)).
  - apply bb_fill_values.
Qed.
End beta_binom_values_facts.

Example beta_binom_update_values_ex :
  let r := (beta_binom_update no_log beta_binom_init 0.5 0.25 2 1).1 in
  (rd (log_gamma_alpha r) 0, rd (log_gamma_alpha r) 1, rd (log_gamma_alpha r) 2)
  = (0, 1.5, 2.75)%float.
Proof. vm_compute. reflexivity. Qed.

(** Two caches that follow the same recurrence above [lo] and agree at [lo]
    agree up to [hi]. *)
Lemma cells_follow_unique (next : float → Z → float) (lo hi : Z) (a b : gmap Z float) :
  cells_follow next lo hi a → cells_follow next lo hi b → a !! lo = b !! lo →
  ∀ i, lo ≤ i ≤ hi → a !! i = b !! i.
Proof.
  intros Ha Hb H0 i Hi.
  remember (Z.to_nat (i - lo)) as n eqn:Hn. revert i Hi Hn.
  induction n as [|n IH]; intros i Hi Hn.
  - assert (i = lo) by lia. subst i. exact H0.
  - rewrite (Ha i), (Hb i) by lia. unfold rd. rewrite (IH (i - 1)) by lia. reflexivity.
Qed.

Lemma cells_follow_compose (next : float → Z → float) (m a b : Z)
      (s0 r1 r2 r : gmap Z float) :
  (∀ i, ¬ (m < i ≤ a) → r1 !! i = s0 !! i) → cells_follow next m a r1 →
  (∀ i, ¬ (Z.max m a < i ≤ b) → r2 !! i = r1 !! i) → cells_follow next (Z.max m a) b r2 →
  (∀ i, ¬ (m < i ≤ Z.max a b) → r !! i = s0 !! i) → cells_follow next m (Z.max a b) r →
  r2 = r.
Proof.
  intros F1 V1 F2 V2 F V.
  assert (V2' : cells_follow next m (Z.max a b) r2).
  { intros i Hi. destruct (Z_le_dec i (Z.max m a)) as [Hle|Hgt].
    - unfold rd. rewrite !F2 by lia. apply V1. lia.
    - apply V2. lia. }
  apply map_eq. intros i.
  destruct (Z_le_dec i m) as [Hlo|Hlo]; [rewrite F2, F1, F by lia; reflexivity|].
  destruct (Z_le_dec i (Z.max a b)) as [Hhi|Hhi];
    [|rewrite F2, F1, F by lia; reflexivity].
  apply (cells_follow_unique next m (Z.max a b)); try assumption; [|lia].
  rewrite F2, F1, F by lia. reflexivity.
Qed.

Section beta_binom_compose.
Variable log : float → float.

(** X10.  At parameters that are numbers, raising the marks in two calls leaves
    the same marks and the same three caches as one call to the larger
    targets: the cells do not depend on how the calls were split. *)
Theorem beta_binom_update_twice (self : beta_binom_t) (p rho : float) (a1 a2 b1 b2 : Z) :
  feq p p = true → feq rho rho = true →
  let r1 := (beta_binom_update log self p rho a1 a2).1 in
  let r2 := (beta_binom_update log r1 p rho b1 b2).1 in
  let r := (beta_binom_update log self p rho (Z.max a1 b1) (Z.max a2 b2)).1 in
  bb_n1 r2 = bb_n1 r ∧ bb_n2 r2 = bb_n2 r ∧
  log_gamma_alpha r2 = log_gamma_alpha r ∧ log_gamma_beta r2 = log_gamma_beta r ∧
  log_gamma_alpha_beta r2 = log_gamma_alpha_beta r.
Proof.
  intros Hp Hrho r1 r2 r.
  set (s0 := if negb (feq (bb_p self) p) || negb (feq (bb_rho self) rho)
             then bb_reset self p rho else self).
  assert (E1 : r1 = (bb_fill log s0 p rho a1 a2).1) by reflexivity.
  assert (E : r = (bb_fill log s0 p rho (Z.max a1 b1) (Z.max a2 b2)).1) by reflexivity.
  assert (Hs0 : feq (bb_p s0) p = true ∧ feq (bb_rho s0) rho = true).
  { unfold s0. destruct (feq (bb_p self) p) eqn:H1, (feq (bb_rho self) rho) eqn:H2; simpl;
      split; assumption. }
  destruct (bb_fill_spec log s0 p rho a1 a2) as [_ P1]. rewrite <- E1 in P1.
  destruct P1 as (M1 & M2 & Pp & Prho & _ & _ & _ & Fa1 & Fab1).
  assert (E2 : r2 = (bb_fill log r1 p rho b1 b2).1).
  { unfold r2. rewrite beta_binom_update_same; [reflexivity| |].
    - rewrite Pp. apply Hs0.
    - rewrite Prho. apply Hs0. }
  destruct (bb_fill_spec log r1 p rho b1 b2) as [_ P2]. rewrite <- E2 in P2.
  destruct P2 as (N1 & N2 & _ & _ & _ & _ & _ & Fa2 & Fab2).
  destruct (bb_fill_spec log s0 p rho (Z.max a1 b1) (Z.max a2 b2)) as [_ P].
  rewrite <- E in P. destruct P as (K1 & K2 & _ & _ & _ & _ & _ & Fa & Fab).
  destruct (bb_fill_values log s0 p rho a1 a2) as (Va1 & Vb1 & Vab1).
  destruct (bb_fill_values log r1 p rho b1 b2) as (Va2 & Vb2 & Vab2).
  destruct (bb_fill_values log s0 p rho (Z.max a1 b1) (Z.max a2 b2)) as (Va & Vb & Vab).
  cbv zeta in Va1, Vb1, Vab1, Va2, Vb2, Vab2, Va, Vb, Vab.
  rewrite <- E1 in Va1, Vb1, Vab1. rewrite <- E2 in Va2, Vb2, Vab2.
  rewrite <- E in Va, Vb, Vab. rewrite M1 in Fa2, Va2, Vb2. rewrite M2 in Fab2, Vab2.
  split; [lia|]. split; [lia|].
  split; [|split].
  - apply (cells_follow_compose (bb_next_alpha log p rho) (bb_n1 s0) a1 b1
             (log_gamma_alpha s0) (log_gamma_alpha r1)); try assumption;
      intros i Hi; [apply Fa1|apply Fa2|apply Fa]; exact Hi.
  - apply (cells_follow_compose (bb_next_beta log p rho) (bb_n1 s0) a1 b1
             (log_gamma_beta s0) (log_gamma_beta r1)); try assumption;
      intros i Hi; [apply Fa1|apply Fa2|apply Fa]; exact Hi.
  - apply (cells_follow_compose (bb_next_alpha_beta log p rho) (bb_n2 s0) a2 b2
             (log_gamma_alpha_beta s0) (log_gamma_alpha_beta r1)); assumption.
Qed.
End beta_binom_compose.

Lemma beta_binom_update_twice_witness :
  let r1 := (beta_binom_update no_log beta_binom_init 0.5 0.25 2 1).1 in
  let r2 := (beta_binom_update no_log r1 0.5 0.25 3 2).1 in
  let r := (beta_binom_update no_log beta_binom_init 0.5 0.25 3 2).1 in
  (bb_n1 r, bb_n2 r) = (3, 2) ∧ log_gamma_alpha r2 = log_gamma_alpha r.
Proof.
  intros r1 r2 r. split; [reflexivity|].
  destruct (beta_binom_update_twice no_log beta_binom_init 0.5 0.25 2 1 3 2 eq_refl eq_refl)
    as (_ & _ & H & _).
  exact H.
Defined.

(** ** [hts_expand]: the capacity covers the request *)

Lemma Zlor_ge_l (a b : Z) : 0 ≤ a → 0 ≤ b → a ≤ Z.lor a b.
Proof.
  intros Ha Hb.
  assert (H : Z.ldiff a (Z.lor a b) = 0).
  { apply Z.bits_inj'. intros n Hn.
    rewrite Z.ldiff_spec, Z.lor_spec, Z.bits_0. destruct (Z.testbit a n); reflexivity. }
  pose proof (Z.sub_nocarry_ldiff (Z.lor a b) a H) as E.
  assert (0 ≤ Z.ldiff (Z.lor a b) a).
  { apply Z.ldiff_nonneg. left. apply Z.lor_nonneg. split; assumption. }
  lia.
Qed.

Lemma Zlor_lt_pow2 (a b k : Z) : 0 ≤ k → 0 ≤ a < 2 ^ k → 0 ≤ b < 2 ^ k → 0 ≤ Z.lor a b < 2 ^ k.
Proof.
  intros Hk Ha Hb. split; [apply Z.lor_nonneg; lia|].
  destruct (Z.eq_dec (Z.lor a b) 0) as [E|E]; [rewrite E; apply Z.pow_pos_nonneg; lia|].
  assert (0 < Z.lor a b) by (pose proof (proj2 (Z.lor_nonneg a b) ltac:(lia)); lia).
  apply Z.log2_lt_pow2; [assumption|].
  rewrite Z.log2_lor by lia.
  destruct (Z.eq_dec a 0) as [->|Ha0], (Z.eq_dec b 0) as [->|Hb0].
  - exfalso. apply E. reflexivity.
  - rewrite Z.max_r by (simpl; apply Z.log2_nonneg). apply Z.log2_lt_pow2; lia.
  - rewrite Z.max_l by (simpl; apply Z.log2_nonneg). apply Z.log2_lt_pow2; lia.
  - apply Z.max_lub_lt; apply Z.log2_lt_pow2; lia.
Qed.

Lemma Zshiftr_lt_pow2 (a k s : Z) : 0 ≤ s → 0 ≤ a < 2 ^ k → 0 ≤ Z.shiftr a s < 2 ^ k.
Proof.
  intros Hs Ha. rewrite Z.shiftr_div_pow2 by lia.
  assert (0 < 2 ^ s) by (apply Z.pow_pos_nonneg; lia).
  split; [apply Z.div_pos; lia|].
  apply Z.le_lt_trans with a; [|lia]. apply Z.div_le_upper_bound; [lia|]. nia.
Qed.

(** For a request of at most 2^31 cells the rounded capacity covers it. *)
Lemma kroundup32_ge (x : Z) : 1 ≤ x ≤ 2 ^ 31 → x ≤ kroundup32 x.
Proof.
  intros Hx. unfold kroundup32.
  set (x0 := x - 1). assert (H0 : 0 ≤ x0 < 2 ^ 31) by (unfold x0; lia).
  set (x1 := Z.lor x0 (Z.shiftr x0 1)).
  assert (H1 : 0 ≤ x1 < 2 ^ 31 ∧ x0 ≤ x1).
  { split; [apply Zlor_lt_pow2; [lia|lia|apply Zshiftr_lt_pow2; lia]|].
    apply Zlor_ge_l; [lia|apply Zshiftr_lt_pow2 with (k := 31); lia]. }
  set (x2 := Z.lor x1 (Z.shiftr x1 2)).
  assert (H2 : 0 ≤ x2 < 2 ^ 31 ∧ x1 ≤ x2).
  { split; [apply Zlor_lt_pow2; [lia|lia|apply Zshiftr_lt_pow2; lia]|].
    apply Zlor_ge_l; [lia|apply Zshiftr_lt_pow2 with (k := 31); lia]. }
  set (x3 := Z.lor x2 (Z.shiftr x2 4)).
  assert (H3 : 0 ≤ x3 < 2 ^ 31 ∧ x2 ≤ x3).
  { split; [apply Zlor_lt_pow2; [lia|lia|apply Zshiftr_lt_pow2; lia]|].
    apply Zlor_ge_l; [lia|apply Zshiftr_lt_pow2 with (k := 31); lia]. }
  set (x4 := Z.lor x3 (Z.shiftr x3 8)).
  assert (H4 : 0 ≤ x4 < 2 ^ 31 ∧ x3 ≤ x4).
  { split; [apply Zlor_lt_pow2; [lia|lia|apply Zshiftr_lt_pow2; lia]|].
    apply Zlor_ge_l; [lia|apply Zshiftr_lt_pow2 with (k := 31); lia]. }
  set (x5 := Z.lor x4 (Z.shiftr x4 16)).
  assert (H5 : 0 ≤ x5 < 2 ^ 31 ∧ x4 ≤ x5).
  { split; [apply Zlor_lt_pow2; [lia|lia|apply Zshiftr_lt_pow2; lia]|].
    apply Zlor_ge_l; [lia|apply Zshiftr_lt_pow2 with (k := 31); lia]. }
  rewrite Z.mod_small by lia. unfold x0 in *. lia.
Qed.

Lemma hts_expand_ge (n m : Z) : n ≤ 2 ^ 31 → n ≤ hts_expand n m.
Proof.
  intros Hn. unfold hts_expand. destruct (Z.ltb_spec m n); [|lia].
  destruct (Z_le_dec 1 n); [apply kroundup32_ge; lia|].
  assert (0 ≤ kroundup32 n) by (unfold kroundup32; apply Z.mod_pos_bound; lia). lia.
Qed.

Lemma hts_expand_mono (n m : Z) : n ≤ 2 ^ 31 → m ≤ hts_expand n m.
Proof.
  intros Hn. pose proof (hts_expand_ge n m Hn) as H. unfold hts_expand in *.
  destruct (Z.ltb_spec m n); lia.
Qed.

(** ** [beta_binom_update]: the stores stay inside the blocks *)

Lemma beta_binom_init_wf : bb_wf beta_binom_init.
Proof. vm_compute. repeat split; discriminate. Qed.

Section beta_binom_bounds.
Variable log : float → float.

(** X11.  From a struct whose marks are inside its blocks, as after
    [beta_binom_init], a call with targets below [INT_MAX] stores only at indices
    from 1 up to the capacity of the cache it stores into, and leaves the
    marks inside the blocks. *)
Theorem beta_binom_update_in_bounds (self : beta_binom_t) (p rho : float) (n1 n2 : Z) :
  bb_wf self → n1 < 2 ^ 31 - 1 → n2 < 2 ^ 31 - 1 →
  bb_wf (beta_binom_update log self p rho n1 n2).1 ∧
  ∀ c i, In (c, i) (beta_binom_update log self p rho n1 n2).2 →
         1 ≤ i < bb_capacity (beta_binom_update log self p rho n1 n2).1 c.
Proof.
  intros (W1 & W2 & W3) H1 H2. unfold beta_binom_update.
  set (s0 := if negb (feq (bb_p self) p) || negb (feq (bb_rho self) rho)
             then bb_reset self p rho else self).
  assert (Ws : bb_wf s0).
  { unfold s0. destruct (_ || _); [|repeat split; lia].
    unfold bb_wf. simpl. repeat split; lia. }
  destruct Ws as (V1 & V2 & V3).
  destruct (bb_fill_spec log s0 p rho n1 n2) as [Hw P].
  destruct P as (M1 & M2 & _ & _ & C1 & C2 & C3 & _).
  pose proof (hts_expand_ge (n1 + 1) (m_log_gamma_alpha s0) ltac:(lia)).
  pose proof (hts_expand_ge (n1 + 1) (m_log_gamma_beta s0) ltac:(lia)).
  pose proof (hts_expand_ge (n2 + 1) (m_log_gamma_alpha_beta s0) ltac:(lia)).
  pose proof (hts_expand_mono (n1 + 1) (m_log_gamma_alpha s0) ltac:(lia)).
  pose proof (hts_expand_mono (n1 + 1) (m_log_gamma_beta s0) ltac:(lia)).
  pose proof (hts_expand_mono (n2 + 1) (m_log_gamma_alpha_beta s0) ltac:(lia)).
  split; [unfold bb_wf; lia|].
  intros c i Hin. rewrite Hw in Hin. apply in_bb_stores in Hin.
  destruct c; simpl; destruct Hin as [[Hc Hi]|[Hc Hi]]; try discriminate;
    try contradiction; lia.
Qed.
End beta_binom_bounds.

Lemma beta_binom_update_in_bounds_witness :
  bb_wf (beta_binom_update no_log beta_binom_init 0.5 0.25 5 3).1 ∧
  m_log_gamma_alpha (beta_binom_update no_log beta_binom_init 0.5 0.25 5 3).1 = 8.
Proof.
  split; [|reflexivity].
  apply (beta_binom_update_in_bounds no_log beta_binom_init 0.5 0.25 5 3);
    [exact beta_binom_init_wf|lia|lia].
Defined.

(** ** [binom_exact]: the cached table *)

Lemma binom_len_rstart (n : Z) : 0 ≤ n → binom_len n = rstart (n + 1).
Proof.
  intros Hn. unfold binom_len, rstart. destruct (Z.eqb_spec (n + 1) 0); [lia|].
  rewrite !shiftr1. replace ((n + 1 + 1) / 2) with (1 + n / 2) by zdiv. lia.
Qed.

Section binom_exact_more.
Variable binom_dist : Z → float → Z → float.

(** X12.  The value [binom_exact] returns does not depend on the calls made
    before: on any two tables reached from the empty one it is the same. *)
Theorem binom_exact_history_free (t1 t2 : binom_tab) (k n : Z) :
  binom_reachable binom_dist t1 → binom_reachable binom_dist t2 →
  (binom_exact binom_dist t1 k n).1 = (binom_exact binom_dist t2 k n).1.
Proof.
  intros H1 H2.
  destruct (Z_lt_dec n 0) as [Hn|Hn]; [|destruct (Z_lt_dec k 0) as [Hk|Hk];
    [|destruct (Z_lt_dec n k) as [Hnk|Hnk]; [|destruct (Z_lt_dec 1000 n) as [Hb|Hb]]]].
  5: { destruct (binom_exact_spec binom_dist t1 k n (binom_reachable_ok _ _ H1)) as [_ E1];
         [lia..|].
       destruct (binom_exact_spec binom_dist t2 k n (binom_reachable_ok _ _ H2)) as [_ E2];
         [lia..|].
       rewrite E1, E2. reflexivity. }
  all: unfold binom_exact.
  all: destruct ((n <? 0) && (k <? 0)); [reflexivity|].
  1-3: replace ((n <? 0) || (k <? 0) || (n <? k)) with true by lia; reflexivity.
  replace ((n <? 0) || (k <? 0) || (n <? k)) with false by lia.
  replace (1000 <? n) with true by lia. reflexivity.
Qed.

Lemma binom_exact_table (t : binom_tab) (k n : Z) :
  0 ≤ k ≤ n → n ≤ 1000 → k ≠ Z.shiftr n 1 →
  (binom_exact binom_dist t k n).2 = if n_size t <=? n then binom_grow t n else t.
Proof.
  intros Hk Hn Hne. unfold binom_exact.
  replace ((n <? 0) && (k <? 0)) with false by lia.
  replace ((n <? 0) || (k <? 0) || (n <? k)) with false by lia.
  replace (1000 <? n) with false by lia.
  destruct (Z.eqb_spec k (Z.shiftr n 1)); [contradiction|]. reflexivity.
Qed.

Lemma binom_grow_fields (t : binom_tab) (n : Z) :
  n_size (binom_grow t n) = n + 1 ∧
  m_dbinom (binom_grow t n) = hts_expand (binom_len n) (m_dbinom t) ∧
  m_pbinom (binom_grow t n) = hts_expand (binom_len n) (m_pbinom t).
Proof.
  unfold binom_grow, binom_len. destruct (fold_left _ _ _) as [d p]. simpl. repeat split.
Qed.

Lemma binom_exact_rows (t : binom_tab) (k n : Z) :
  binom_reachable binom_dist t → 0 ≤ k ≤ n → n ≤ 1000 → k ≠ Z.shiftr n 1 →
  let t' := (binom_exact binom_dist t k n).2 in
  n_size t' = Z.max (n_size t) (n + 1) ∧
  (∀ i j, 1 ≤ i < n_size t' → 0 ≤ j < ncell i →
          pbinom t' !! (rstart i + j) = Some (pv i j)) ∧
  (∀ i j, 1 ≤ i < n_size t → 0 ≤ j < ncell i →
          pbinom t' !! (rstart i + j) = pbinom t !! (rstart i + j)).
Proof.
  intros Hreach Hk Hn Hne t'.
  pose proof (binom_reachable_ok _ _ Hreach) as Hok.
  destruct (binom_exact_spec binom_dist t k n Hok Hk Hn) as [Hok' _]. fold t' in Hok'.
  assert (Hsz : n_size t' = Z.max (n_size t) (n + 1)).
  { unfold t'. rewrite binom_exact_table by assumption.
    destruct (Z.leb_spec (n_size t) n); [|lia].
    destruct (binom_grow_fields t n) as [-> _]. lia. }
  split; [exact Hsz|].
  destruct Hok' as (_ & _ & Hrows'). destruct Hok as (_ & Hs0 & Hrows).
  assert (Hp' : ∀ i j, 1 ≤ i < n_size t' → 0 ≤ j < ncell i →
                       pbinom t' !! (rstart i + j) = Some (pv i j)).
  { intros i j Hi Hj. apply Hrows'; lia. }
  split; [exact Hp'|].
  intros i j Hi Hj. rewrite Hp' by lia. symmetry. apply Hrows; lia.
Qed.

(** X13.  A call that reads the table, [0 <= k <= n <= 1000] and [k] other than
    [n >> 1], leaves rows [0 .. max(n_size - 1, n)] in it: the rows below
    [n_size] keep their cells, and every cell of [pbinom] in these rows holds
    the running sum specified for it. *)
Theorem binom_exact_grows (t : binom_tab) (k n : Z) :
  binom_reachable binom_dist t → 0 ≤ k ≤ n → n ≤ 1000 → k ≠ Z.shiftr n 1 →
  let t' := (binom_exact binom_dist t k n).2 in
  n_size t' = Z.max (n_size t) (n + 1) ∧
  (∀ i j, 1 ≤ i < n_size t' → 0 ≤ j < ncell i →
          pbinom t' !! (rstart i + j) = Some (pv i j)) ∧
  (∀ i j, 1 ≤ i < n_size t → 0 ≤ j < ncell i →
          pbinom t' !! (rstart i + j) = pbinom t !! (rstart i + j)).
Proof. exact (binom_exact_rows t k n). Qed.

Lemma binom_exact_cap_ok (t : binom_tab) (k n : Z) :
  cap_ok t → ¬ (n < 0 ∧ k < 0) → cap_ok (binom_exact binom_dist t k n).2.
Proof.
  intros Hcap Hrel.
  destruct (Z_lt_dec n 0) as [Hn|Hn]; [|destruct (Z_lt_dec k 0) as [Hk|Hk];
    [|destruct (Z_lt_dec n k) as [Hnk|Hnk]; [|destruct (Z_lt_dec 1000 n) as [Hb|Hb]]]].
  5: { destruct (Z.eq_dec k (Z.shiftr n 1)) as [E|E].
       - unfold binom_exact.
         replace ((n <? 0) && (k <? 0)) with false by lia.
         replace ((n <? 0) || (k <? 0) || (n <? k)) with false by lia.
         replace (1000 <? n) with false by lia.
         destruct (Z.eqb_spec k (Z.shiftr n 1)); [exact Hcap|contradiction].
       - rewrite binom_exact_table by lia.
         destruct (Z.leb_spec (n_size t) n); [|exact Hcap].
         destruct (binom_grow_fields t n) as (E1 & E2 & E3).
         unfold cap_ok. rewrite E1, E2, E3. intros _.
         replace (n + 1 - 1) with n by lia.
         assert (Hlen : binom_len n ≤ 2 ^ 31).
         { unfold binom_len. rewrite !shiftr1.
           assert (n / 2 ≤ 500 ∧ (n + 1) / 2 ≤ 500 ∧ 0 ≤ n / 2 ∧ 0 ≤ (n + 1) / 2) by zdiv.
           nia. }
         split; apply hts_expand_ge; exact Hlen. }
  all: unfold binom_exact.
  all: replace ((n <? 0) && (k <? 0)) with false by lia.
  1-3: replace ((n <? 0) || (k <? 0) || (n <? k)) with true by lia; exact Hcap.
  replace ((n <? 0) || (k <? 0) || (n <? k)) with false by lia.
  replace (1000 <? n) with true by lia. exact Hcap.
Qed.

Lemma binom_reachable_cap_ok (t : binom_tab) : binom_reachable binom_dist t → cap_ok t.
Proof.
  induction 1 as [|t k n _ IH Hrel]; [intros H; simpl in H; lia|].
  apply binom_exact_cap_ok; assumption.
Qed.

(** X14.  The cell of [pbinom] a call reads is inside the block and has been
    assigned: its index is below the capacity [m_pbinom], and the table
    holds a value there. *)
Theorem binom_exact_read_in_bounds (t : binom_tab) (k n : Z) :
  binom_reachable binom_dist t → 0 ≤ k ≤ n → n ≤ 1000 → k ≠ Z.shiftr n 1 →
  let t' := (binom_exact binom_dist t k n).2 in
  0 ≤ binom_idx k n < m_pbinom t' ∧
  (binom_exact binom_dist t k n).1 = (2 * rd (pbinom t') (binom_idx k n))%float ∧
  is_Some (pbinom t' !! binom_idx k n).
Proof.
  intros Hreach Hk Hn Hne t'.
  assert (Hreach' : binom_reachable binom_dist t').
  { apply reach_call; [exact Hreach|lia]. }
  pose proof (binom_reachable_cap_ok t' Hreach') as Hcap.
  destruct (binom_exact_rows t k n Hreach Hk Hn Hne) as (Hsz & Hp & _). fold t' in Hsz, Hp.
  assert (Hn1 : 1 ≤ n) by (rewrite shiftr1 in Hne; zdiv).
  set (k' := if n <? Z.shiftl k 1 then n - k else k).
  assert (Hcell : 0 ≤ k' < ncell n).
  { unfold k'. rewrite Z.shiftl_mul_pow2 by lia. change (2 ^ 1) with 2.
    rewrite <- ncell_shiftr, shiftr1 by lia. rewrite shiftr1 in Hne.
    destruct (Z.ltb_spec n (k * 2)); zdiv. }
  assert (Hidx : binom_idx k n = rstart n + k').
  { unfold binom_idx, rstart. destruct (Z.eqb_spec n 0); [lia|]. reflexivity. }
  destruct (Hcap ltac:(lia)) as [_ Hm].
  rewrite binom_len_rstart in Hm by lia.
  pose proof (rstart_mono (n + 1) (n_size t' - 1 + 1) ltac:(lia)) as Hmono.
  pose proof (rstart_succ n ltac:(lia)) as Hs.
  pose proof (rstart_mono 0 n ltac:(lia)) as Hr0. change (rstart 0) with 0 in Hr0.
  split; [rewrite Hidx; lia|]. split.
  - unfold t', binom_exact, binom_idx.
    replace ((n <? 0) && (k <? 0)) with false by lia.
    replace ((n <? 0) || (k <? 0) || (n <? k)) with false by lia.
    replace (1000 <? n) with false by lia.
    destruct (Z.eqb_spec k (Z.shiftr n 1)); [contradiction|]. reflexivity.
  - rewrite Hidx, (Hp n k') by lia. eexists. reflexivity.
Qed.
End binom_exact_more.

Lemma binom_exact_history_free_witness :
  (binom_exact no_binom_dist (binom_exact no_binom_dist binom_tab_init 3 10).2 1 4).1
  = (binom_exact no_binom_dist binom_tab_init 1 4).1.
Proof.
  apply binom_exact_history_free; [|constructor].
  apply reach_call; [constructor|lia].
Defined.

Lemma binom_exact_grows_witness :
  n_size (binom_exact no_binom_dist binom_tab_init 3 10).2 = Z.max 0 (10 + 1).
Proof.
  apply (binom_exact_grows no_binom_dist binom_tab_init 3 10);
    [constructor|lia|lia|discriminate].
Defined.

Lemma binom_exact_read_in_bounds_witness :
  0 ≤ binom_idx 3 10 < m_pbinom (binom_exact no_binom_dist binom_tab_init 3 10).2.
Proof.
  apply (binom_exact_read_in_bounds no_binom_dist binom_tab_init 3 10);
    [constructor|lia|lia|discriminate].
Defined.

(** ** [binom_exact]: the stores of the fill loops *)

Lemma is_Some_insert (a : gmap Z float) (k x : Z) (v : float) :
  is_Some (<[k := v]> a !! x) → x = k ∨ is_Some (a !! x).
Proof.
  destruct (Z.eq_dec x k) as [->|Hne]; [left; reflexivity|].
  rewrite lookup_insert_ne by lia. right. assumption.
Qed.

Lemma binom_inner_keys (i rs ps c : Z) (d1 p1 : gmap Z float) :
  1 ≤ c →
  ∀ a b d p,
    fold_left (binom_inner i) (seqZ 1 (c - 1)) (ps, rs, d1, p1) = (a, b, d, p) →
    keys_within (rs + 1) (rs + c) d1 p1 d p.
Proof.
  intros Hc a b d p Hfold.
  pose (P := fun (j : Z) (st : Z * Z * gmap Z float * gmap Z float) =>
    let '(pi, ci, d, p) := st in
    ci = rs + j - 1 ∧ keys_within (rs + 1) (rs + j) d1 p1 d p).
  assert (HP : P c (fold_left (binom_inner i) (seqZ 1 (c - 1)) (ps, rs, d1, p1))).
  { apply for_loop_inv; [lia | |].
    - unfold P, keys_within. split; [lia|]. split; intros x Hx; left; exact Hx.
    - intros j [[[pi ci] d'] p'] Hj (Hci & Hd & Hp). subst ci.
      unfold P, binom_inner. replace (rs + j - 1 + 1) with (rs + j) by lia.
      split; [lia|]. split; intros x Hx; apply is_Some_insert in Hx as [->|Hx].
      + right. lia.
      + destruct (Hd x Hx); [left; assumption|right; lia].
      + right. lia.
      + destruct (Hp x Hx); [left; assumption|right; lia]. }
  rewrite Hfold in HP. apply HP.
Qed.

Lemma binom_row_keys (i : Z) (d p d' p' : gmap Z float) :
  1 ≤ i → binom_row (d, p) i = (d', p') →
  keys_within (rstart i) (rstart (i + 1)) d p d' p'.
Proof.
  intros Hi Hrow. unfold binom_row in Hrow.
  rewrite curr_idx_rstart, ncell_shiftr in Hrow by lia.
  destruct (fold_left _ _ _) as [[[a b] d2] p2] eqn:Hfold.
  injection Hrow as -> ->.
  apply binom_inner_keys in Hfold; [|apply ncell_pos; lia].
  destruct Hfold as [Hd Hp]. rewrite rstart_succ by lia.
  split; intros x Hx.
  - destruct (Hd x Hx) as [H|H]; [|right; lia].
    apply is_Some_insert in H as [->|H]; [right|left; exact H].
    pose proof (ncell_pos i ltac:(lia)) as Hn. lia.
  - destruct (Hp x Hx) as [H|H]; [|right; lia].
    apply is_Some_insert in H as [->|H]; [right|left; exact H].
    pose proof (ncell_pos i ltac:(lia)) as Hn. lia.
Qed.

Lemma binom_rows_keys (lo hi : Z) (d p d' p' : gmap Z float) :
  1 ≤ lo ≤ hi →
  fold_left binom_row (seqZ lo (hi - lo)) (d, p) = (d', p') →
  keys_within (rstart lo) (rstart hi) d p d' p'.
Proof.
  intros Hlo Hfold.
  assert (HP : (fun (i : Z) (dp : gmap Z float * gmap Z float) =>
                  keys_within (rstart lo) (rstart i) d p dp.1 dp.2)
                 hi (fold_left binom_row (seqZ lo (hi - lo)) (d, p))).
  { apply for_loop_inv; [lia | |].
    - split; intros x Hx; left; exact Hx.
    - intros i [d1 p1] Hi [Hd Hp]. simpl in Hd, Hp.
      destruct (binom_row (d1, p1) i) as [d2 p2] eqn:Hrow. simpl.
      destruct (binom_row_keys i d1 p1 d2 p2 ltac:(lia) Hrow) as [Hd2 Hp2].
      pose proof (rstart_mono lo i ltac:(lia)) as M1.
      pose proof (rstart_mono i (i + 1) ltac:(lia)) as M2.
      split; intros x Hx.
      + destruct (Hd2 x Hx) as [H|H]; [|right; lia].
        destruct (Hd x H); [left; assumption|right; lia].
      + destruct (Hp2 x Hx) as [H|H]; [|right; lia].
        destruct (Hp x H); [left; assumption|right; lia]. }
  rewrite Hfold in HP. exact HP.
Qed.

Lemma binom_grow_keys (t : binom_tab) (n : Z) :
  keys_ok t → 1 ≤ n ≤ 1000 → 0 ≤ n_size t ≤ n → keys_ok (binom_grow t n).
Proof.
  intros [Kd Kp] Hn Hsz.
  destruct (binom_grow_fields t n) as (_ & Md & Mp).
  assert (Hlen : binom_len n ≤ 2 ^ 31).
  { unfold binom_len. rewrite !shiftr1.
    assert (n / 2 ≤ 500 ∧ (n + 1) / 2 ≤ 500 ∧ 0 ≤ n / 2 ∧ 0 ≤ (n + 1) / 2) by zdiv. nia. }
  pose proof (hts_expand_ge (binom_len n) (m_dbinom t) Hlen) as Gd.
  pose proof (hts_expand_ge (binom_len n) (m_pbinom t) Hlen) as Gp.
  pose proof (hts_expand_mono (binom_len n) (m_dbinom t) Hlen) as Od.
  pose proof (hts_expand_mono (binom_len n) (m_pbinom t) Hlen) as Op.
  pose proof (binom_len_rstart n ltac:(lia)) as Hbl.
  unfold keys_ok. rewrite Md, Mp. clear Md Mp.
  unfold binom_grow.
  set (lo := if n_size t =? 0 then 1 else n_size t).
  assert (Hlo : 1 ≤ lo ≤ n + 1) by (unfold lo; destruct (Z.eqb_spec (n_size t) 0); lia).
  destruct (fold_left _ _ _) as [d p] eqn:Hfold. cbn [dbinom pbinom].
  replace (n + 1 - lo) with ((n + 1) - lo) in Hfold by lia.
  destruct (binom_rows_keys lo (n + 1) _ _ _ _ Hlo Hfold) as [Hd Hp].
  pose proof (rstart_ge1 lo ltac:(lia)) as Hr1.
  pose proof (rstart_ge1 (n + 1) ltac:(lia)) as Hr2.
  split; intros x Hx.
  - destruct (Hd x Hx) as [H|H]; [|lia].
    apply is_Some_insert in H as [->|H]; [lia|]. specialize (Kd x H). lia.
  - destruct (Hp x Hx) as [H|H]; [|lia]. specialize (Kp x H). lia.
Qed.

Section binom_exact_stores.
Variable binom_dist : Z → float → Z → float.

Lemma binom_exact_keys (t : binom_tab) (k n : Z) :
  keys_ok t → 0 ≤ n_size t → keys_ok (binom_exact binom_dist t k n).2.
Proof.
  intros Hkeys Hsz. unfold binom_exact.
  destruct ((n <? 0) && (k <? 0)); [exact Hkeys|].
  destruct ((n <? 0) || (k <? 0) || (n <? k)) eqn:Hdom; [exact Hkeys|].
  destruct (Z.ltb_spec 1000 n); [exact Hkeys|].
  destruct (Z.eqb_spec k (Z.shiftr n 1)) as [|Hne]; [exact Hkeys|]. cbn [snd].
  destruct (Z.leb_spec (n_size t) n); [|exact Hkeys].
  apply binom_grow_keys; [exact Hkeys| |lia].
  rewrite shiftr1 in Hne. zdiv.
Qed.

(** X15.  On every table reached from the empty one, each cell of [dbinom] and of
    [pbinom] that has been assigned lies inside its block, below the
    capacity [hts_expand] has given it: the fill loops never store outside
    the blocks. *)
Theorem binom_exact_stores_in_bounds (t : binom_tab) :
  binom_reachable binom_dist t →
  (∀ x, is_Some (dbinom t !! x) → 0 ≤ x < m_dbinom t) ∧
  (∀ x, is_Some (pbinom t !! x) → 0 ≤ x < m_pbinom t).
Proof.
  induction 1 as [|t k n Hr IH Hrel].
  - split; intros x [v Hx]; simpl in Hx; rewrite lookup_empty in Hx; discriminate.
  - apply binom_exact_keys; [exact IH|].
    apply (binom_reachable_ok binom_dist t Hr).
Qed.
End binom_exact_stores.

Lemma binom_exact_stores_in_bounds_witness :
  (∀ x, is_Some (dbinom (binom_exact no_binom_dist binom_tab_init 3 10).2 !! x) →
        0 ≤ x < m_dbinom (binom_exact no_binom_dist binom_tab_init 3 10).2) ∧
  (∀ x, is_Some (pbinom (binom_exact no_binom_dist binom_tab_init 3 10).2 !! x) →
        0 ≤ x < m_pbinom (binom_exact no_binom_dist binom_tab_init 3 10).2).
Proof.
  apply (binom_exact_stores_in_bounds no_binom_dist).
  apply reach_call; [constructor|lia].
Defined.

(** ** Allele inference and the correlation classes *)

Section infer_alleles_more.
Variable get_median : list float → float.

(** X16.  The two values the inference writes are both -1, or the two candidate
    alleles of the record in one order or the other, whatever the medians;
    for a record with one allele they are both -1. *)
Theorem infer_alleles_permutes (rec : bcf1_t) (nsmpl a b : Z) :
  infer_alleles get_median rec nsmpl = Some (a, b) →
  ∃ al, candidate_alleles (n_allele rec) = Some al ∧
        ((a, b) = (-1, -1) ∨ (a, b) = al ∨ (a, b) = (al.2, al.1)) ∧
        (n_allele rec = 1 → (a, b) = (-1, -1)).
Proof.
  unfold infer_alleles.
  destruct (candidate_alleles (n_allele rec)) as [al|] eqn:Hal; [|discriminate].
  intros E. exists al. split; [reflexivity|].
  assert (Hcases : al = (-1, -1) ∨ al = (0, 1) ∨ al = (1, 2)).
  { unfold candidate_alleles in Hal.
    destruct (n_allele rec =? 1); [left; congruence|].
    destruct (n_allele rec =? 2); [right; left; congruence|].
    destruct (n_allele rec =? 3); [right; right; congruence|discriminate]. }
  assert (H1 : n_allele rec = 1 → al = (-1, -1)).
  { intros H. rewrite H in Hal. injection Hal as <-. reflexivity. }
  revert E. unfold allele_of_median, resolve_alleles.
  destruct Hcases as [-> | [-> | ->]]; cbn [fst snd].
  all: repeat match goal with |- context [flt ?x ?y] => destruct (flt x y) end.
  all: cbn; intros E; injection E as <- <-.
  all: split; [tauto|]; intros H; specialize (H1 H); try discriminate; reflexivity.
Qed.
End infer_alleles_more.

Lemma infer_alleles_permutes_witness :
  ∃ al, candidate_alleles 2 = Some al ∧
        ((0, 1) = (-1, -1) ∨ (0, 1) = al ∨ (0, 1) = (al.2, al.1)) ∧
        (2 = 1 → (0, 1) = (-1, -1)).
Proof.
  exact (infer_alleles_permutes get_median_spec
           (rec0 [0; 0; 1; 1] [0; 0; 1; 1] [0; 0; 0; 0]
                 (Some [0.25; 0.375; 0.75; 0.625]%float) None)
           4 0 1 infer_alleles_scenario_3).
Defined.

(** X17.  The samples collected in [imap_arr] for a median or for a correlation
    are samples of the record, each once and in increasing order, so that at
    most [nsmpl] cells of the block are written; and the three classes of
    the correlation have no sample in common. *)
Theorem imap_within_samples (rec : bcf1_t) (nsmpl al : Z) :
  0 ≤ nsmpl →
  (Z.of_nat (length (homozygous_for rec nsmpl al)) ≤ nsmpl ∧
   NoDup (homozygous_for rec nsmpl al) ∧
   ∀ j, j ∈ homozygous_for rec nsmpl al → 0 ≤ j < nsmpl) ∧
  (∀ i, Z.of_nat (length (genotype_class rec nsmpl i)) ≤ nsmpl ∧
        NoDup (genotype_class rec nsmpl i) ∧
        ∀ j, j ∈ genotype_class rec nsmpl i → 0 ≤ j < nsmpl) ∧
  (∀ i i' j, j ∈ genotype_class rec nsmpl i → j ∈ genotype_class rec nsmpl i' → i = i').
Proof.
  intros Hn.
  assert (Hfilter : ∀ f : Z → bool,
            Z.of_nat (length (List.filter f (seqZ 0 nsmpl))) ≤ nsmpl ∧
            NoDup (List.filter f (seqZ 0 nsmpl)) ∧
            ∀ j, j ∈ List.filter f (seqZ 0 nsmpl) → 0 ≤ j < nsmpl).
  { intros f. split; [|split].
    - pose proof (List.filter_length_le f (seqZ 0 nsmpl)) as H.
      rewrite length_seqZ in H. lia.
    - apply NoDup_ListNoDup, List.NoDup_filter, NoDup_ListNoDup, NoDup_seqZ.
    - intros j Hj. apply list_elem_of_In, List.filter_In in Hj as [Hj _].
      apply list_elem_of_In, elem_of_seqZ in Hj. lia. }
  split; [apply Hfilter|]. split; [intros i; apply Hfilter|].
  intros i i' j Hi Hi'. unfold genotype_class in Hi, Hi'.
  apply list_elem_of_In, List.filter_In in Hi as [_ Hi].
  apply list_elem_of_In, List.filter_In in Hi' as [_ Hi'].
  cbv zeta in Hi, Hi'. apply andb_prop in Hi as [_ Hi]. apply andb_prop in Hi' as [_ Hi'].
  apply Z.eqb_eq in Hi, Hi'. lia.
Qed.

Lemma imap_within_samples_witness :
  Z.of_nat (length (homozygous_for (rec0 [0; 1; 0] [0; 1; 0] [0; 0; 0] None None) 3 0)) ≤ 3 ∧
  homozygous_for (rec0 [0; 1; 0] [0; 1; 0] [0; 0; 0] None None) 3 0 = [0; 2].
Proof.
  split; [|reflexivity].
  apply (imap_within_samples (rec0 [0; 1; 0] [0; 1; 0] [0; 0; 0] None None) 3 0). lia.
Defined.

(** ** The test battery and the binomial table *)

Lemma sample_step_ad (args : args_t) (rec : bcf1_t) (i : Z) (s : agg_t) :
  ad_ok rec → pair_ok (ad_het s) → pair_ok (ad_het (sample_step args rec s i)).
Proof.
  intros Had (L & H). unfold sample_step.
  destruct ((arr_get (gt0_arr rec) i =? bcf_int16_missing)
            || (arr_get (gt0_arr rec) i =? bcf_int16_missing)); [split; assumption|].
  destruct ((arr_get (gt0_arr rec) i =? arr_get (gt1_arr rec) i) || _);
    cbn [ad_het]; [split; assumption|].
  destruct (ad rec); [|split; assumption].
  rewrite (pair_shape _ L). revert H.
  generalize (arr_get (ad_het s) 0), (arr_get (ad_het s) 1). intros a0 a1 H.
  destruct (Had i) as [H0 H1]. revert H0 H1.
  generalize (arr_get (ad0_arr rec) i), (arr_get (ad1_arr rec) i). intros r0 r1 H0 H1.
  cbv [arr_add arr_get pair_ok]. simpl. repeat split; lia.
Qed.

Lemma aggregate_ad (args : args_t) (rec : bcf1_t) (b0 b1 : gmap Z float) :
  0 ≤ args_nsmpl args → ad_ok rec → pair_ok (ad_het (aggregate args rec b0 b1)).
Proof.
  intros Hn Had. unfold aggregate.
  pose proof (for_loop_inv (sample_step args rec) (fun _ s => pair_ok (ad_het s))
                0 (args_nsmpl args) (agg_init b0 b1) Hn) as H.
  rewrite Z.sub_0_r in H. apply H.
  - cbv [pair_ok arr_get]. simpl. repeat split; lia.
  - intros i t _ Ht. apply sample_step_ad; assumption.
Qed.

Section battery_table.
Variable log10 : float → float.
Variable binom_dist : Z → float → Z → float.
Variable kt_fisher_exact : Z → Z → Z → Z → float.
Variable get_median : list float → float.
Variable kf_betai : float → float → float → float.
Variable mwu_pvalue : Z → Z → Q → Z → float.
Variable get_cov : list (float * float) → float * float * float.

Lemma binom_test_reachable (tab : binom_tab) (c : list Z) :
  binom_reachable binom_dist tab → pair_ok c →
  binom_reachable binom_dist
    (binom_test log10 binom_dist tab (arr_get c 0) (arr_get c 0 + arr_get c 1)).2.
Proof.
  intros Hr (_ & H0 & H1). unfold binom_test.
  pose proof (reach_call binom_dist tab (arr_get c 0) (arr_get c 0 + arr_get c 1) Hr
                ltac:(lia)) as H.
  destruct (binom_exact binom_dist tab _ _) as [p t]. exact H.
Qed.

Lemma test_battery_reachable (args : args_t) (s : agg_t) (tab : binom_tab) out tab' :
  pair_ok (ac_het_phase s) → pair_ok (fmt_bal s) → pair_ok (fmt_bal_phase s) →
  pair_ok (ad_het s) →
  binom_reachable binom_dist tab →
  test_battery log10 binom_dist kt_fisher_exact get_median kf_betai mwu_pvalue args s tab
    = Some (out, tab') →
  binom_reachable binom_dist tab'.
Proof.
  intros Hh Hf Hg Ha Hr. unfold test_battery.
  destruct (args_gender args), (args_phase args), (args_format args), (args_ad args).
  all: repeat match goal with
              | |- context [binom_test log10 binom_dist ?t (arr_get ?c 0) ?n] =>
                  let H := fresh "R" in
                  assert (H : binom_reachable binom_dist
                                (binom_test log10 binom_dist t (arr_get c 0) n).2)
                    by (apply binom_test_reachable; assumption);
                  destruct (binom_test log10 binom_dist t (arr_get c 0) n) as [? ?];
                  cbn [snd] in H; cbv beta iota zeta
              end.
  all: cbn [andb].
  all: repeat match goal with |- context [if ?b then _ else _] => destruct b end.
  all: try destruct (baf_phase_test _ _ _ _ s); intros E; try discriminate.
  all: injection E as _ <-; assumption.
Qed.


Lemma binom_exact_positive (t : binom_tab) (c : list Z) :
  binom_reachable binom_dist t → pair_ok c → arr_get c 0 + arr_get c 1 ≤ 1000 →
  flt 0 (binom_exact binom_dist t (arr_get c 0) (arr_get c 0 + arr_get c 1)).1 = true.
Proof.
  intros Hr (_ & H0 & H1) Hn.
  set (k := arr_get c 0) in *. set (n := k + arr_get c 1).
  destruct (Z.eq_dec k (Z.shiftr n 1)) as [Hmid|Hmid].
  - destruct (binom_exact_spec binom_dist t k n (binom_reachable_ok _ _ Hr)) as [_ Hv];
      [unfold n; lia..|].
    apply Z.eqb_eq in Hmid. rewrite Hmid in Hv. rewrite Hv. reflexivity.
  - destruct (binom_exact_cell binom_dist t k n Hr) as [Hv Hgood];
      [unfold n; lia | unfold n; lia | exact Hmid |].
    rewrite Hv. unfold cell_good in Hgood.
    apply andb_prop in Hgood as [Hgood _]. apply andb_prop in Hgood as [Hgood _].
    apply andb_prop in Hgood as [_ Hpos]. exact Hpos.
Qed.

(** X19.  With at most 1000 samples, the p-value of each of the three binomial
    tests on counts of samples (AC_Het_Phase_Test, Bal_Test and
    Bal_Phase_Test) is a positive number on any table reached from the
    empty one: [log10] is taken neither of NaN nor of 0. *)
Theorem battery_tests_positive (args : args_t) (rec : bcf1_t) (b0 b1 : gmap Z float)
        (t : binom_tab) :
  0 ≤ args_nsmpl args ≤ 1000 → sign_ok rec → binom_reachable binom_dist t →
  let s := aggregate args rec b0 b1 in
  let p (c : list Z) := (binom_exact binom_dist t (arr_get c 0) (arr_get c 0 + arr_get c 1)).1 in
  flt 0 (p (ac_het_phase s)) = true ∧ flt 0 (p (fmt_bal s)) = true ∧
  flt 0 (p (fmt_bal_phase s)) = true.
Proof.
  intros Hn Hsign Hr s p.
  destruct (aggregate_inv False args rec b0 b1 ltac:(lia) Hsign) as [Hc _]; [tauto|].
  fold s in Hc. destruct Hc as (Hh & Hf & Hg & _ & H1 & _ & H3 & H4 & _ & _ & Hs).
  unfold pair_sum in *.
  assert (ac_het s ≤ args_nsmpl args) by lia.
  unfold p. split; [|split]; apply binom_exact_positive; try assumption; lia.
Qed.
End battery_table.


Lemma battery_tests_positive_witness :
  flt 0 (binom_exact no_binom_dist binom_tab_init 2 4).1 = true ∧
  ac_het_phase (aggregate (args0 4)
                  (rec0 [0; 0; 1; 1] [1; 1; 0; 0] [1; 1; -1; -1]
                        (Some [0.5625; 0.5625; 0.4375; 0.4375]%float) None) ∅ ∅) = [2; 2].
Proof.
  split; [|reflexivity].
  refine (proj1 (battery_tests_positive no_binom_dist (args0 4)
                   (rec0 [0; 0; 1; 1] [1; 1; 0; 0] [1; 1; -1; -1]
                         (Some [0.5625; 0.5625; 0.4375; 0.4375]%float) None)
                   ∅ ∅ binom_tab_init _ (sign_ok_rec0 _ _ _ _ _) (reach_init _))).
  simpl. lia.
Defined.

(** ** The GC and CpG counts *)

Lemma count_cpg_snoc (l : list Z) (y : Z) :
  count_cpg (l ++ [y])
  = count_cpg l + (if (default 0 (last l) =? 67) && (y =? 71) then 1 else 0).
Proof.
  induction l as [|x [|z l] IH].
  - reflexivity.
  - simpl. lia.
  - change ((x :: z :: l) ++ [y]) with (x :: ((z :: l) ++ [y])).
    change (count_cpg (x :: (z :: l) ++ [y]))
      with ((if (x =? 67) && (z =? 71) then 1 else 0) + count_cpg ((z :: l) ++ [y])).
    rewrite IH. change (last (x :: z :: l)) with (last (z :: l)).
    change (count_cpg (x :: z :: l))
      with ((if (x =? 67) && (z =? 71) then 1 else 0) + count_cpg (z :: l)).
    lia.
Qed.

Lemma count_bases_snoc (f : Z → bool) (l : list Z) (y : Z) :
  count_bases f (l ++ [y]) = count_bases f l + (if f y then 1 else 0).
Proof.
  unfold count_bases. rewrite List.filter_app, length_app. simpl.
  destruct (f y); simpl; lia.
Qed.

Lemma gc_step_scan (fa : list Z) (i : nat) (st : list Z * Z * Z * Z) :
  (i < length fa)%nat → gc_scan fa i st → gc_scan fa (S i) (gc_step st (Z.of_nat i)).
Proof.
  intros Hi. destruct st as [[[cur at_cnt] cg_cnt] cpg_cnt].
  intros (Hcur & Hat & Hcg & Hcpg).
  destruct (lookup_lt_is_Some_2 fa i Hi) as [c Hc].
  assert (Hlen : length (map upper (take i fa)) = i).
  { rewrite length_map, length_take. lia. }
  assert (Hget : arr_get cur (Z.of_nat i) = c).
  { unfold arr_get. rewrite Nat2Z.id, nth_lookup, Hcur.
    rewrite lookup_app_r by lia. rewrite Hlen, Nat.sub_diag, lookup_drop, Nat.add_0_r, Hc.
    reflexivity. }
  assert (Hnext : map upper (take (S i) fa) = map upper (take i fa) ++ [upper c]).
  { rewrite (take_S_r _ _ _ Hc), map_app. reflexivity. }
  set (cur' := if 96 <? arr_get cur (Z.of_nat i)
               then <[Z.to_nat (Z.of_nat i) := arr_get cur (Z.of_nat i) - 32]> cur else cur).
  assert (Hcur' : cur' = map upper (take (S i) fa) ++ drop (S i) fa).
  { unfold cur'. rewrite Hget, Nat2Z.id, Hnext, <- app_assoc. simpl.
    assert (Hmid : cur = map upper (take i fa) ++ c :: drop (S i) fa).
    { rewrite Hcur, (drop_S _ _ _ Hc). reflexivity. }
    unfold upper. destruct (96 <? c); [|exact Hmid].
    rewrite Hmid. rewrite <- Hlen at 1. rewrite insert_app_r_alt by lia.
    rewrite Nat.sub_diag. reflexivity. }
  assert (Hget' : arr_get cur' (Z.of_nat i) = upper c).
  { unfold arr_get. rewrite Nat2Z.id, nth_lookup, Hcur', Hnext, <- app_assoc.
    rewrite lookup_app_r by lia. rewrite Hlen, Nat.sub_diag. reflexivity. }
  assert (Hprev : (0 < i)%nat →
                  arr_get cur' (Z.of_nat i - 1) = default 0 (last (map upper (take i fa)))).
  { intros Hpos. unfold arr_get. rewrite nth_lookup, Hcur', Hnext, <- app_assoc.
    rewrite lookup_app_l by lia. rewrite last_lookup, Hlen.
    replace (Z.to_nat (Z.of_nat i - 1)) with (Nat.pred i) by lia. reflexivity. }
  unfold gc_step. fold cur'. unfold gc_scan.
  split; [exact Hcur'|]. rewrite Hget', Hnext, !count_bases_snoc, count_cpg_snoc.
  fold (is_at (upper c)). fold (is_cg (upper c)).
  split; [destruct (is_at (upper c)); lia|]. split; [destruct (is_cg (upper c)); lia|].
  destruct (Z.ltb_spec 0 (Z.of_nat i)) as [Hpos|Hzero].
  - rewrite Hprev by lia. destruct (_ && _); lia.
  - assert (i = 0%nat) by lia. subst i. simpl in Hcpg |- *. lia.
Qed.

(** X20.  The three counts of a window are those of its bases, upper and lower
    case alike: the number of A and T, the number of C and G, and twice the
    number of places where a C is followed by a G. *)
Theorem gc_counts_spec (fa : list Z) :
  gc_counts fa = (count_bases is_at (map upper fa), count_bases is_cg (map upper fa),
                  2 * count_cpg (map upper fa)).
Proof.
  unfold gc_counts.
  pose proof (for_loop_inv gc_step (fun i st => gc_scan fa (Z.to_nat i) st)
                0 (Z.of_nat (length fa)) (fa, 0, 0, 0) ltac:(lia)) as H.
  rewrite Z.sub_0_r in H.
  destruct (fold_left gc_step _ _) as [[[cur at_cnt] cg_cnt] cpg_cnt].
  destruct H as (_ & Hat & Hcg & Hcpg).
  - simpl. repeat split.
  - intros i t Hi Ht. replace (Z.to_nat (i + 1)) with (S (Z.to_nat i)) by lia.
    rewrite <- (Z2Nat.id i) at 2 by lia. apply gc_step_scan; [lia|exact Ht].
  - rewrite Nat2Z.id, firstn_all in Hat, Hcg, Hcpg. subst. reflexivity.
Qed.

(** ** [init] and the fields [process] writes *)

Lemma incl_check (l k : list string) :
  forallb (fun x => existsb (String.eqb x) k) l = true → ∀ name, In name l → In name k.
Proof.
  intros H name Hin. rewrite forallb_forall in H. specialize (H name Hin).
  apply existsb_exists in H as (y & Hy & E). apply String.eqb_eq in E. subst y. exact Hy.
Qed.

Section written_fields.
Variable log10 : float → float.
Variable binom_dist : Z → float → Z → float.
Variable kt_fisher_exact : Z → Z → Z → Z → float.
Variable get_median : list float → float.
Variable kf_betai : float → float → float → float.
Variable mwu_pvalue : Z → Z → Q → Z → float.
Variable get_cov : list (float * float) → float * float * float.

(** Membership in a list of names given in full. *)
Lemma test_battery_written (args : args_t) (s : agg_t) (tab : binom_tab) out tab' name :
  args_nsmpl args ≠ 0 →
  test_battery log10 binom_dist kt_fisher_exact get_median kf_betai mwu_pvalue args s tab
    = Some (out, tab') →
  In name (map fst out) → In name (may_write args).
Proof.
  intros Hn E Hin. unfold may_write.
  destruct (Z.eqb_spec (args_nsmpl args) 0); [contradiction|].
  apply in_or_app. right. revert Hin E. unfold test_battery, binom_test.
  destruct (args_gender args), (args_phase args), (args_format args), (args_ad args).
  all: repeat match goal with
              | |- context [binom_exact ?d ?t ?k ?n] =>
                  destruct (binom_exact d t k n); cbv beta iota zeta
              end.
  all: cbn [andb].
  all: repeat match goal with |- context [if ?b then _ else _] => destruct b end.
  all: try destruct (baf_phase_test _ _ _ _ s); intros Hin E; try discriminate.
  all: injection E as <- _; revert Hin; apply incl_check; reflexivity.
Qed.

Lemma process_written (args : args_t) (rec : bcf1_t) (tab : binom_tab)
      (b0 b1 : gmap Z float) (name : string) :
  In name (written (process log10 binom_dist kt_fisher_exact get_median kf_betai
                            mwu_pvalue get_cov args rec tab b0 b1)) →
  In name (may_write args).
Proof.
  unfold written, process.
  assert (H0 : ∀ out0,
            (if args_fai args then
               match fa rec with
               | None => None
               | Some w =>
                   Some [("GC"%string, info_float [(gc_content w).1]);
                         ("CpG"%string, info_float [(gc_content w).2])]
               end
             else Some []) = Some out0 →
            In name (map fst out0) → In name (may_write args)).
  { intros out0 E Hin. unfold may_write. apply in_or_app. left.
    destruct (args_fai args); [destruct (fa rec); [|discriminate]|];
      injection E as <-; exact Hin. }
  destruct (if args_fai args then _ else _) as [out0|]; [|intros []].
  specialize (H0 out0 eq_refl).
  destruct (Z.eqb_spec (args_nsmpl args) 0) as [Hz|Hnz]; [exact H0|].
  destruct (negb (gt_alleles rec)); [exact H0|].
  destruct (test_battery _ _ _ _ _ _ args _ tab) as [[out1 tab1]|] eqn:Hb; [|intros []].
  pose proof (fun H => test_battery_written _ _ _ _ _ name Hnz Hb H) as H1.
  assert (Htail : ∀ l, In name l →
            incl l ((if args_infer_baf_alleles args
                     then ["ALLELE_A"%string; "ALLELE_B"%string] else [])
                    ++ (if args_cor_baf_lrr args then ["Cor_BAF_LRR"%string] else [])) →
            In name (may_write args)).
  { intros l Hl Hincl. unfold may_write. apply in_or_app. right.
    destruct (Z.eqb_spec (args_nsmpl args) 0); [contradiction|].
    apply Hincl in Hl. rewrite !in_app_iff. rewrite in_app_iff in Hl. tauto. }
  destruct (negb _ || negb _).
  { rewrite map_app, in_app_iff. tauto. }
  match goal with
  | |- In name (match (match ?X with Some _ => _ | None => _ end) with _ => _ end) → _ =>
      destruct X as [out2|] eqn:H2; [|intros []]
  end.
  rewrite !map_app, !in_app_iff. intros [Hin|[Hin|Hin]]; [tauto | tauto |].
  apply (Htail (map fst out2 ++ map fst (if args_cor_baf_lrr args
                                        then [("Cor_BAF_LRR"%string,
                                               info_float [cor_baf_lrr get_cov rec (args_nsmpl args) 0;
                                                           cor_baf_lrr get_cov rec (args_nsmpl args) 1;
                                                           cor_baf_lrr get_cov rec (args_nsmpl args) 2])]
                                        else []))).
  - rewrite in_app_iff. exact Hin.
  - apply incl_app_app.
    + destruct (args_infer_baf_alleles args).
      * destruct (infer_alleles _ _ _) as [[a b]|]; [|discriminate].
        injection H2 as <-. apply incl_refl.
      * injection H2 as <-. apply incl_refl.
    + destruct (args_cor_baf_lrr args); apply incl_refl.
Qed.
End written_fields.

Section init_facts.
Variable log10 : float → float.
Variable binom_dist : Z → float → Z → float.
Variable kt_fisher_exact : Z → Z → Z → Z → float.
Variable get_median : list float → float.
Variable kf_betai : float → float → float → float.
Variable mwu_pvalue : Z → Z → Q → Z → float.
Variable get_cov : list (float * float) → float * float * float.

Lemma init_covers (o : init_opts) (id2int : string → Z) (nsmpl : Z) decl args name :
  init o id2int nsmpl = Some (decl, args) →
  In name (may_write args) →
  In name decl ∨
  (name = "BAF_Phase_Test"%string ∧ o_phase o = true ∧
   id2int "AD"%string < 0 ∧ id2int "BAF"%string < 0).
Proof.
  unfold init, may_write. destruct o as [fmt ad ph gen fai win inf cor].
  cbn [o_format o_ad o_phase o_gender o_fai o_gc_win o_infer_baf_alleles o_cor_baf_lrr
       args_phase args_ad args_gc_win args_format args_infer_baf_alleles args_cor_baf_lrr
       args_nsmpl args_gender args_fai].
  destruct (Z.eqb_spec nsmpl 0) as [Hz|Hnz].
  { intros E. injection E as <- <-. cbn [args_fai args_nsmpl].
    destruct (Z.eqb_spec nsmpl 0); [|contradiction].
    rewrite app_nil_r. tauto. }
  generalize (id2int "GT"%string), (id2int "AD"%string), (id2int "BAF"%string),
    (id2int "LRR"%string), (id2int "ALLELE_A"%string), (id2int "ALLELE_B"%string).
  intros gt_id ad_id baf_id lrr_id a_id b_id.
  generalize (match fmt with Some f => id2int f | None => -1 end). intros fmt_id.
  intros E.
  destruct fmt, ad, ph, inf, cor; cbn [andb orb] in E; cbv beta iota zeta in E.
  all: repeat match type of E with
              | context [?x <? 0] =>
                  destruct (Z.ltb_spec x 0); cbn [andb orb] in E; cbv beta iota in E;
                  try discriminate E
              | context [0 <=? ?x] =>
                  destruct (Z.leb_spec 0 x); cbn [andb orb] in E; cbv beta iota in E;
                  try discriminate E;
                  try match goal with
                      | H1 : ?y < 0, H2 : 0 ≤ ?y |- _ => exfalso; apply (Z.lt_irrefl 0); lia
                      end
              end.
  all: destruct gen, fai; cbv beta iota in E; injection E as <- <-.
  all: cbn [args_phase args_ad args_gc_win args_format args_infer_baf_alleles
            args_cor_baf_lrr args_nsmpl args_gender args_fai].
  all: destruct (Z.eqb_spec nsmpl 0); [contradiction|].
  all: intros Hin.
  all: first
         [ left; revert Hin; apply incl_check; reflexivity
         | match goal with
           | |- In _ ?D ∨ _ =>
               apply (incl_check _ (D ++ ["BAF_Phase_Test"%string])) in Hin;
               [|reflexivity]
           end;
           apply in_app_or in Hin as [Hin|[<-|[]]];
           [left; exact Hin | right; repeat split; assumption] ].
Qed.

(** X21.  Every INFO field a call of [process] writes has been declared in
    the output header by [init], BAF_Phase_Test under [--phase] with neither
    AD nor BAF in the input header apart (then [--balance] is what lets
    [init] pass): [init] does not declare it there. *)
Theorem init_declares_written (o : init_opts) (id2int : string → Z) (nsmpl : Z)
        decl args (rec : bcf1_t) (tab : binom_tab) (b0 b1 : gmap Z float) (name : string) :
  init o id2int nsmpl = Some (decl, args) →
  In name (written (process log10 binom_dist kt_fisher_exact get_median kf_betai
                            mwu_pvalue get_cov args rec tab b0 b1)) →
  In name decl ∨
  (name = "BAF_Phase_Test"%string ∧ o_phase o = true ∧
   id2int "AD"%string < 0 ∧ id2int "BAF"%string < 0).
Proof.
  intros E Hin. apply (init_covers o id2int nsmpl decl args name E).
  exact (process_written _ _ _ _ _ _ _ _ _ _ _ _ _ Hin).
Qed.

(** X22.  [--infer-BAF-alleles] and [--cor-BAF-LRR] exclude each other on a file
    with samples: the first asks that ALLELE_A is not in the input header
    and the second that it is, so [init] stops with an error. *)
Theorem init_infer_excludes_cor (o : init_opts) (id2int : string → Z) (nsmpl : Z) :
  o_infer_baf_alleles o = true → o_cor_baf_lrr o = true → nsmpl ≠ 0 →
  init o id2int nsmpl = None.
Proof.
  intros Hinf Hcor Hn. unfold init. rewrite Hinf, Hcor.
  destruct (Z.eqb_spec nsmpl 0); [contradiction|].
  repeat match goal with
         | |- (if ?b then None else _) = None => destruct b; [reflexivity|]
         end.
  destruct (Z.leb_spec 0 (id2int "ALLELE_A"%string)); [reflexivity|].
  destruct (0 <=? id2int "ALLELE_B"%string); [reflexivity|].
  destruct (Z.ltb_spec (id2int "ALLELE_A"%string) 0); [reflexivity|lia].
Qed.
End init_facts.

Lemma init_declares_written_witness :
  let o := {| o_format := None; o_ad := false; o_phase := true; o_gender := None;
              o_fai := false; o_gc_win := 200; o_infer_baf_alleles := true;
              o_cor_baf_lrr := false |} in
  let id2int := fun s : string => if String.eqb s "GT" || String.eqb s "BAF" then 1 else -1 in
  init o id2int 2
  = Some (["AC_Het"; "AC_Het_Phase"; "AC_Het_Phase_Test"; "BAF_Phase_Test";
           "ALLELE_A"; "ALLELE_B"]%string, args0 2) ∧
  (In "BAF_Phase_Test"%string
      ["AC_Het"; "AC_Het_Phase"; "AC_Het_Phase_Test"; "BAF_Phase_Test";
       "ALLELE_A"; "ALLELE_B"]%string ∨
   ("BAF_Phase_Test"%string = "BAF_Phase_Test"%string ∧ o_phase o = true ∧
    id2int "AD"%string < 0 ∧ id2int "BAF"%string < 0)).
Proof.
  intros o id2int. split; [reflexivity|].
  refine (init_declares_written no_log10 no_binom_dist no_fisher get_median_spec no_betai
            no_mwu_pvalue no_cov o id2int 2 _ (args0 2)
            (rec0 [0; 1] [1; 0] [1; -1] (Some [0.5625; 0.4375]%float) None)
            binom_tab_init ∅ ∅ "BAF_Phase_Test"%string eq_refl _).
  vm_compute. tauto.
Defined.

Lemma init_infer_excludes_cor_witness :
  init {| o_format := None; o_ad := false; o_phase := false; o_gender := None;
          o_fai := false; o_gc_win := 200; o_infer_baf_alleles := true;
          o_cor_baf_lrr := true |}
       (fun _ => 1) 2 = None.
Proof. apply init_infer_excludes_cor; [reflexivity|reflexivity|discriminate]. Defined.

(** The field left apart is written: under [--balance AS --phase] on a
    header with GT and AS only, a record with a phased heterozygous sample
    on each side gets BAF_Phase_Test, from what the two blocks happen to
    hold, and [init] has not declared it. *)
Example init_undeclared_field :
  let o := {| o_format := Some "AS"%string; o_ad := false; o_phase := true; o_gender := None;
              o_fai := false; o_gc_win := 200; o_infer_baf_alleles := false;
              o_cor_baf_lrr := false |} in
  let id2int := fun s : string => if String.eqb s "GT" || String.eqb s "AS" then 1 else -1 in
  let rec := {| n_allele := 2; fa := None; gt_phase := true; gt_phase_arr := [1; -1];
                gt_alleles := true; gt0_arr := [0; 1]; gt1_arr := [1; 0];
                fmt_sign := true; fmt_sign_arr := [1; 1];
                ad := false; ad0_arr := []; ad1_arr := [];
                baf_fmt := None; lrr_fmt := None; allele_a := 0; allele_b := 1 |} in
  ∃ decl args,
    init o id2int 2 = Some (decl, args) ∧
    existsb (String.eqb "BAF_Phase_Test") decl = false ∧
    existsb (String.eqb "BAF_Phase_Test")
            (written (process0 args rec binom_tab_init {[0 := 0.5%float]} {[0 := 0.25%float]}))
    = true.
Proof. do 2 eexists. split; [reflexivity|]. split; vm_compute; reflexivity. Qed.

